(** * blob: Shamir secret sharing over bytes, share serialization and validation

    A shallow embedding of [blob.py] and of the parts of the Python runtime it
    calls, followed by the properties of the library proved on that embedding.

    Conventions of the embedding.
    - A Python [int] is a [Z]; [%] is [Z.modulo] (both take the sign of the
      divisor) and raises [ZeroDivisionError] on a zero divisor.
    - A Python [str] is the list of its code points, [bytes] the list of its
      byte values.
    - A call that can raise returns a [result]; the exception classes that the
      code can meet are the constructors of [exn].
    - [secrets.randbelow] reads an explicit random tape, threaded as state. *)

From Stdlib Require Import ZArith Lia Bool String Ascii List.
From Stdlib Require Import Zcong Zdivisibility Znumtheory.
From Stdlib Require Import Morphisms Setoid FinFun ListDec ZifyBool.
Import ListNotations.
Open Scope Z_scope.

(* ================================================================== *)
(** * Part I. The Python runtime used by blob.py *)
(* ================================================================== *)

Module Py.

(** Exception classes.  [BinasciiError], [UnicodeDecodeError] and
    [UnicodeEncodeError] are subclasses of [ValueError]; [ZeroDivisionError]
    and [OverflowError] are subclasses of [ArithmeticError]. *)
Inductive exn : Type :=
| ValueError (msg : string)
| BinasciiError (msg : string)
| UnicodeDecodeError
| UnicodeEncodeError
| ZeroDivisionError
| OverflowError
| IndexError.

Definition is_ArithmeticError (e : exn) : bool :=
  match e with
  | ZeroDivisionError | OverflowError => true
  | _ => false
  end.

Definition is_ValueError (e : exn) : bool :=
  match e with
  | ValueError _ | BinasciiError _ | UnicodeDecodeError | UnicodeEncodeError => true
  | _ => false
  end.

(** Outcome of a call: a value, or a raised exception. *)
Inductive result (A : Type) : Type :=
| Ok (a : A)
| Raise (e : exn).
Arguments Ok {A} a.
Arguments Raise {A} e.

Definition bind {A B : Type} (r : result A) (k : A -> result B) : result B :=
  match r with
  | Ok a => k a
  | Raise e => Raise e
  end.

Declare Scope py_scope.
Delimit Scope py_scope with py.
Notation "x <- c ;; k" := (bind c (fun x => k))
  (at level 61, c at next level, right associativity) : py_scope.
Notation "' pat <- c ;; k" := (bind c (fun x => match x with pat => k end))
  (at level 61, pat pattern, c at next level, right associativity) : py_scope.
Open Scope py_scope.

Definition succeeded {A : Type} (r : result A) : bool :=
  match r with Ok _ => true | Raise _ => false end.

(** [str] and [bytes]. *)
Definition str : Type := list Z.
Definition bytes : Type := list Z.

(** The code points of an ASCII literal. *)
Definition lit (s : string) : str :=
  map (fun c => Z.of_N (N_of_ascii c)) (list_ascii_of_string s).

(** [a % p] *)
Definition mod_ (a p : Z) : result Z :=
  if p =? 0 then Raise ZeroDivisionError else Ok (a mod p).

(** [pow(x, i, p)] for an exponent [i >= 0]. *)
Definition pow3 (x i p : Z) : result Z :=
  if p =? 0 then Raise (ValueError "pow() 3rd argument cannot be 0")
  else Ok (x ^ i mod p).

(** [pow(a, -1, p)]: the inverse of [a] modulo [p], reduced like [%];
    [ValueError] when [a] is not invertible. *)
Definition pow_inv (a p : Z) : result Z :=
  if p =? 0 then Raise (ValueError "pow() 3rd argument cannot be 0")
  else if Z.gcd a p =? 1 then Ok (Z.invmod a p)
  else Raise (ValueError "base is not invertible for the given modulus").

(** [len(set(xs))] for a list of integers. *)
Definition set_len (xs : list Z) : nat := length (nodup Z.eq_dec xs).

(** [zip(xs, ys)] is [combine].  [zip( *rows)]: the columns of [rows], as many
    as the shortest row has elements; no column for no row. *)
Fixpoint zip_cons {A : Type} (l : list A) (cols : list (list A)) : list (list A) :=
  match l, cols with
  | a :: l', c :: cols' => (a :: c) :: zip_cons l' cols'
  | _, _ => []
  end.

Fixpoint zip_star {A : Type} (rows : list (list A)) : list (list A) :=
  match rows with
  | [] => []
  | l :: rest =>
      match rest with
      | [] => map (fun a => [a]) l
      | _ :: _ => zip_cons l (zip_star rest)
      end
  end.

(** [str.isascii()] *)
Definition isascii (s : str) : bool := forallb (fun c => c <? 128) s.

(** ** The random source *)

(** [tape] holds the entropy still to come, [pos] counts the draws made. *)
Record rng : Type := mkRng { tape : nat -> Z; pos : nat }.

(** [secrets.randbelow(n)]: some integer of [[0, n)], chosen by the tape. *)
Definition randbelow (n : Z) (g : rng) : result (Z * rng) :=
  if n <=? 0 then Raise (ValueError "Upper bound must be positive.")
  else Ok (tape g (pos g) mod n, mkRng (tape g) (S (pos g))).

(** ** Text: UTF-8, whitespace, splitting *)

(** The UTF-8 encoding of one code point ([str.encode()]); surrogates cannot
    be encoded. *)
Definition utf8_encode_char (c : Z) : result (list Z) :=
  if c <? 0x80 then Ok [c]
  else if c <? 0x800 then Ok [0xC0 + c / 64; 0x80 + c mod 64]
  else if (0xD800 <=? c) && (c <=? 0xDFFF) then Raise UnicodeEncodeError
  else if c <? 0x10000 then
    Ok [0xE0 + c / 4096; 0x80 + (c / 64) mod 64; 0x80 + c mod 64]
  else
    Ok [0xF0 + c / 262144; 0x80 + (c / 4096) mod 64; 0x80 + (c / 64) mod 64;
        0x80 + c mod 64].

Fixpoint utf8_encode (s : str) : result bytes :=
  match s with
  | [] => Ok []
  | c :: r =>
      bs <- utf8_encode_char c ;;
      rest <- utf8_encode r ;;
      Ok (bs ++ rest)
  end.

(** A continuation byte. *)
Definition is_cont (b : Z) : bool := (0x80 <=? b) && (b <=? 0xBF).

(** The second byte allowed after the lead byte [b0] of a three-byte
    sequence: no overlong form, no surrogate. *)
Definition second3 (b0 b1 : Z) : bool :=
  if b0 =? 0xE0 then (0xA0 <=? b1) && (b1 <=? 0xBF)
  else if b0 =? 0xED then (0x80 <=? b1) && (b1 <=? 0x9F)
  else is_cont b1.

(** The second byte allowed after the lead byte [b0] of a four-byte
    sequence: no overlong form, nothing above U+10FFFF. *)
Definition second4 (b0 b1 : Z) : bool :=
  if b0 =? 0xF0 then (0x90 <=? b1) && (b1 <=? 0xBF)
  else if b0 =? 0xF4 then (0x80 <=? b1) && (b1 <=? 0x8F)
  else is_cont b1.

(** [bytes.decode()]: strict UTF-8. *)
Fixpoint utf8_decode (bs : bytes) : result str :=
  match bs with
  | [] => Ok []
  | b0 :: r0 =>
      if b0 <? 0x80 then
        s <- utf8_decode r0 ;; Ok (b0 :: s)
      else if (0xC2 <=? b0) && (b0 <=? 0xDF) then
        match r0 with
        | b1 :: r1 =>
            if is_cont b1 then
              s <- utf8_decode r1 ;;
              Ok (((b0 - 0xC0) * 64 + (b1 - 0x80)) :: s)
            else Raise UnicodeDecodeError
        | _ => Raise UnicodeDecodeError
        end
      else if (0xE0 <=? b0) && (b0 <=? 0xEF) then
        match r0 with
        | b1 :: b2 :: r2 =>
            if second3 b0 b1 && is_cont b2 then
              s <- utf8_decode r2 ;;
              Ok (((b0 - 0xE0) * 4096 + (b1 - 0x80) * 64 + (b2 - 0x80)) :: s)
            else Raise UnicodeDecodeError
        | _ => Raise UnicodeDecodeError
        end
      else if (0xF0 <=? b0) && (b0 <=? 0xF4) then
        match r0 with
        | b1 :: b2 :: b3 :: r3 =>
            if second4 b0 b1 && is_cont b2 && is_cont b3 then
              s <- utf8_decode r3 ;;
              Ok (((b0 - 0xF0) * 262144 + (b1 - 0x80) * 4096
                   + (b2 - 0x80) * 64 + (b3 - 0x80)) :: s)
            else Raise UnicodeDecodeError
        | _ => Raise UnicodeDecodeError
        end
      else Raise UnicodeDecodeError
  end.

(** [str.isspace()] on one character: the white space of the Unicode
    database. *)
Definition isspace (c : Z) : bool :=
  ((9 <=? c) && (c <=? 13)) || ((28 <=? c) && (c <=? 32))
  || (c =? 0x85) || (c =? 0xA0) || (c =? 0x1680)
  || ((0x2000 <=? c) && (c <=? 0x200A))
  || (c =? 0x2028) || (c =? 0x2029) || (c =? 0x202F) || (c =? 0x205F)
  || (c =? 0x3000).

Fixpoint lstrip (s : str) : str :=
  match s with
  | [] => []
  | c :: r => if isspace c then lstrip r else s
  end.

Definition rstrip (s : str) : str := rev (lstrip (rev s)).

(** [s.strip()] *)
Definition strip (s : str) : str := rstrip (lstrip s).

(** [s.split(sep)] for a separator of one character: never empty. *)
Fixpoint split (sep : Z) (s : str) : list str :=
  match s with
  | [] => [[]]
  | c :: r =>
      if c =? sep then [] :: split sep r
      else match split sep r with
           | w :: ws => (c :: w) :: ws
           | [] => [[c]]
           end
  end.

(** ** Integers and text *)

(** The decimal digits of [n >= 0], most significant first, in front of
    [acc]. *)
Fixpoint digits_fuel (fuel : nat) (n : Z) (acc : list Z) : list Z :=
  match fuel with
  | O => acc
  | S f =>
      let acc' := (48 + n mod 10) :: acc in
      if n <? 10 then acc' else digits_fuel f (n / 10) acc'
  end.

Definition str_of_nonneg (n : Z) : str :=
  digits_fuel (S (Z.to_nat (Z.log2 n))) n [].

(** [str(x)], which is what [f"{x}"] prints. *)
Definition str_of_int (x : Z) : str :=
  if x <? 0 then 45 :: str_of_nonneg (- x) else str_of_nonneg x.

(** White space for the integer parser ([Py_ISSPACE]). *)
Definition c_isspace (c : Z) : bool := ((9 <=? c) && (c <=? 13)) || (c =? 32).

Definition is_digit (c : Z) : bool := (48 <=? c) && (c <=? 57).

Fixpoint c_lstrip (s : list Z) : list Z :=
  match s with
  | [] => []
  | c :: r => if c_isspace c then c_lstrip r else s
  end.

(** The digits that follow a first digit: single underscores are allowed
    between two digits.  Returns the value and the input left. *)
Fixpoint scan_digits (s : list Z) (acc : Z) : option (Z * list Z) :=
  match s with
  | [] => Some (acc, [])
  | c :: r =>
      if is_digit c then scan_digits r (acc * 10 + (c - 48))
      else if c =? 95 then
        match r with
        | d :: r' =>
            if is_digit d then scan_digits r' (acc * 10 + (d - 48)) else None
        | [] => None
        end
      else Some (acc, s)
  end.

(** [int] in base 10 on an ASCII buffer: white space, a sign, digits, white
    space.  (The interpreter's optional limit on the number of digits is a
    resource limit and is not modelled.) *)
Definition int_of_ascii (buf : list Z) : result Z :=
  let invalid := Raise (ValueError "invalid literal for int() with base 10") in
  let b0 := c_lstrip buf in
  let '(neg, b1) :=
    match b0 with
    | c :: r => if c =? 43 then (false, r) else if c =? 45 then (true, r) else (false, b0)
    | [] => (false, b0)
    end in
  match b1 with
  | c :: r =>
      if is_digit c then
        match scan_digits r (c - 48) with
        | Some (v, rest) =>
            if forallb c_isspace rest then Ok (if neg then - v else v)
            else invalid
        | None => invalid
        end
      else invalid
  | [] => invalid
  end.

Section UnicodeDatabase.

(** The decimal value that the interpreter's Unicode database gives to a
    character that is not ASCII (its decimal digits of other scripts), if
    any. *)
Variable todecimal : Z -> option Z.

(** What [int] does to a [str] before parsing: ASCII is kept, other white
    space becomes a blank, other decimal digits become ASCII digits, and
    anything else becomes a question mark that ends the buffer. *)
Fixpoint to_ascii (s : str) : list Z :=
  match s with
  | [] => []
  | c :: r =>
      if c <? 128 then c :: to_ascii r
      else if isspace c then 32 :: to_ascii r
      else match todecimal c with
           | Some d => (48 + d) :: to_ascii r
           | None => [63]
           end
  end.

(** [int(s)] for a [str]. *)
Definition int_of_str (s : str) : result Z := int_of_ascii (to_ascii s).

End UnicodeDatabase.

(** ** Bytes *)

(** [y.to_bytes(2, 'big')] *)
Definition to_bytes2 (y : Z) : result bytes :=
  if y <? 0 then Raise OverflowError
  else if 65536 <=? y then Raise OverflowError
  else Ok [y / 256; y mod 256].

(** [int.from_bytes(b[i:i+2], 'big')] for [i] = 0, 2, 4, ...: the last slice
    of a buffer of odd length has one byte. *)
Fixpoint be16_list (bs : bytes) : list Z :=
  match bs with
  | hi :: lo :: r => (hi * 256 + lo) :: be16_list r
  | [b] => [b]
  | [] => []
  end.

(** ** base64 *)

(** The character of a 6-bit value in the standard alphabet. *)
Definition b64char (v : Z) : Z :=
  if v <? 26 then 65 + v
  else if v <? 52 then 97 + (v - 26)
  else if v <? 62 then 48 + (v - 52)
  else if v =? 62 then 43
  else 47.

(** [base64.b64encode]: three bytes give four characters, the tail is padded
    with [=] (61).  The shifts and masks of the codec are written as
    divisions and remainders. *)
Fixpoint b64encode (bs : bytes) : list Z :=
  match bs with
  | [] => []
  | [a] => [b64char (a / 4); b64char ((a mod 4) * 16); 61; 61]
  | [a; b] =>
      [b64char (a / 4); b64char ((a mod 4) * 16 + b / 16);
       b64char ((b mod 16) * 4); 61]
  | a :: b :: c :: rest =>
      b64char (a / 4) :: b64char ((a mod 4) * 16 + b / 16)
      :: b64char ((b mod 16) * 4 + c / 64) :: b64char (c mod 64)
      :: b64encode rest
  end.

(** The 6-bit value of a character of the alphabet. *)
Definition b64val (c : Z) : option Z :=
  if (65 <=? c) && (c <=? 90) then Some (c - 65)
  else if (97 <=? c) && (c <=? 122) then Some (c - 97 + 26)
  else if (48 <=? c) && (c <=? 57) then Some (c - 48 + 52)
  else if c =? 43 then Some 62
  else if c =? 47 then Some 63
  else None.

(** [binascii.a2b_base64] without strict mode.  [quad_pos] is the position in
    the current group of four characters, [leftchar] the bits left from the
    previous character, [pads] the number of [=] met since the last character
    of the alphabet.  Characters outside the alphabet are skipped; padding
    that completes a group ends the decoding, any other padding is skipped. *)
Fixpoint a2b_loop (s : list Z) (quad_pos : nat) (leftchar : Z) (pads : nat)
  : result bytes :=
  match s with
  | [] =>
      match quad_pos with
      | O => Ok []
      | 1%nat => Raise (BinasciiError "Invalid base64-encoded string")
      | _ => Raise (BinasciiError "Incorrect padding")
      end
  | c :: r =>
      if c =? 61 then
        if (2 <=? quad_pos)%nat then
          if (4 <=? quad_pos + S pads)%nat then Ok []
          else a2b_loop r quad_pos leftchar (S pads)
        else a2b_loop r quad_pos leftchar pads
      else
        match b64val c with
        | None => a2b_loop r quad_pos leftchar pads
        | Some v =>
            match quad_pos with
            | O => a2b_loop r 1 v 0
            | 1%nat =>
                bs <- a2b_loop r 2 (v mod 16) 0 ;;
                Ok ((leftchar * 4 + v / 16) :: bs)
            | 2%nat =>
                bs <- a2b_loop r 3 (v mod 4) 0 ;;
                Ok ((leftchar * 16 + v / 4) :: bs)
            | _ =>
                bs <- a2b_loop r 0 0 0 ;;
                Ok ((leftchar * 64 + v) :: bs)
            end
        end
  end.

(** [base64.b64decode(s)] for a [str]: the text must be ASCII. *)
Definition b64decode (s : str) : result bytes :=
  if isascii s then a2b_loop s 0 0 0
  else Raise (ValueError "string argument should contain only ASCII characters").

End Py.

Import Py.
Open Scope py_scope.

(* ================================================================== *)
(** * Part II. blob.py *)
(* ================================================================== *)

Module Blob.

(** A share point [(x, y)] and a participant's share. *)
Definition point : Type := (Z * Z)%type.
Definition share : Type := list point.

Definition PRIME : Z := 257.

(** ** Secret sharing core *)

(** [modinv(a, p)]: [pow(a, -1, p)]. *)
Definition modinv (a p : Z) : result Z := pow_inv a p.

(** The sum of [eval_poly], term by term: [acc] is the running sum and [i] the
    index [enumerate] gives to the head of [coeffs]. *)
Fixpoint eval_poly_sum (coeffs : list Z) (i : Z) (x p : Z) (acc : Z) : result Z :=
  match coeffs with
  | [] => Ok acc
  | c :: rest =>
      t <- pow3 x i p ;;
      eval_poly_sum rest (i + 1) x p (acc + c * t)
  end.

(** [eval_poly(coeffs, x, p)] *)
Definition eval_poly (coeffs : list Z) (x p : Z) : result Z :=
  s <- eval_poly_sum coeffs 0 x p 0 ;;
  mod_ s p.

(** The inner loop of [lagrange_interp] for the point of index [i] and
    abscissa [xi]: [j] is the index of the head of [xs], [li] the product so
    far. *)
Fixpoint li_loop (xs : list Z) (j i : nat) (xi p li : Z) : result Z :=
  match xs with
  | [] => Ok li
  | xj :: rest =>
      li' <- (if Nat.eqb i j then Ok li
              else inv <- modinv (xi - xj) p ;;
                   mod_ (li * (- xj) * inv) p) ;;
      li_loop rest (S j) i xi p li'
  end.

(** The outer loop of [lagrange_interp] over [zip(xs, ys)], from index [i]. *)
Fixpoint interp_loop (pts : list (Z * Z)) (i : nat) (xs : list Z) (p total : Z)
  : result Z :=
  match pts with
  | [] => Ok total
  | (xi, yi) :: rest =>
      li <- li_loop xs 0 i xi p 1 ;;
      total' <- mod_ (total + yi * li) p ;;
      interp_loop rest (S i) xs p total'
  end.

(** [lagrange_interp(xs, ys, p)] *)
Definition lagrange_interp (xs ys : list Z) (p : Z) : result Z :=
  if negb (Nat.eqb (set_len xs) (length xs))
  then Raise (ValueError "Duplicate x values in shares.")
  else interp_loop (combine xs ys) 0 xs p 0.

(** [[secrets.randbelow(PRIME) for _ in range(m)]] *)
Fixpoint rand_coeffs (m : nat) (g : rng) : result (list Z * rng) :=
  match m with
  | O => Ok ([], g)
  | S m' =>
      '(c, g1) <- randbelow PRIME g ;;
      '(cs, g2) <- rand_coeffs m' g1 ;;
      Ok (c :: cs, g2)
  end.

(** [[(x, eval_poly(coeffs, x, PRIME)) for x in xs]] *)
Fixpoint eval_points (coeffs : list Z) (xs : list Z) : result (list point) :=
  match xs with
  | [] => Ok []
  | x :: rest =>
      y <- eval_poly coeffs x PRIME ;;
      pts <- eval_points coeffs rest ;;
      Ok ((x, y) :: pts)
  end.

(** [range(1, n + 1)] *)
Definition range1 (n : Z) : list Z :=
  map (fun i => Z.of_nat i + 1) (seq 0 (Z.to_nat n)).

(** [split_secret(byte, n, k)] *)
Definition split_secret (byte n k : Z) (g : rng) : result (list point * rng) :=
  '(rs, g') <- rand_coeffs (Z.to_nat (k - 1)) g ;;
  let coeffs := [byte] ++ rs in
  pts <- eval_points coeffs (range1 n) ;;
  Ok (pts, g').

(** [recover_secret(shares)]: unpacking [zip( *shares)] into [xs, ys] needs a
    point. *)
Definition recover_secret (shares : list point) : result Z :=
  match shares with
  | [] => Raise (ValueError "not enough values to unpack (expected 2, got 0)")
  | _ :: _ => lagrange_interp (map fst shares) (map snd shares) PRIME
  end.

(** [shares[i].append(s)] for [i, s in enumerate(pts)], from index [i].  The
    [n] lists of [shares] are distinct objects, so appending to one leaves
    the others as they are. *)
Fixpoint append_points (pts : list point) (i : nat) (shares : list share)
  : result (list share) :=
  match pts with
  | [] => Ok shares
  | s :: rest =>
      match nth_error shares i with
      | None => Raise IndexError
      | Some sh =>
          append_points rest (S i)
            (firstn i shares ++ (sh ++ [s]) :: skipn (S i) shares)
      end
  end.

(** The loop of [encode_secret] over the bytes of the secret. *)
Fixpoint encode_loop (bs : bytes) (n k : Z) (shares : list share) (g : rng)
  : result (list share * rng) :=
  match bs with
  | [] => Ok (shares, g)
  | b :: rest =>
      '(pts, g1) <- split_secret b n k g ;;
      shares1 <- append_points pts 0 shares ;;
      encode_loop rest n k shares1 g1
  end.

(** [encode_secret(secret, n, k)] *)
Definition encode_secret (secret : str) (n k : Z) (g : rng)
  : result (list share * rng) :=
  if negb (isascii secret) then Raise (ValueError "Only ASCII secrets supported.")
  else
    let shares := repeat ([] : share) (Z.to_nat n) in
    bs <- utf8_encode secret ;;
    encode_loop bs n k shares g.

(** The argument of [bytes(...)] in [decode_secret]: each column is
    recovered in turn and must be a byte. *)
Fixpoint recover_bytes (cols : list (list point)) : result bytes :=
  match cols with
  | [] => Ok []
  | byte_shares :: rest =>
      v <- recover_secret byte_shares ;;
      if (0 <=? v) && (v <? 256) then
        vs <- recover_bytes rest ;;
        Ok (v :: vs)
      else Raise (ValueError "bytes must be in range(0, 256)")
  end.

(** [decode_secret(shares)] *)
Definition decode_secret (shares : list share) : result str :=
  bs <- recover_bytes (zip_star shares) ;;
  utf8_decode bs.

(** ** Share serialization *)

(** [b''.join(y.to_bytes(2, 'big') for _, y in share)] *)
Fixpoint join_y_bytes (sh : share) : result bytes :=
  match sh with
  | [] => Ok []
  | (_, y) :: rest =>
      b <- to_bytes2 y ;;
      bs <- join_y_bytes rest ;;
      Ok (b ++ bs)
  end.

(** [share_to_str(share)] *)
Definition share_to_str (sh : share) : result str :=
  match sh with
  | [] => Raise IndexError
  | (x, _) :: _ =>
      y_bytes <- join_y_bytes sh ;;
      let y_b64 := b64encode y_bytes in
      Ok (str_of_int x ++ lit ":" ++ y_b64)
  end.

Section Deserialize.

Variable todecimal : Z -> option Z.

(** The body of the [try] of [str_to_share]. *)
Definition str_to_share_try (s : str) : result share :=
  match split 58 (strip s) with
  | [x_str; y_b64] =>
      x <- int_of_str todecimal x_str ;;
      y_bytes <- b64decode y_b64 ;;
      if negb (Z.of_nat (length y_bytes) mod 2 =? 0)
      then Raise (ValueError "Corrupted share encoding.")
      else
        let y := be16_list y_bytes in
        if (x <=? 0) || existsb (fun v => negb ((0 <=? v) && (v <? PRIME))) y
        then Raise (ValueError "")
        else Ok (map (fun v => (x, v)) y)
  | _ => Raise (ValueError "wrong number of values to unpack (expected 2)")
  end.

(** [str_to_share(s)]: [except Exception] turns every exception of the body
    into [None]. *)
Definition str_to_share (s : str) : option share :=
  match str_to_share_try s with
  | Ok sh => Some sh
  | Raise _ => None
  end.

End Deserialize.

(** The truth value of what [str_to_share] returns, as the caller's
    [if not share] tests it: [None] and the empty list are false. *)
Definition truthy (r : option share) : bool :=
  match r with
  | None => false
  | Some [] => false
  | Some (_ :: _) => true
  end.

(** ** Share validation *)

(** [[s[0][0] for s in shares]] *)
Fixpoint first_indices (shares : list share) : result (list Z) :=
  match shares with
  | [] => Ok []
  | s :: rest =>
      match s with
      | [] => Raise IndexError
      | (x, _) :: _ =>
          xs <- first_indices rest ;;
          Ok (x :: xs)
      end
  end.

(** [validate_shares(shares)] *)
Definition validate_shares (shares : list share) : result (bool * str) :=
  if (length shares <? 2)%nat then Ok (false, lit "At least 2 shares needed.")
  else
    let lengths := map (fun s : share => Z.of_nat (length s)) shares in
    if negb (Nat.eqb (set_len lengths) 1) then Ok (false, lit "Shares length mismatch.")
    else
      indices <- first_indices shares ;;
      if negb (Nat.eqb (set_len indices) (length indices))
      then Ok (false, lit "Duplicate share indices.")
      else Ok (true, lit "").

End Blob.

Import Blob.

(* ================================================================== *)
(** * Part II-b. blob-cli.py *)
(* ================================================================== *)

(** The command line reads lines and prints lines.  The lines still to be
    typed are a list (reading past its end is the end of input), what is
    written is a list of events, and the instance attribute [_last_secret] is
    an [option] ([None] when the instance has no such attribute and the class
    attribute [None] shows through).  Writing to the terminal is taken not to
    fail. *)

Module Cli.

(** What the program writes: [print(s)], the prompt of [input(s)], the
    prompt of [getpass.getpass(s)]. *)
Inductive event : Type :=
| Print (s : str)
| Prompt (s : str)
| PromptHidden (s : str).

(** The state of a run.  [input] and [getpass.getpass] read from the same
    lines, which come without their line ends. *)
Record world : Type := mkWorld {
  stdin : list str;
  stdout : list event;
  last_secret : option str;
  gen : rng
}.

(** What can leave a method besides its result: an exception of blob.py or
    of the runtime, or the [EOFError] of [input]. *)
Inductive raised : Type :=
| PyExn (e : exn)
| EOFError.

(** How a method ends: it returns, [sys.exit] ends the process, or an
    exception leaves it. *)
Inductive outcome (A : Type) : Type :=
| Returned (a : A) (w : world)
| Exited (code : Z) (w : world)
| Uncaught (r : raised) (w : world).
Arguments Returned {A} a w.
Arguments Exited {A} code w.
Arguments Uncaught {A} r w.

Definition LENGTH : Z := 80.

(** ["=" * LENGTH] and ["-" * LENGTH] *)
Definition SEP : str := repeat 61 (Z.to_nat LENGTH).
Definition SEP_MINUS : str := repeat 45 (Z.to_nat LENGTH).

(** The line end inside a literal. *)
Definition nl : str := [10].

Definition print (s : str) (w : world) : world :=
  mkWorld (stdin w) (stdout w ++ [Print s]) (last_secret w) (gen w).

Definition set_last_secret (v : option str) (w : world) : world :=
  mkWorld (stdin w) (stdout w) v (gen w).

(** [_wipe_secret]: a secret that is set and not empty is overwritten with
    as many ["x"], then the attribute is deleted. *)
Definition wipe_secret (w : world) : world :=
  match last_secret w with
  | Some (c :: r) =>
      let w1 := set_last_secret (Some (repeat 120 (length (c :: r)))) w in
      set_last_secret None w1
  | _ => w
  end.

(** [secure_exit] *)
Definition secure_exit {A : Type} (w : world) : outcome A :=
  let w1 := wipe_secret w in
  let w2 := print (nl ++ lit "Exiting...") w1 in
  let w3 := print SEP w2 in
  Exited 0 w3.

Section WithUnicodeDatabase.

(** The decimal value of a character that is not ASCII, and whether such a
    character is a digit for [str.isdigit] (which also takes digits that have
    no decimal value, such as superscripts). *)
Variable todecimal : Z -> option Z.
Variable isdigit_other : Z -> bool.

(** [v.isdigit()] *)
Definition isdigit (v : str) : bool :=
  match v with
  | [] => false
  | _ :: _ => forallb (fun c => if c <? 128 then is_digit c else isdigit_other c) v
  end.

(** The loop of [input_int_in_range] over the lines to come. *)
Fixpoint int_in_range_loop (prompt : str) (min_value max_value : Z)
    (lines : list str) (out : list event) : (raised + Z) * list str * list event :=
  let out1 :=
    out ++ [Prompt (prompt ++ lit " (" ++ str_of_int min_value ++ lit "-"
                    ++ str_of_int max_value ++ lit "): ")] in
  match lines with
  | [] => (inl EOFError, [], out1)
  | l :: rest =>
      let v := strip l in
      if isdigit v then
        match int_of_str todecimal v with
        | Raise e => (inl (PyExn e), rest, out1)
        | Ok n =>
            if (min_value <=? n) && (n <=? max_value) then (inr n, rest, out1)
            else
              int_in_range_loop prompt min_value max_value rest
                (out1 ++ [Print (lit "[!] Value must be between " ++ str_of_int min_value
                                 ++ lit " and " ++ str_of_int max_value ++ lit ".")])
        end
      else
        int_in_range_loop prompt min_value max_value rest
          (out1 ++ [Print (lit "[!] Enter an integer.")])
  end.

(** [input_int_in_range(prompt, min_value, max_value)] *)
Definition input_int_in_range (prompt : str) (min_value max_value : Z) (w : world)
  : outcome Z :=
  match int_in_range_loop prompt min_value max_value (stdin w) (stdout w) with
  | (inl r, rest, out) => Uncaught r (mkWorld rest out (last_secret w) (gen w))
  | (inr n, rest, out) => Returned n (mkWorld rest out (last_secret w) (gen w))
  end.

(** [input_n] and [input_k] *)
Definition input_n (w : world) : outcome Z :=
  input_int_in_range (nl ++ lit "Total shares (n)") 2 (PRIME - 1) w.

Definition input_k (n : Z) (w : world) : outcome Z :=
  input_int_in_range (lit "Threshold (k)") 2 n w.

(** The loop of [input_nonempty]: the line is taken as it is typed. *)
Fixpoint nonempty_loop (prompt : str) (hidden : bool)
    (lines : list str) (out : list event) : (raised + str) * list str * list event :=
  let out1 := out ++ [if hidden then PromptHidden prompt else Prompt prompt] in
  match lines with
  | [] => (inl EOFError, [], out1)
  | v :: rest =>
      match v with
      | _ :: _ => (inr v, rest, out1)
      | [] => nonempty_loop prompt hidden rest (out1 ++ [Print (lit "[!] Input cannot be empty.")])
      end
  end.

(** [input_nonempty(prompt, hidden)] *)
Definition input_nonempty (prompt : str) (hidden : bool) (w : world) : outcome str :=
  match nonempty_loop prompt hidden (stdin w) (stdout w) with
  | (inl r, rest, out) => Uncaught r (mkWorld rest out (last_secret w) (gen w))
  | (inr v, rest, out) => Returned v (mkWorld rest out (last_secret w) (gen w))
  end.

(** [for s in shares: print(share_to_str(s))] *)
Fixpoint print_shares (shares : list share) (w : world) : outcome unit :=
  match shares with
  | [] => Returned tt w
  | s :: rest =>
      match share_to_str s with
      | Raise e => Uncaught (PyExn e) w
      | Ok tok => print_shares rest (print tok w)
      end
  end.

(** [handle_split] *)
Definition handle_split (w : world) : outcome unit :=
  let w0 := print (SEP ++ nl ++ lit "[ Secret Splitting ]" ++ nl ++ SEP) w in
  match input_n w0 with
  | Exited c w' => Exited c w'
  | Uncaught r w' => Uncaught r w'
  | Returned n w1 =>
      match input_k n w1 with
      | Exited c w' => Exited c w'
      | Uncaught r w' => Uncaught r w'
      | Returned k w2 =>
          match input_nonempty (lit "Secret (hidden): ") true w2 with
          | Exited c w' => Exited c w'
          | Uncaught r w' => Uncaught r w'
          | Returned secret w3 =>
              match encode_secret secret n k (gen w3) with
              | Raise _ =>
                  let w4 := print (nl ++ lit "[!] Error: could not encode secret.") w3 in
                  let w5 := print SEP w4 in
                  Returned tt (wipe_secret (set_last_secret (Some secret) w5))
              | Ok (shares, g') =>
                  let w4 := mkWorld (stdin w3) (stdout w3) (last_secret w3) g' in
                  let w5 := print (nl ++ lit "Shares (x:base64):") w4 in
                  let w6 := print SEP_MINUS w5 in
                  match print_shares shares w6 with
                  | Exited c w' => Exited c w'
                  | Uncaught r w' => Uncaught r w'
                  | Returned _ w7 =>
                      let w8 := print SEP_MINUS w7 in
                      let w9 := print SEP w8 in
                      Returned tt (wipe_secret (set_last_secret (Some secret) w9))
                  end
              end
          end
      end
  end.

(** How the reading loop of [handle_recover] ends: an empty line after the
    shares, a line that is no share, or the end of input. *)
Inductive collected : Type :=
| Collected (shares : list share) (rest : list str)
| Invalid (rest : list str)
| EndOfInput.

(** The reading loop of [handle_recover]: [if not share] refuses [None] and
    the empty list alike. *)
Fixpoint read_shares (lines : list str) (shares : list share) : collected :=
  match lines with
  | [] => EndOfInput
  | l :: rest =>
      let line := strip l in
      match line with
      | [] => Collected shares rest
      | _ :: _ =>
          match str_to_share todecimal line with
          | Some (pt :: sh) => read_shares rest (shares ++ [pt :: sh])
          | Some [] => Invalid rest
          | None => Invalid rest
          end
      end
  end.

(** The [except Exception] branch of [handle_recover]; [secret_to_wipe] is
    the local [secret] when it was assigned. *)
Definition recover_failed (secret_to_wipe : option str) (w : world) : outcome unit :=
  let w1 := print (lit "[!] Error: could not recover secret. (Check that you provided at least k valid, matching shares.)") w in
  let w2 := print SEP w1 in
  match secret_to_wipe with
  | Some secret => Returned tt (wipe_secret (set_last_secret (Some secret) w2))
  | None => Returned tt w2
  end.

(** [handle_recover] *)
Definition handle_recover (w : world) : outcome unit :=
  let w0 := print (SEP ++ nl ++ lit "[ Secret Recovery ]" ++ nl ++ SEP) w in
  let w1 := print (nl ++ lit "Enter shares (x:base64), empty line to finish:") w0 in
  match read_shares (stdin w1) [] with
  | EndOfInput =>
      let w2 := mkWorld [] (stdout w1) (last_secret w1) (gen w1) in
      secure_exit (print (nl ++ lit "[!] Input terminated (EOF).") w2)
  | Invalid rest =>
      let w2 := mkWorld rest (stdout w1) (last_secret w1) (gen w1) in
      let w3 := print (lit "[!] Invalid share format.") w2 in
      Returned tt (print SEP w3)
  | Collected shares rest =>
      let w2 := mkWorld rest (stdout w1) (last_secret w1) (gen w1) in
      match validate_shares shares with
      | Raise e => Uncaught (PyExn e) w2
      | Ok (valid, msg) =>
          if negb valid then
            let w3 := print (lit "[!] Share validation error: " ++ msg) w2 in
            Returned tt (print SEP w3)
          else
            match decode_secret shares with
            | Raise _ => recover_failed None w2
            | Ok secret =>
                if negb (isascii secret) then recover_failed (Some secret) w2
                else
                  let w3 := print (lit "Recovered secret:") w2 in
                  let w4 := print SEP_MINUS w3 in
                  let w5 := print secret w4 in
                  let w6 := print SEP_MINUS w5 in
                  let w7 := print SEP w6 in
                  Returned tt (wipe_secret (set_last_secret (Some secret) w7))
            end
      end
  end.

(** [print_usage] *)
Definition print_usage (w : world) : world :=
  let w1 := print SEP w in
  let w2 := print (lit "[ Usage ]") w1 in
  let w3 := print SEP w2 in
  let w4 :=
    print (nl ++ lit "split   : Generate shares from an ASCII secret" ++ nl
           ++ lit "recover : Reconstruct a secret from shares" ++ nl
           ++ lit "help    : Show this usage message" ++ nl
           ++ lit "exit    : Quit the program" ++ nl ++ nl
           ++ lit "(Only ASCII secrets are supported)" ++ nl) w3 in
  print SEP w4.

(** The lower case of a character that is not ASCII, which may be several
    characters.  (The one letter whose lower case depends on its place in
    the word, the capital sigma, has a lower case that is not ASCII at either
    place, so no command is told apart by it.) *)
Variable lower_other : Z -> str.

(** [s.lower()] *)
Definition lower (s : str) : str :=
  flat_map (fun c => if c <? 128
                     then [if (65 <=? c) && (c <=? 90) then c + 32 else c]
                     else lower_other c) s.

Definition str_eqb (a b : str) : bool :=
  if list_eq_dec Z.eq_dec a b then true else false.

(** [actions.get(cmd, ...)()] *)
Definition dispatch (cmd : str) (w : world) : outcome unit :=
  if str_eqb cmd (lit "split") then handle_split w
  else if str_eqb cmd (lit "recover") then handle_recover w
  else if str_eqb cmd (lit "help") then Returned tt (print_usage w)
  else if str_eqb cmd (lit "exit") then secure_exit w
  else Returned tt (print (lit "  [!] Unknown command. Type 'help'." ++ nl ++ SEP) w).

(** One turn of the loop of [main]: [EOFError] is caught and ends the
    process through [secure_exit]; any other exception leaves [main].
    (A [KeyboardInterrupt] is not part of the model.) *)
Definition main_turn (w : world) : outcome unit :=
  let w1 := print [] w in
  let w2 := mkWorld (stdin w1)
                    (stdout w1 ++ [Prompt (lit "Mode (split/recover/help/exit): ")])
                    (last_secret w1) (gen w1) in
  match stdin w2 with
  | [] => secure_exit w2
  | l :: rest =>
      let cmd := lower (strip l) in
      let w3 := print [] (mkWorld rest (stdout w2) (last_secret w2) (gen w2)) in
      match dispatch cmd w3 with
      | Uncaught EOFError w' => secure_exit w'
      | o => o
      end
  end.

(** The loop of [main], for at most [turns] turns; [Returned] means that the
    loop is still running. *)
Fixpoint main_loop (turns : nat) (w : world) : outcome unit :=
  match turns with
  | O => Returned tt w
  | S t =>
      match main_turn w with
      | Returned _ w' => main_loop t w'
      | o => o
      end
  end.

(** [main]: every turn reads a line, so there are no more turns than lines
    to come, and one more for the end of input. *)
Definition main (w : world) : outcome unit :=
  let w1 := print (nl ++ SEP) w in
  let w2 := print (lit "Blob CLI") w1 in
  let w3 := print_usage w2 in
  main_loop (S (length (stdin w3))) w3.

End WithUnicodeDatabase.

End Cli.

Import Cli.

(* ================================================================== *)
(** * Part III. Specification-level definitions *)
(* ================================================================== *)

(** Polynomials over the integers as lists of coefficients, constant term
    first, evaluated by Horner's rule. *)
Fixpoint horner (f : list Z) (x : Z) : Z :=
  match f with
  | [] => 0
  | c :: r => c + x * horner r x
  end.

(** The quotient of [f] by [X - a]. *)
Fixpoint quot (f : list Z) (a : Z) : list Z :=
  match f with
  | [] => []
  | _ :: r =>
      match r with
      | [] => []
      | _ :: _ => horner r a :: quot r a
      end
  end.

Definition add_head (c : Z) (l : list Z) : list Z :=
  match l with
  | [] => [c]
  | d :: l' => (c + d) :: l'
  end.

(** The product of [X - s] and [q]. *)
Fixpoint mul_lin (s : Z) (q : list Z) : list Z :=
  match q with
  | [] => []
  | c :: q' => (- s * c) :: add_head c (mul_lin s q')
  end.

(** The monic polynomial whose roots are the elements of [S]. *)
Fixpoint poly_roots (S : list Z) : list Z :=
  match S with
  | [] => [1]
  | s :: r => mul_lin s (poly_roots r)
  end.

(** The value at 0 of the Lagrange basis polynomial of [xi] against the
    abscissas [others], as a plain product of integers. *)
Fixpoint basis0 (p xi : Z) (others : list Z) : Z :=
  match others with
  | [] => 1
  | xj :: r => (- xj) * Z.invmod (xi - xj) p * basis0 p xi r
  end.

(** The Lagrange sum at 0 over the points [pts], which follow the abscissas
    [pre]. *)
Fixpoint lagrange_sum (p : Z) (pre : list Z) (pts : list (Z * Z)) : Z :=
  match pts with
  | [] => 0
  | (xi, yi) :: post =>
      yi * basis0 p xi (pre ++ map fst post)
      + lagrange_sum p (pre ++ [xi]) post
  end.

(** The Lagrange sum of the values that [h] takes on [S]. *)
Definition lsum (p : Z) (pre S : list Z) (h : Z -> Z) : Z :=
  lagrange_sum p pre (map (fun x => (x, h x)) S).

(** The sum of the basis values of [a :: S]: the Lagrange sum of the
    constant 1. *)
Definition unit_sum (p a : Z) (S : list Z) : Z :=
  basis0 p a S + lsum p [] S (fun x => - a * Z.invmod (x - a) p).

(** Abscissas that are pairwise distinct modulo [p]. *)
Fixpoint distinct_mod (p : Z) (xs : list Z) : Prop :=
  match xs with
  | [] => True
  | a :: r => (forall x, In x r -> (x - a) mod p <> 0) /\ distinct_mod p r
  end.

(** Congruence modulo [p]. *)
Definition cong (p a b : Z) : Prop := a mod p = b mod p.

#[global] Instance cong_equiv (p : Z) : Equivalence (cong p).
Proof. split; unfold cong; congruence. Qed.

#[global] Instance cong_add (p : Z) : Proper (cong p ==> cong p ==> cong p) Z.add.
Proof. exact (Zplus_eqm p). Qed.

#[global] Instance cong_mul (p : Z) : Proper (cong p ==> cong p ==> cong p) Z.mul.
Proof. exact (Zmult_eqm p). Qed.

#[global] Instance cong_sub (p : Z) : Proper (cong p ==> cong p ==> cong p) Z.sub.
Proof. exact (Zminus_eqm p). Qed.

#[global] Typeclasses Opaque cong.

(** Points whose abscissas are field elements other than 0. *)
Definition in_field (pts : list point) : Prop :=
  forall x y, In (x, y) pts -> 1 <= x <= 256 /\ 0 <= y < 257.

(** The point that the polynomial [f] gives to the participant [x]. *)
Definition share_point (x : Z) (f : list Z) : point := (x, horner f x mod 257).

(** The shares of the participants [xs] when the bytes of a secret were split
    with the polynomials [polys], one per byte. *)
Definition shares_of (polys : list (list Z)) (xs : list Z) : list share :=
  map (fun x => map (share_point x) polys) xs.

(** [sh ++ [s]] for each share [sh] and the point [s] that comes with it. *)
Definition snoc_all (shares : list share) (pts : list point) : list share :=
  map (fun '(sh, s) => sh ++ [s]) (combine shares pts).

(** A [str]: code points are not negative. *)
Definition wf_str (s : str) : Prop := Forall (fun c => 0 <= c) s.

(** The participant index that [validate_shares] reads in a share: the
    abscissa of its first point. *)
Definition share_x (s : share) : Z := fst (hd (0, 0) s).

(** Two shares of the list differ in length. *)
Definition length_mismatch (shares : list share) : Prop :=
  exists s1 s2, In s1 shares /\ In s2 shares /\ length s1 <> length s2.

(** Two shares of the list, at different positions, carry the same index. *)
Definition repeated_index (shares : list share) : Prop :=
  exists i j s1 s2,
    i <> j /\ nth_error shares i = Some s1 /\ nth_error shares j = Some s2
    /\ share_x s1 = share_x s2.

(** The values that byte-wise recovery produces for the columns [cols], when
    every recovery succeeds. *)
Fixpoint recover_all (cols : list (list point)) : result (list Z) :=
  match cols with
  | [] => Ok []
  | c :: rest =>
      v <- recover_secret c ;;
      vs <- recover_all rest ;;
      Ok (v :: vs)
  end.

(** The value of a sequence of decimal digits read after [acc]. *)
Definition dval (ds : list Z) (acc : Z) : Z :=
  fold_left (fun a d => a * 10 + (d - 48)) ds acc.

(** The two bytes of each of [ys], big end first. *)
Definition be16_bytes (ys : list Z) : bytes :=
  flat_map (fun y => [y / 256; y mod 256]) ys.

(** The token of the participant [x] with the ordinates [ys]. *)
Definition token (x : Z) (ys : list Z) : str :=
  str_of_int x ++ lit ":" ++ b64encode (be16_bytes ys).

(** What is checked, for each 6-bit value, of its character in the base64
    alphabet: it is not the padding, it decodes to the value, it is ASCII, no
    white space and no colon. *)
Definition b64char_check (k : nat) : bool :=
  let v := Z.of_nat k in
  let c := b64char v in
  negb (c =? 61)
  && match b64val c with Some w => w =? v | None => false end
  && (c <? 128) && negb (isspace c) && negb (c =? 58).

(** A character that may stand in a token: ASCII, no white space. *)
Definition plain_char (c : Z) : Prop := c < 128 /\ isspace c = false.

(** A valid share, as the splitter hands it to one participant: points, at
    least one, that all carry the same index of the field, with ordinates in
    the field. *)
Definition valid_share (sh : share) : Prop :=
  sh <> []
  /\ exists x, 1 <= x <= 256
               /\ Forall (fun pt => fst pt = x /\ 0 <= snd pt < 257) sh.

(** The share that the token of [x] and [ys] stands for. *)
Definition share_of (xys : Z * list Z) : share :=
  map (fun v => (fst xys, v)) (snd xys).

(** The value [sum c_j * x^(i+j)] of the polynomial [coeffs] at [x], written
    with powers ([i] is the exponent of the head). *)
Fixpoint power_sum (coeffs : list Z) (i x : Z) : Z :=
  match coeffs with
  | [] => 0
  | c :: r => c * x ^ i + power_sum r (i + 1) x
  end.

(** The message of [pow(a, -1, p)] for a base that has no inverse. *)
Definition not_invertible : exn :=
  ValueError "base is not invertible for the given modulus".

(** Two abscissas at different positions of [xs] are congruent modulo [p]. *)
Definition congruent_pair (p : Z) (xs : list Z) : Prop :=
  exists i j xi xj,
    i <> j /\ nth_error xs i = Some xi /\ nth_error xs j = Some xj
    /\ (xi - xj) mod p = 0.

(** The sum of two polynomials and the product of a polynomial by a
    constant. *)
Fixpoint padd (f g : list Z) : list Z :=
  match f, g with
  | [], _ => g
  | _, [] => f
  | a :: f', b :: g' => (a + b) :: padd f' g'
  end.

Definition pscale (c : Z) (f : list Z) : list Z := map (Z.mul c) f.

(** The random tape that yields the draws [cs], in this order. *)
Definition tape_of (cs : list Z) : rng := mkRng (fun i => nth i cs 0) 0.

(** The world in which a method ends. *)
Definition world_of {A : Type} (o : outcome A) : world :=
  match o with
  | Returned _ w => w
  | Exited _ w => w
  | Uncaught _ w => w
  end.

(** What [handle_recover] prints before it reads. *)
Definition recover_banner : list event :=
  [Print (SEP ++ nl ++ lit "[ Secret Recovery ]" ++ nl ++ SEP);
   Print (nl ++ lit "Enter shares (x:base64), empty line to finish:")].

(** What [handle_recover] prints for a recovered secret. *)
Definition recover_report (secret : str) : list event :=
  [Print (lit "Recovered secret:"); Print SEP_MINUS; Print secret;
   Print SEP_MINUS; Print SEP].

(** The prompt of [input_int_in_range]. *)
Definition range_prompt (prompt : str) (min_value max_value : Z) : event :=
  Prompt (prompt ++ lit " (" ++ str_of_int min_value ++ lit "-"
          ++ str_of_int max_value ++ lit "): ").

(** What [handle_split] writes up to the shares when [n], [k] and the secret
    are accepted at the first try. *)
Definition split_banner (n : Z) : list event :=
  [Print (SEP ++ nl ++ lit "[ Secret Splitting ]" ++ nl ++ SEP);
   range_prompt (nl ++ lit "Total shares (n)") 2 (PRIME - 1);
   range_prompt (lit "Threshold (k)") 2 n;
   PromptHidden (lit "Secret (hidden): ")].

(** The exception of [int] on a text that is no integer. *)
Definition invalid_literal : exn :=
  ValueError "invalid literal for int() with base 10".

(** A method of the command line ends well within [bound] lines to come: it
    returns with no more than [bound] lines left to read, it ends the process
    with status 0, or it is left by [EOFError] or by the [ValueError] of
    [int]. *)
Definition ends_well {A : Type} (o : outcome A) (bound : nat) : Prop :=
  match o with
  | Returned _ w' => (length (stdin w') <= bound)%nat
  | Exited c _ => c = 0
  | Uncaught r _ => r = EOFError \/ r = PyExn invalid_literal
  end.


(** The prompt of [input_nonempty]. *)
Definition nonempty_prompt (prompt : str) (hidden : bool) : event :=
  if hidden then PromptHidden prompt else Prompt prompt.

(* ================================================================== *)
(** * Part IV. Properties *)
(* ================================================================== *)

(** ** Polynomials *)

Lemma horner_quot (f : list Z) (a x : Z) :
  horner f x = horner f a + (x - a) * horner (quot f a) x.
Proof.
  induction f as [|c r IH]; simpl; [ring|].
  destruct r as [|d r']; [simpl; ring|].
  rewrite IH. change (horner (horner (d :: r') a :: quot (d :: r') a) x)
    with (horner (d :: r') a + x * horner (quot (d :: r') a) x).
  ring.
Qed.

Lemma length_quot (f : list Z) (a : Z) :
  length (quot f a) = pred (length f).
Proof.
  induction f as [|c r IH]; simpl; [reflexivity|].
  destruct r as [|d r']; [reflexivity|].
  simpl length in *. rewrite IH. reflexivity.
Qed.

Lemma horner_add_head (c : Z) (l : list Z) (x : Z) :
  horner (add_head c l) x = c + horner l x.
Proof. destruct l; simpl; ring. Qed.

Lemma horner_mul_lin (s : Z) (q : list Z) (x : Z) :
  horner (mul_lin s q) x = (x - s) * horner q x.
Proof.
  induction q as [|c q' IH]; simpl; [ring|].
  rewrite horner_add_head, IH. ring.
Qed.

Lemma length_mul_lin (s : Z) (q : list Z) :
  q <> [] -> length (mul_lin s q) = S (length q).
Proof.
  induction q as [|c q' IH]; [congruence|]. intros _. simpl.
  destruct q' as [|d q'']; [reflexivity|].
  assert (H : length (mul_lin s (d :: q'')) = S (length (d :: q''))) by (apply IH; congruence).
  destruct (mul_lin s (d :: q'')) as [|e l]; simpl in *; [discriminate|].
  congruence.
Qed.

Lemma poly_roots_nonnil (S : list Z) : poly_roots S <> [].
Proof.
  induction S as [|s r IH]; simpl; [congruence|].
  destruct (poly_roots r); [congruence|]. simpl. congruence.
Qed.

Lemma length_poly_roots (S : list Z) : length (poly_roots S) = Datatypes.S (length S).
Proof.
  induction S as [|s r IH]; simpl; [reflexivity|].
  rewrite length_mul_lin by apply poly_roots_nonnil. congruence.
Qed.

Lemma horner_poly_roots_root (S : list Z) (x : Z) :
  In x S -> horner (poly_roots S) x = 0.
Proof.
  induction S as [|s r IH]; simpl; [tauto|].
  intros [->|H]; rewrite horner_mul_lin; [ring|].
  rewrite IH by assumption. ring.
Qed.

(** ** Lagrange interpolation at 0 modulo a prime *)

Section Lagrange.

Variable p : Z.
Hypothesis p_prime : Z.prime p.

Local Notation "a == b" := (cong p a b) (at level 70).

Lemma cong_eq (a b : Z) : a = b -> a == b.
Proof. intros ->. reflexivity. Qed.

Lemma inv_mul (d : Z) : d mod p <> 0 -> d * Z.invmod d p == 1.
Proof.
  intros H. unfold cong. rewrite Z.mul_comm, Z.invmod_prime by assumption.
  pose proof (Z.prime_ge_2 _ p_prime). symmetry. apply Z.mod_small. lia.
Qed.

Lemma lagrange_sum_ext (pre S : list Z) (h h' : Z -> Z) :
  (forall x, In x S -> h x == h' x) -> lsum p pre S h == lsum p pre S h'.
Proof.
  unfold lsum. revert pre. induction S as [|a r IH]; intros pre H; simpl; [reflexivity|].
  rewrite !map_map; simpl. rewrite (H a) by (left; reflexivity).
  rewrite (IH (pre ++ [a])) by (intros; apply H; right; assumption).
  reflexivity.
Qed.

Lemma lsum_add (pre S : list Z) (h h' : Z -> Z) :
  lsum p pre S (fun x => h x + h' x) = lsum p pre S h + lsum p pre S h'.
Proof.
  unfold lsum. revert pre. induction S as [|a r IH]; intros pre; simpl; [reflexivity|].
  rewrite !map_map; simpl. rewrite IH. ring.
Qed.

Lemma lsum_scale (pre S : list Z) (c : Z) (h : Z -> Z) :
  lsum p pre S (fun x => c * h x) = c * lsum p pre S h.
Proof.
  unfold lsum. revert pre. induction S as [|a r IH]; intros pre; simpl; [ring|].
  rewrite !map_map; simpl. rewrite IH. ring.
Qed.

Lemma lsum_cons_pre (a : Z) (pre S : list Z) (h : Z -> Z) :
  lsum p (a :: pre) S h
  = lsum p pre S (fun x => h x * (- a * Z.invmod (x - a) p)).
Proof.
  unfold lsum. revert pre. induction S as [|b r IH]; intros pre; simpl; [reflexivity|].
  rewrite !map_map; simpl. rewrite (IH (pre ++ [b])). ring.
Qed.

Lemma lsum_cons (a : Z) (S : list Z) (h : Z -> Z) :
  lsum p [] (a :: S) h
  = h a * basis0 p a S + lsum p [] S (fun x => h x * (- a * Z.invmod (x - a) p)).
Proof.
  unfold lsum at 1. simpl. rewrite map_map; simpl. rewrite map_id.
  fold (lsum p [a] S h). rewrite lsum_cons_pre. reflexivity.
Qed.

Lemma lsum_shift (a c : Z) (S : list Z) (h g : Z -> Z) (G : Z) :
  (forall x, In x S -> (x - a) mod p <> 0) ->
  (forall x, h x = c + (x - a) * g x) ->
  lsum p [] S g == G ->
  lsum p [] (a :: S) h == c * unit_sum p a S + (- a) * G.
Proof.
  intros Hd Hh HG. rewrite lsum_cons.
  assert (E : lsum p [] S (fun x => h x * (- a * Z.invmod (x - a) p))
              == lsum p [] S (fun x => c * (- a * Z.invmod (x - a) p) + (- a) * g x)).
  { apply lagrange_sum_ext. intros x Hx. rewrite Hh.
    transitivity (c * (- a * Z.invmod (x - a) p)
                  + (- a) * ((x - a) * Z.invmod (x - a) p) * g x).
    - replace ((c + (x - a) * g x) * (- a * Z.invmod (x - a) p))
        with (c * (- a * Z.invmod (x - a) p)
              + - a * ((x - a) * Z.invmod (x - a) p) * g x) by ring.
      reflexivity.
    - rewrite (inv_mul (x - a)) by (apply Hd; assumption).
      replace (- a * 1 * g x) with (- a * g x) by ring. reflexivity. }
  rewrite E, lsum_add.
  rewrite (lsum_scale [] S c (fun x => - a * Z.invmod (x - a) p)).
  rewrite (lsum_scale [] S (- a) g), HG.
  unfold unit_sum. replace (h a) with c by (rewrite Hh; ring).
  apply cong_eq. ring.
Qed.

Lemma mod_sub_swap (a b : Z) : (a - b) mod p <> 0 -> (b - a) mod p <> 0.
Proof.
  pose proof (Z.prime_ge_2 _ p_prime) as Hp.
  intros H H'. apply H. apply Z.mod_divide in H'; [|lia].
  apply Z.mod_divide; [lia|]. destruct H' as [q Hq]. exists (- q). lia.
Qed.

Lemma lsum_zero (pre S : list Z) (h : Z -> Z) :
  (forall x, In x S -> h x = 0) -> lsum p pre S h == 0.
Proof.
  intros H. transitivity (lsum p pre S (fun x => 0 * h x)).
  - apply lagrange_sum_ext. intros x Hx. rewrite H by assumption. reflexivity.
  - rewrite lsum_scale. reflexivity.
Qed.

Lemma roots_basis0 (a : Z) (S : list Z) :
  (forall x, In x S -> (x - a) mod p <> 0) ->
  horner (poly_roots S) a * basis0 p a S == horner (poly_roots S) 0.
Proof.
  induction S as [|s r IH]; intros Hd; cbn [poly_roots basis0].
  - apply cong_eq. cbn [horner]. ring.
  - rewrite !horner_mul_lin.
    replace ((a - s) * horner (poly_roots r) a
             * (- s * Z.invmod (a - s) p * basis0 p a r))
      with ((a - s) * Z.invmod (a - s) p
            * (- s * (horner (poly_roots r) a * basis0 p a r))) by ring.
    rewrite inv_mul by (apply mod_sub_swap, Hd; left; reflexivity).
    rewrite IH by (intros; apply Hd; right; assumption).
    apply cong_eq. ring.
Qed.

Lemma roots_invertible (a : Z) (S : list Z) :
  (forall x, In x S -> (x - a) mod p <> 0) ->
  exists W, W * horner (poly_roots S) a == 1.
Proof.
  induction S as [|s r IH]; intros Hd; cbn [poly_roots].
  - exists 1. apply cong_eq. cbn [horner]. ring.
  - destruct IH as [W HW]; [intros; apply Hd; right; assumption|].
    exists (Z.invmod (a - s) p * W). rewrite horner_mul_lin.
    replace (Z.invmod (a - s) p * W * ((a - s) * horner (poly_roots r) a))
      with ((a - s) * Z.invmod (a - s) p * (W * horner (poly_roots r) a)) by ring.
    rewrite inv_mul by (apply mod_sub_swap, Hd; left; reflexivity).
    rewrite HW. reflexivity.
Qed.

(** The basis values at 0 add up to 1, as soon as interpolation is exact on
    the points that remain. *)
Lemma unit_sum_one (a : Z) (S : list Z) :
  (forall f, (length f <= length S)%nat -> lsum p [] S (horner f) == horner f 0) ->
  (forall x, In x S -> (x - a) mod p <> 0) ->
  unit_sum p a S == 1.
Proof.
  intros IH Hd.
  set (w := poly_roots S). set (g := quot w a).
  assert (Hg : lsum p [] S (horner g) == horner g 0).
  { apply IH. unfold g, w. rewrite length_quot, length_poly_roots. simpl. lia. }
  pose proof (lsum_shift a (horner w a) S (horner w) (horner g) (horner g 0) Hd
                (fun x => horner_quot w a x) Hg) as Hs.
  rewrite lsum_cons in Hs.
  rewrite (lsum_zero [] S (fun x => horner w x * (- a * Z.invmod (x - a) p))) in Hs.
  2:{ intros x Hx. unfold w. rewrite horner_poly_roots_root by assumption. ring. }
  rewrite Z.add_0_r in Hs. unfold w in Hs at 1 2. rewrite roots_basis0 in Hs by assumption.
  fold w in Hs. rewrite (horner_quot w a 0) in Hs. fold g in Hs.
  destruct (roots_invertible a S Hd) as [W HW]. fold w in HW.
  transitivity (W * (horner w a * unit_sum p a S + - a * horner g 0 - (0 - a) * horner g 0)).
  - transitivity (W * horner w a * unit_sum p a S).
    + rewrite HW. apply cong_eq. ring.
    + apply cong_eq. ring.
  - rewrite <- Hs. rewrite <- HW. apply cong_eq. ring.
Qed.

(** Lagrange interpolation at 0 is exact: on pairwise distinct abscissas, the
    Lagrange sum of the values of a polynomial with no more coefficients than
    there are points is its constant term. *)
Lemma lagrange_exact (S : list Z) :
  distinct_mod p S ->
  forall f, (length f <= length S)%nat -> lsum p [] S (horner f) == horner f 0.
Proof.
  induction S as [|a r IH]; intros Hd f Hf.
  - destruct f; [reflexivity|simpl in Hf; lia].
  - destruct Hd as [Ha Hr]. specialize (IH Hr).
    assert (Hg : lsum p [] r (horner (quot f a)) == horner (quot f a) 0).
    { apply IH. rewrite length_quot. simpl in Hf. lia. }
    rewrite (lsum_shift a (horner f a) r (horner f) (horner (quot f a)) _ Ha
               (fun x => horner_quot f a x) Hg).
    rewrite (unit_sum_one a r IH Ha).
    rewrite (horner_quot f a 0). apply cong_eq. ring.
Qed.

End Lagrange.

(** ** The field of the implementation *)

Lemma cong_mod (p a : Z) : cong p (a mod p) a.
Proof. unfold cong. apply Zmod_mod. Qed.

Lemma prime_257 : Z.prime 257.
Proof.
  split; [lia|]. intros n Hn Hdiv.
  apply Z.mod_divide in Hdiv; [|lia].
  assert (H : forall k, In k (seq 0 255) ->
                        negb (257 mod (Z.of_nat k + 2) =? 0) = true).
  { apply forallb_forall. vm_compute. reflexivity. }
  assert (Hin : In (Z.to_nat (n - 2)) (seq 0 255)) by (apply in_seq; lia).
  apply H in Hin. rewrite Z2Nat.id in Hin by lia.
  replace (n - 2 + 2) with n in Hin by lia.
  rewrite Hdiv in Hin. discriminate Hin.
Qed.

Lemma mod_PRIME (a : Z) : mod_ a PRIME = Ok (a mod 257).
Proof. reflexivity. Qed.

Lemma modinv_PRIME (d : Z) :
  d mod 257 <> 0 -> modinv d PRIME = Ok (Z.invmod d 257).
Proof.
  intros H. unfold modinv, pow_inv, PRIME.
  change (257 =? 0) with false. cbv iota.
  assert (G : Z.gcd d 257 = 1).
  { rewrite Z.gcd_comm. apply Z.coprime_prime_l; [apply prime_257|].
    intros Hd. apply H. apply Z.mod_divide; [lia|assumption]. }
  rewrite G. reflexivity.
Qed.

Lemma modinv_zero (d : Z) :
  d mod 257 = 0 ->
  modinv d PRIME = Raise (ValueError "base is not invertible for the given modulus").
Proof.
  intros H. unfold modinv, pow_inv, PRIME.
  change (257 =? 0) with false. cbv iota.
  assert (G : Z.gcd d 257 = 257).
  { apply Z.mod_divide in H; [|lia]. rewrite Z.gcd_comm.
    apply Z.divide_gcd_iff; [lia|assumption]. }
  rewrite G. reflexivity.
Qed.

Lemma small_diff_nonzero (x y : Z) :
  1 <= x <= 256 -> 1 <= y <= 256 -> x <> y -> (x - y) mod 257 <> 0.
Proof.
  intros Hx Hy Hne H. apply Z.mod_divide in H; [|lia].
  destruct H as [q Hq]. assert (q = 0) by nia. lia.
Qed.

Lemma distinct_mod_small (xs : list Z) :
  NoDup xs -> (forall x, In x xs -> 1 <= x <= 256) -> distinct_mod 257 xs.
Proof.
  induction 1 as [|a r Hnotin Hnd IH]; intros Hr; simpl; [exact I|].
  split.
  - intros x Hx. apply small_diff_nonzero.
    + apply Hr. right. assumption.
    + apply Hr. left. reflexivity.
    + intros ->. contradiction.
  - apply IH. intros x Hx. apply Hr. right. assumption.
Qed.

Lemma distinct_mod_split (p : Z) (pre : list Z) (x : Z) (post : list Z) :
  Z.prime p ->
  distinct_mod p (pre ++ x :: post) ->
  forall y, In y (pre ++ post) -> (x - y) mod p <> 0.
Proof.
  intros Hp. induction pre as [|a pre' IH]; simpl; intros [H1 H2] y Hy.
  - apply (mod_sub_swap p Hp). apply H1. assumption.
  - destruct Hy as [<-|Hy].
    + apply H1. apply in_or_app. right. left. reflexivity.
    + apply IH; assumption.
Qed.

(** ** The loops of [lagrange_interp] *)

(** Past the index [i], the inner loop multiplies by every factor. *)
Lemma li_loop_past (xs : list Z) (j i : nat) (xi li : Z) :
  (i < j)%nat ->
  (forall x, In x xs -> (xi - x) mod 257 <> 0) ->
  exists v, li_loop xs j i xi PRIME li = Ok v
            /\ cong 257 v (li * basis0 257 xi xs)
            /\ (0 <= li < 257 -> 0 <= v < 257).
Proof.
  revert j li. induction xs as [|x r IH]; intros j li Hij Hd; cbn [li_loop basis0].
  - exists li. split; [reflexivity|]. split; [apply cong_eq; ring|tauto].
  - replace (Nat.eqb i j) with false by (symmetry; apply Nat.eqb_neq; lia).
    rewrite modinv_PRIME by (apply Hd; left; reflexivity).
    cbn [bind]. rewrite mod_PRIME. cbn [bind].
    destruct (IH (S j) ((li * - x * Z.invmod (xi - x) 257) mod 257)) as (v & Hv & Hc & Hb);
      [lia|intros; apply Hd; right; assumption|].
    exists v. split; [exact Hv|]. split.
    + rewrite Hc, cong_mod. apply cong_eq. ring.
    + intros _. apply Hb. apply Z.mod_pos_bound. lia.
Qed.

(** Up to the index [i], the inner loop skips exactly the abscissa at [i]. *)
Lemma li_loop_at (pre : list Z) (x' : Z) (post : list Z) (j : nat) (xi li : Z) :
  (forall x, In x (pre ++ post) -> (xi - x) mod 257 <> 0) ->
  exists v, li_loop (pre ++ x' :: post) j (j + length pre) xi PRIME li = Ok v
            /\ cong 257 v (li * basis0 257 xi (pre ++ post))
            /\ (0 <= li < 257 -> 0 <= v < 257).
Proof.
  revert j li. induction pre as [|x r IH]; intros j li Hd.
  - cbn [app length li_loop]. rewrite Nat.add_0_r, Nat.eqb_refl. cbn [bind].
    apply li_loop_past; [lia|exact Hd].
  - cbn [app length li_loop basis0].
    replace (Nat.eqb (j + S (length r)) j) with false by (symmetry; apply Nat.eqb_neq; lia).
    rewrite modinv_PRIME by (apply Hd; left; reflexivity).
    cbn [bind]. rewrite mod_PRIME. cbn [bind].
    replace (j + S (length r))%nat with (S j + length r)%nat by lia.
    destruct (IH (S j) ((li * - x * Z.invmod (xi - x) 257) mod 257)) as (v & Hv & Hc & Hb);
      [intros; apply Hd; right; assumption|].
    exists v. split; [exact Hv|]. split.
    + rewrite Hc, cong_mod. apply cong_eq. ring.
    + intros _. apply Hb. apply Z.mod_pos_bound. lia.
Qed.

(** The outer loop computes the Lagrange sum, reduced modulo 257. *)
Lemma interp_loop_spec (pts : list (Z * Z)) (pre : list Z) (total : Z) :
  distinct_mod 257 (pre ++ map fst pts) ->
  exists v, interp_loop pts (length pre) (pre ++ map fst pts) PRIME total = Ok v
            /\ cong 257 v (total + lagrange_sum 257 pre pts)
            /\ (pts <> [] -> 0 <= v < 257).
Proof.
  revert pre total. induction pts as [|[xi yi] post IH]; intros pre total Hd.
  - exists total. split; [reflexivity|]. split; [apply cong_eq; simpl; ring|congruence].
  - cbn [map fst interp_loop lagrange_sum].
    destruct (li_loop_at pre xi (map fst post) 0 xi 1) as (li & Hli & Hc & _).
    { apply distinct_mod_split; [apply prime_257|exact Hd]. }
    cbn [Nat.add] in Hli. rewrite Hli. cbn [bind]. rewrite mod_PRIME. cbn [bind].
    specialize (IH (pre ++ [xi]) ((total + yi * li) mod 257)).
    rewrite <- app_assoc in IH. cbn [app] in IH.
    rewrite length_app in IH. cbn [length] in IH. rewrite Nat.add_1_r in IH.
    destruct (IH Hd) as (v & Hv & Hcv & Hb).
    exists v. split; [exact Hv|]. split.
    + rewrite Hcv, cong_mod, Hc. apply cong_eq. ring.
    + intros _. destruct post as [|q post'].
      * cbn [interp_loop] in Hv. injection Hv as <-. apply Z.mod_pos_bound. lia.
      * apply Hb. congruence.
Qed.

(** ** [lagrange_interp] and [recover_secret] *)

Lemma length_nodup_le (xs : list Z) : (length (nodup Z.eq_dec xs) <= length xs)%nat.
Proof.
  induction xs as [|a r IH]; simpl; [lia|].
  destruct (in_dec Z.eq_dec a r); simpl; lia.
Qed.

Lemma set_len_NoDup (xs : list Z) : NoDup xs -> set_len xs = length xs.
Proof. intros H. unfold set_len. rewrite nodup_fixed_point by assumption. reflexivity. Qed.

Lemma set_len_eq_NoDup (xs : list Z) : set_len xs = length xs -> NoDup xs.
Proof.
  unfold set_len. induction xs as [|a r IH]; simpl; [constructor|].
  destruct (in_dec Z.eq_dec a r) as [Hin|Hnot]; simpl; intros H.
  - pose proof (length_nodup_le r). lia.
  - constructor; [assumption|]. apply IH. lia.
Qed.

Lemma combine_fst_snd {A B : Type} (l : list (A * B)) :
  combine (map fst l) (map snd l) = l.
Proof. induction l as [|[a b] r IH]; simpl; [reflexivity|]. rewrite IH. reflexivity. Qed.

Lemma lagrange_interp_dup (xs ys : list Z) (p : Z) :
  ~ NoDup xs ->
  lagrange_interp xs ys p = Raise (ValueError "Duplicate x values in shares.").
Proof.
  intros H. unfold lagrange_interp.
  destruct (Nat.eqb (set_len xs) (length xs)) eqn:E; [|reflexivity].
  apply Nat.eqb_eq in E. apply set_len_eq_NoDup in E. contradiction.
Qed.

Lemma recover_secret_spec (pts : list point) :
  pts <> [] ->
  NoDup (map fst pts) ->
  distinct_mod 257 (map fst pts) ->
  exists v, recover_secret pts = Ok v
            /\ cong 257 v (lagrange_sum 257 [] pts)
            /\ 0 <= v < 257.
Proof.
  intros Hne Hnd Hd. destruct pts as [|q pts']; [congruence|].
  unfold recover_secret, lagrange_interp.
  rewrite set_len_NoDup, Nat.eqb_refl by assumption. cbn [negb].
  rewrite combine_fst_snd.
  destruct (interp_loop_spec (q :: pts') [] 0 Hd) as (v & Hv & Hc & Hb).
  exists v. split; [exact Hv|]. split; [|apply Hb; congruence].
  rewrite Hc. apply cong_eq. ring.
Qed.

(** C4. [recover_secret] never checks a threshold: on every non-empty list of
    points with pairwise distinct abscissas in [[1, 256]] and ordinates in
    [[0, 257)] it returns, without raising, a value of [[0, 257)].  The
    statement knows no [k]: the number of points plays no part.  (That the
    value is then not always the byte that was split is
    [recover_below_threshold] below.) *)
Theorem recover_secret_no_threshold (pts : list point) :
  pts <> [] ->
  NoDup (map fst pts) ->
  in_field pts ->
  exists v, recover_secret pts = Ok v /\ 0 <= v < 257.
Proof.
  intros Hne Hnd Hf.
  destruct (recover_secret_spec pts Hne Hnd) as (v & Hv & _ & Hb).
  - apply distinct_mod_small; [assumption|].
    intros x Hx. apply in_map_iff in Hx. destruct Hx as ([x' y] & <- & Hin).
    apply (Hf x' y Hin).
  - exists v. split; assumption.
Qed.

Lemma recover_secret_no_threshold_witness :
  exists v, recover_secret [(1, 200); (2, 74)] = Ok v /\ 0 <= v < 257.
Proof.
  apply (recover_secret_no_threshold [(1, 200); (2, 74)]).
  - discriminate.
  - repeat constructor; simpl; intuition discriminate.
  - intros x y [H|[H|[]]]; injection H as <- <-; lia.
Defined.

(** With fewer points than the threshold the value returned need not be the
    byte that was split: the polynomial [72 + 5 X + 9 X^2] (threshold 3) has
    the points [(1, 86)] and [(2, 118)], from which 54 is recovered. *)
Example recover_below_threshold :
  eval_points [72; 5; 9] [1; 2; 3] = Ok [(1, 86); (2, 118); (3, 168)]
  /\ recover_secret [(1, 86); (2, 118); (3, 168)] = Ok 72
  /\ recover_secret [(1, 86); (2, 118)] = Ok 54.
Proof. vm_compute. repeat split. Qed.

(** C5, as the code has it.  A repeated abscissa makes [recover_secret] raise
    [ValueError] from the explicit test at the head of [lagrange_interp], and
    no [ArithmeticError]. *)
Theorem recover_secret_duplicate_x (pts : list point) :
  ~ NoDup (map fst pts) ->
  recover_secret pts = Raise (ValueError "Duplicate x values in shares.").
Proof.
  intros H. destruct pts as [|q pts'].
  - exfalso. apply H. constructor.
  - unfold recover_secret. apply lagrange_interp_dup. assumption.
Qed.

Lemma recover_secret_duplicate_x_witness :
  recover_secret [(1, 5); (1, 9)] = Raise (ValueError "Duplicate x values in shares.").
Proof.
  apply (recover_secret_duplicate_x [(1, 5); (1, 9)]).
  intros H. inversion H as [|a l Hn _]. apply Hn. left. reflexivity.
Defined.

(** C5, as stated, fails: two points with the same abscissa raise an
    exception that is not an [ArithmeticError]. *)
Lemma recover_secret_duplicate_not_arithmetic :
  exists e, recover_secret [(1, 5); (1, 9)] = Raise e
            /\ is_ArithmeticError e = false /\ is_ValueError e = true.
Proof. eexists. repeat split; reflexivity. Qed.

(** ** Splitting *)

Lemma eval_poly_sum_spec (coeffs : list Z) (i x acc : Z) :
  0 <= i ->
  exists s, eval_poly_sum coeffs i x PRIME acc = Ok s
            /\ cong 257 s (acc + x ^ i * horner coeffs x).
Proof.
  revert i acc. induction coeffs as [|c r IH]; intros i acc Hi; cbn [eval_poly_sum horner].
  - exists acc. split; [reflexivity|]. apply cong_eq. ring.
  - unfold pow3, PRIME. change (257 =? 0) with false. cbv iota. cbn [bind].
    destruct (IH (i + 1) (acc + c * (x ^ i mod 257))) as (s & Hs & Hc); [lia|].
    exists s. split; [exact Hs|].
    rewrite Hc, cong_mod. rewrite Z.pow_add_r by lia. apply cong_eq. ring.
Qed.

Lemma eval_poly_spec (coeffs : list Z) (x : Z) :
  eval_poly coeffs x PRIME = Ok (horner coeffs x mod 257).
Proof.
  unfold eval_poly.
  destruct (eval_poly_sum_spec coeffs 0 x 0) as (s & Hs & Hc); [lia|].
  rewrite Hs. cbn [bind]. rewrite mod_PRIME. f_equal.
  unfold cong in Hc. rewrite Hc. f_equal. ring.
Qed.

Lemma eval_points_spec (coeffs xs : list Z) :
  eval_points coeffs xs = Ok (map (fun x => share_point x coeffs) xs).
Proof.
  induction xs as [|x r IH]; cbn [eval_points map]; [reflexivity|].
  rewrite eval_poly_spec. cbn [bind]. rewrite IH. reflexivity.
Qed.

Lemma rand_coeffs_spec (m : nat) (g : rng) :
  exists cs g', rand_coeffs m g = Ok (cs, g') /\ length cs = m.
Proof.
  revert g. induction m as [|m IH]; intros g; cbn [rand_coeffs].
  - exists [], g. split; reflexivity.
  - unfold randbelow, PRIME. change (257 <=? 0) with false. cbv iota. cbn [bind].
    destruct (IH (mkRng (tape g) (S (pos g)))) as (cs & g' & H & L).
    rewrite H. cbn [bind]. eexists _, g'. split; [reflexivity|]. simpl. lia.
Qed.

Lemma split_secret_spec (byte n k : Z) (g : rng) :
  exists f g', split_secret byte n k g
               = Ok (map (fun x => share_point x f) (range1 n), g')
               /\ hd 0 f = byte /\ length f = S (Z.to_nat (k - 1)).
Proof.
  unfold split_secret.
  destruct (rand_coeffs_spec (Z.to_nat (k - 1)) g) as (cs & g' & H & L).
  rewrite H. cbn [bind]. rewrite eval_points_spec. cbn [bind].
  exists ([byte] ++ cs), g'. split; [reflexivity|]. split; [reflexivity|].
  simpl. lia.
Qed.

(** ** Assembling the shares *)

Lemma append_points_spec (pts : list point) (done todo : list share) :
  length todo = length pts ->
  append_points pts (length done) (done ++ todo) = Ok (done ++ snoc_all todo pts).
Proof.
  revert done todo. induction pts as [|s r IH]; intros done todo L.
  - destruct todo; [|discriminate]. reflexivity.
  - destruct todo as [|sh todo']; [discriminate|].
    cbn [append_points].
    rewrite nth_error_app2, Nat.sub_diag by lia. cbn [nth_error].
    rewrite firstn_app, firstn_all, Nat.sub_diag. cbn [firstn]. rewrite app_nil_r.
    replace (skipn (S (length done)) (done ++ sh :: todo')) with todo'.
    2:{ rewrite skipn_app, skipn_all2 by lia.
        replace (S (length done) - length done)%nat with 1%nat by lia. reflexivity. }
    specialize (IH (done ++ [sh ++ [s]]) todo').
    rewrite length_app, Nat.add_1_r, <- app_assoc in IH. cbn [app] in IH.
    etransitivity; [apply IH; simpl in L; lia|].
    rewrite <- app_assoc. reflexivity.
Qed.

Lemma snoc_all_shares_of (polys : list (list Z)) (f : list Z) (xs : list Z) :
  snoc_all (shares_of polys xs) (map (fun x => share_point x f) xs)
  = shares_of (polys ++ [f]) xs.
Proof.
  unfold snoc_all, shares_of. induction xs as [|x r IH]; cbn [map combine]; [reflexivity|].
  rewrite IH, map_app. reflexivity.
Qed.

Lemma encode_loop_spec (bs : bytes) (n k : Z) (polys0 : list (list Z)) (g : rng) :
  exists polys g',
    encode_loop bs n k (shares_of polys0 (range1 n)) g
    = Ok (shares_of (polys0 ++ polys) (range1 n), g')
    /\ Forall2 (fun b f => hd 0 f = b /\ length f = S (Z.to_nat (k - 1))) bs polys.
Proof.
  revert polys0 g. induction bs as [|b r IH]; intros polys0 g; cbn [encode_loop].
  - exists [], g. rewrite app_nil_r. split; [reflexivity|constructor].
  - destruct (split_secret_spec b n k g) as (f & g1 & H & Hhd & Hlen).
    rewrite H. cbn [bind].
    rewrite (append_points_spec _ [] (shares_of polys0 (range1 n))).
    2:{ unfold shares_of. rewrite !length_map. reflexivity. }
    cbn [app bind]. rewrite snoc_all_shares_of.
    destruct (IH (polys0 ++ [f]) g1) as (polys & g' & H' & HF).
    exists (f :: polys), g'. rewrite <- app_assoc in H'. split; [exact H'|].
    constructor; [split; assumption|assumption].
Qed.

Lemma utf8_encode_ascii (s : str) :
  isascii s = true -> utf8_encode s = Ok s.
Proof.
  induction s as [|c r IH]; cbn [isascii forallb utf8_encode]; [reflexivity|].
  intros H. apply andb_prop in H. destruct H as [Hc Hr].
  unfold utf8_encode_char. apply Z.ltb_lt in Hc.
  replace (c <? 0x80) with true by (symmetry; apply Z.ltb_lt; lia).
  cbn [bind]. fold (isascii r) in Hr. rewrite (IH Hr). reflexivity.
Qed.

Lemma utf8_decode_ascii (s : bytes) :
  isascii s = true -> utf8_decode s = Ok s.
Proof.
  induction s as [|c r IH]; cbn [isascii forallb utf8_decode]; [reflexivity|].
  intros H. apply andb_prop in H. destruct H as [Hc Hr].
  apply Z.ltb_lt in Hc.
  replace (c <? 0x80) with true by (symmetry; apply Z.ltb_lt; lia).
  fold (isascii r) in Hr. rewrite (IH Hr). reflexivity.
Qed.

Lemma encode_secret_spec (s : str) (n k : Z) (g : rng) :
  isascii s = true ->
  exists polys g',
    encode_secret s n k g = Ok (shares_of polys (range1 n), g')
    /\ Forall2 (fun b f => hd 0 f = b /\ length f = S (Z.to_nat (k - 1))) s polys.
Proof.
  intros Ha. unfold encode_secret. rewrite Ha. cbn [negb].
  rewrite utf8_encode_ascii by assumption. cbn [bind].
  replace (repeat ([] : share) (Z.to_nat n)) with (shares_of [] (range1 n)).
  - destruct (encode_loop_spec s n k [] g) as (polys & g' & H & HF).
    exists polys, g'. split; assumption.
  - unfold shares_of, range1. rewrite map_map. cbn [map].
    generalize (Z.to_nat n) as m. intros m. generalize 0%nat as st.
    induction m as [|m IH]; intros st; simpl; [reflexivity|]. rewrite IH. reflexivity.
Qed.

(** ** Recovering *)

Lemma zip_cons_map {A B : Type} (g : B -> A) (h : B -> list A) (cols : list B) :
  zip_cons (map g cols) (map h cols) = map (fun c => g c :: h c) cols.
Proof. induction cols as [|c r IH]; simpl; [reflexivity|]. rewrite IH. reflexivity. Qed.

(** The columns of the shares of the participants [xs] are, byte by byte,
    the points of that byte's polynomial at [xs]. *)
Lemma zip_star_shares_of (polys : list (list Z)) (xs : list Z) :
  xs <> [] ->
  zip_star (shares_of polys xs)
  = map (fun f => map (fun x => share_point x f) xs) polys.
Proof.
  unfold shares_of. induction xs as [|x r IH]; [congruence|]. intros _.
  destruct r as [|x' r'].
  - cbn [map zip_star]. rewrite map_map. reflexivity.
  - change (zip_star (map (fun x0 => map (share_point x0) polys) (x :: x' :: r')))
      with (zip_cons (map (share_point x) polys)
              (zip_star (map (fun x0 => map (share_point x0) polys) (x' :: r')))).
    rewrite IH by congruence.
    rewrite (zip_cons_map (share_point x)). reflexivity.
Qed.

Lemma nth_map_lt {A B : Type} (f : A -> B) (l : list A) (i : nat) (d : A) (d' : B) :
  (i < length l)%nat -> nth i (map f l) d' = f (nth i l d).
Proof.
  revert i. induction l as [|a r IH]; intros i H; simpl in *; [lia|].
  destruct i; [reflexivity|]. apply IH. lia.
Qed.

Lemma select_shares_of (polys : list (list Z)) (n : Z) (sel : list nat) :
  (forall i, In i sel -> (i < Z.to_nat n)%nat) ->
  map (fun i => nth i (shares_of polys (range1 n)) []) sel
  = shares_of polys (map (fun i => Z.of_nat i + 1) sel).
Proof.
  intros H. unfold shares_of. rewrite map_map. apply map_ext_in. intros i Hi.
  specialize (H i Hi).
  rewrite (nth_map_lt _ _ i 0).
  2:{ unfold range1. rewrite length_map, length_seq. assumption. }
  f_equal. unfold range1.
  rewrite (nth_map_lt _ _ i 0%nat) by (rewrite length_seq; assumption).
  rewrite seq_nth by assumption. reflexivity.
Qed.

Lemma horner_0 (f : list Z) : horner f 0 = hd 0 f.
Proof. destruct f; simpl; [reflexivity|ring]. Qed.

(** As many points as the polynomial has coefficients give back its constant
    term. *)
Lemma recover_secret_exact (f xs : list Z) :
  xs <> [] ->
  NoDup xs ->
  (forall x, In x xs -> 1 <= x <= 256) ->
  (length f <= length xs)%nat ->
  0 <= hd 0 f < 257 ->
  recover_secret (map (fun x => share_point x f) xs) = Ok (hd 0 f).
Proof.
  intros Hne Hnd Hr Hlen Hb.
  assert (Hfst : map fst (map (fun x => share_point x f) xs) = xs).
  { rewrite map_map. cbn [share_point fst]. apply map_id. }
  destruct (recover_secret_spec (map (fun x => share_point x f) xs)) as (v & Hv & Hc & Hvb).
  - destruct xs; [congruence|discriminate].
  - rewrite Hfst. assumption.
  - rewrite Hfst. apply distinct_mod_small; assumption.
  - rewrite Hv. f_equal.
    assert (E : cong 257 v (hd 0 f)).
    { change (lagrange_sum 257 [] (map (fun x => share_point x f) xs))
        with (lsum 257 [] xs (fun x => horner f x mod 257)) in Hc.
      rewrite Hc.
      transitivity (lsum 257 [] xs (horner f)).
      - apply lagrange_sum_ext. intros. apply cong_mod.
      - rewrite <- horner_0. apply lagrange_exact; try assumption.
        + apply prime_257.
        + apply distinct_mod_small; assumption. }
    unfold cong in E. rewrite !Z.mod_small in E by lia. exact E.
Qed.

Lemma recover_bytes_exact (polys : list (list Z)) (xs : list Z) (bs : bytes) :
  xs <> [] ->
  NoDup xs ->
  (forall x, In x xs -> 1 <= x <= 256) ->
  Forall2 (fun b f => hd 0 f = b /\ length f = length xs) bs polys ->
  Forall (fun b => 0 <= b < 256) bs ->
  recover_bytes (map (fun f => map (fun x => share_point x f) xs) polys) = Ok bs.
Proof.
  intros Hne Hnd Hr HF. induction HF as [|b f bs' polys' [Hhd Hlen] HF IH]; intros Hb.
  - reflexivity.
  - inversion Hb as [|? ? Hb0 Hbs]; subst.
    cbn [map recover_bytes].
    rewrite recover_secret_exact by (try assumption; lia). cbn [bind].
    replace ((0 <=? hd 0 f) && (hd 0 f <? 256)) with true
      by (symmetry; apply andb_true_intro; split; [apply Z.leb_le|apply Z.ltb_lt]; lia).
    rewrite IH by assumption. reflexivity.
Qed.

Lemma isascii_range (s : str) :
  wf_str s -> isascii s = true -> Forall (fun c => 0 <= c < 256) s.
Proof.
  induction 1 as [|c r Hc Hr IH]; cbn [isascii forallb]; [constructor|].
  intros H. apply andb_prop in H. destruct H as [H1 H2]. apply Z.ltb_lt in H1.
  constructor; [lia|]. apply IH. exact H2.
Qed.

(** C1. Split/recover round trip: for an ASCII secret [s], a threshold and a
    number of shares with [2 <= k <= n <= 255], whatever the random tape [g]
    that chose the coefficients, [encode_secret] returns shares, and
    [decode_secret] applied to any [k] of them (the shares at [k] distinct
    positions [sel], in any order) returns [s]. *)
Theorem split_recover_roundtrip (s : str) (n k : Z) (g : rng) (sel : list nat) :
  wf_str s ->
  isascii s = true ->
  2 <= k <= n ->
  n <= 255 ->
  NoDup sel ->
  length sel = Z.to_nat k ->
  (forall i, In i sel -> (i < Z.to_nat n)%nat) ->
  exists shares g',
    encode_secret s n k g = Ok (shares, g')
    /\ length shares = Z.to_nat n
    /\ decode_secret (map (fun i => nth i shares []) sel) = Ok s.
Proof.
  intros Hwf Ha Hk Hn Hnd Hlen Hsel.
  destruct (encode_secret_spec s n k g Ha) as (polys & g' & He & HF).
  exists (shares_of polys (range1 n)), g'. split; [exact He|]. split.
  { unfold shares_of, range1. rewrite !length_map, length_seq. reflexivity. }
  rewrite select_shares_of by assumption.
  set (xs := map (fun i => Z.of_nat i + 1) sel).
  assert (Hxs : xs <> []).
  { unfold xs. destruct sel; [simpl in Hlen; lia|discriminate]. }
  unfold decode_secret. rewrite zip_star_shares_of by assumption.
  rewrite (recover_bytes_exact polys xs s).
  - cbn [bind]. apply utf8_decode_ascii. assumption.
  - assumption.
  - unfold xs. apply Injective_map_NoDup; [|assumption].
    intros i j Hij. lia.
  - unfold xs. intros x Hx. apply in_map_iff in Hx. destruct Hx as (i & <- & Hi).
    specialize (Hsel i Hi). lia.
  - eapply Forall2_impl; [|exact HF]. cbn beta. intros b f [H1 H2].
    split; [assumption|]. unfold xs. rewrite length_map, Hlen, H2. lia.
  - apply isascii_range; assumption.
Qed.

Lemma split_recover_roundtrip_witness :
  exists shares g',
    encode_secret (lit "Hi") 5 3 (mkRng (fun i => Z.of_nat i * 7919 + 13) 0)
    = Ok (shares, g')
    /\ length shares = Z.to_nat 5
    /\ decode_secret (map (fun i => nth i shares []) [4; 0; 2]%nat) = Ok (lit "Hi").
Proof.
  apply (split_recover_roundtrip (lit "Hi") 5 3
           (mkRng (fun i => Z.of_nat i * 7919 + 13) 0) [4; 0; 2]%nat).
  - repeat constructor; vm_compute; discriminate.
  - reflexivity.
  - lia.
  - lia.
  - repeat constructor; simpl; intuition discriminate.
  - reflexivity.
  - simpl. intros i [<-|[<-|[<-|[]]]]; lia.
Defined.

(** ** Share validation *)

Lemma set_len_one (l : list Z) :
  set_len l = 1%nat <-> l <> [] /\ forall x y, In x l -> In y l -> x = y.
Proof.
  unfold set_len. split.
  - intros H. destruct (nodup Z.eq_dec l) as [|a [|b r]] eqn:E; try discriminate.
    assert (Hin : forall x, In x l -> x = a).
    { intros x Hx. apply (nodup_In Z.eq_dec) in Hx. rewrite E in Hx.
      destruct Hx as [->|[]]. reflexivity. }
    split.
    + intros ->. discriminate.
    + intros x y Hx Hy. rewrite (Hin x Hx), (Hin y Hy). reflexivity.
  - intros [Hne Heq].
    pose proof (NoDup_nodup Z.eq_dec l) as Hnd.
    destruct (nodup Z.eq_dec l) as [|a [|b r]] eqn:E.
    + destruct l as [|c l']; [congruence|].
      assert (Hc : In c (nodup Z.eq_dec (c :: l'))) by (apply nodup_In; left; reflexivity).
      rewrite E in Hc. destruct Hc.
    + reflexivity.
    + exfalso.
      assert (Ha : In a l) by (apply (nodup_In Z.eq_dec); rewrite E; left; reflexivity).
      assert (Hb : In b l) by (apply (nodup_In Z.eq_dec); rewrite E; right; left; reflexivity).
      inversion Hnd as [|? ? Hnot _]; subst. apply Hnot. left. apply Heq; assumption.
Qed.

Lemma lengths_agree_iff (shares : list share) :
  shares <> [] ->
  set_len (map (fun s : share => Z.of_nat (length s)) shares) = 1%nat
  <-> ~ length_mismatch shares.
Proof.
  intros Hne. rewrite set_len_one. split.
  - intros [_ H] (s1 & s2 & H1 & H2 & Hd). apply Hd.
    apply Nat2Z.inj. apply H; apply in_map_iff; eauto.
  - intros H. split.
    + destruct shares; [congruence|discriminate].
    + intros x y Hx Hy. apply in_map_iff in Hx, Hy.
      destruct Hx as (s1 & <- & H1), Hy as (s2 & <- & H2).
      destruct (Nat.eq_dec (length s1) (length s2)) as [->|Hd]; [reflexivity|].
      exfalso. apply H. exists s1, s2. auto.
Qed.

Lemma first_indices_nonempty (shares : list share) :
  Forall (fun s => s <> []) shares ->
  first_indices shares = Ok (map share_x shares).
Proof.
  induction 1 as [|s r Hs Hr IH]; cbn [first_indices map]; [reflexivity|].
  destruct s as [|[x y] s']; [congruence|]. rewrite IH. reflexivity.
Qed.

Lemma repeated_index_iff (shares : list share) :
  repeated_index shares <-> ~ NoDup (map share_x shares).
Proof.
  split.
  - intros (i & j & s1 & s2 & Hij & H1 & H2 & Hx) Hnd.
    rewrite NoDup_nth_error in Hnd. apply Hij. apply Hnd.
    + rewrite length_map. apply nth_error_Some. congruence.
    + rewrite !nth_error_map, H1, H2. simpl. congruence.
  - intros Hnd.
    destruct (ListDec.NoDup_dec Z.eq_dec (map share_x shares)) as [H|H]; [contradiction|].
    clear Hnd. induction shares as [|s r IH].
    + exfalso. apply H. constructor.
    + cbn [map] in H.
      destruct (in_dec Z.eq_dec (share_x s) (map share_x r)) as [Hin|Hnotin].
      * apply in_map_iff in Hin. destruct Hin as (s2 & Hx & Hin).
        apply In_nth_error in Hin. destruct Hin as (j & Hj).
        exists 0%nat, (S j), s, s2. repeat split; auto.
      * destruct IH as (i & j & s1 & s2 & Hij & H1 & H2 & Hx).
        { intros Hr. apply H. constructor; assumption. }
        exists (S i), (S j), s1, s2. repeat split; auto.
Qed.

(** C7. Validator correctness, on lists of non-empty shares.  The tests are
    made in this order: fewer than two shares; then two shares of different
    lengths; then two shares with the same index; each failure is reported
    with its own message, and everything else is accepted. *)
Theorem validate_shares_correct (shares : list share) :
  Forall (fun s => s <> []) shares ->
  ((length shares < 2)%nat ->
   validate_shares shares = Ok (false, lit "At least 2 shares needed."))
  /\ ((2 <= length shares)%nat -> length_mismatch shares ->
      validate_shares shares = Ok (false, lit "Shares length mismatch."))
  /\ ((2 <= length shares)%nat -> ~ length_mismatch shares -> repeated_index shares ->
      validate_shares shares = Ok (false, lit "Duplicate share indices."))
  /\ ((2 <= length shares)%nat -> ~ length_mismatch shares -> ~ repeated_index shares ->
      validate_shares shares = Ok (true, lit "")).
Proof.
  intros Hne. unfold validate_shares.
  destruct (length shares <? 2)%nat eqn:Elen.
  - apply Nat.ltb_lt in Elen.
    split; [reflexivity|]. repeat split; intros; lia.
  - apply Nat.ltb_ge in Elen.
    assert (Hnn : shares <> []) by (intros ->; simpl in Elen; lia).
    pose proof (lengths_agree_iff shares Hnn) as Hl.
    pose proof (repeated_index_iff shares) as Hr.
    split; [intros; lia|].
    destruct (Nat.eqb (set_len (map (fun s : share => Z.of_nat (length s)) shares)) 1) eqn:E1;
      cbn [negb].
    + apply Nat.eqb_eq in E1. apply Hl in E1.
      split; [intros; contradiction|].
      rewrite first_indices_nonempty by assumption. cbn [bind].
      destruct (Nat.eqb (set_len (map share_x shares)) (length (map share_x shares))) eqn:E2;
        cbn [negb].
      * apply Nat.eqb_eq, set_len_eq_NoDup in E2.
        split; [|reflexivity].
        intros _ _ Hrep. exfalso. apply Hr in Hrep. contradiction.
      * apply Nat.eqb_neq in E2. split; [reflexivity|].
        intros _ _ Hrep. exfalso. apply E2. apply set_len_NoDup.
        destruct (ListDec.NoDup_dec Z.eq_dec (map share_x shares)) as [Hd|Hd]; [assumption|].
        exfalso. apply Hr in Hd. contradiction.
    + apply Nat.eqb_neq in E1.
      split; [reflexivity|].
      split; intros _ Hm; exfalso; apply E1, Hl; assumption.
Qed.

Lemma validate_shares_correct_witness :
  validate_shares [[(1, 7)]; [(1, 9)]] = Ok (false, lit "Duplicate share indices.").
Proof.
  apply (validate_shares_correct [[(1, 7)]; [(1, 9)]]).
  - repeat constructor; discriminate.
  - simpl. lia.
  - intros (s1 & s2 & H1 & H2 & Hd). apply Hd.
    destruct H1 as [<-|[<-|[]]]; destruct H2 as [<-|[<-|[]]]; reflexivity.
  - exists 0%nat, 1%nat, [(1, 7)], [(1, 9)]. repeat split. discriminate.
Defined.

(** C8. [validate_shares] is not total: when there are two shares or more and
    every share is the empty list, the lengths agree, the first point of the
    first share is then indexed, and [IndexError] is raised.  The empty
    share is what [str_to_share] returns for a token with an empty payload. *)
Theorem validate_shares_empty_shares (shares : list share) :
  (2 <= length shares)%nat ->
  Forall (fun s => s = []) shares ->
  validate_shares shares = Raise IndexError
  /\ forall todecimal, str_to_share todecimal (lit "1:") = Some [].
Proof.
  intros Hlen Hall. split; [|intros; reflexivity].
  unfold validate_shares.
  replace (length shares <? 2)%nat with false by (symmetry; apply Nat.ltb_ge; assumption).
  assert (E : set_len (map (fun s : share => Z.of_nat (length s)) shares) = 1%nat).
  { apply set_len_one. split.
    - destruct shares; [simpl in Hlen; lia|discriminate].
    - rewrite Forall_forall in Hall. intros x y Hx Hy.
      apply in_map_iff in Hx, Hy. destruct Hx as (s1 & <- & H1), Hy as (s2 & <- & H2).
      rewrite (Hall s1 H1), (Hall s2 H2). reflexivity. }
  rewrite E. cbn [Nat.eqb negb].
  destruct shares as [|s r]; [simpl in Hlen; lia|].
  inversion Hall; subst. reflexivity.
Qed.

Lemma validate_shares_empty_shares_witness :
  validate_shares [[]; []] = Raise IndexError
  /\ forall todecimal, str_to_share todecimal (lit "1:") = Some [].
Proof.
  apply (validate_shares_empty_shares [[]; []]).
  - simpl. lia.
  - repeat constructor.
Defined.

(** ** Decoding the recovered bytes *)

Lemma recover_bytes_of_all (cols : list (list point)) (vs : list Z) :
  recover_all cols = Ok vs ->
  recover_bytes cols
  = if forallb (fun v => (0 <=? v) && (v <? 256)) vs then Ok vs
    else Raise (ValueError "bytes must be in range(0, 256)").
Proof.
  revert vs. induction cols as [|c r IH]; intros vs; cbn [recover_all recover_bytes].
  - intros H. injection H as <-. reflexivity.
  - destruct (recover_secret c) as [v|e]; cbn [bind]; [|discriminate].
    destruct (recover_all r) as [vs'|e]; cbn [bind]; [|discriminate].
    intros H. injection H as <-. cbn [forallb].
    destruct ((0 <=? v) && (v <? 256)); cbn [andb]; [|reflexivity].
    rewrite (IH vs' eq_refl).
    destruct (forallb _ vs'); reflexivity.
Qed.


Lemma utf8_decode_raises (bs : bytes) (e : exn) :
  utf8_decode bs = Raise e -> e = UnicodeDecodeError.
Proof.
  remember (length bs) as n eqn:Hn.
  assert (Hlen : (length bs <= n)%nat) by lia. clear Hn.
  revert bs Hlen. induction n as [|n IH]; intros bs Hlen Hdec.
  - destruct bs; [discriminate|simpl in Hlen; lia].
  - destruct bs as [|b0 r0]; [discriminate|].
    cbn [utf8_decode] in Hdec. simpl in Hlen.
    destruct (b0 <? 0x80).
    { destruct (utf8_decode r0) eqn:E; cbn [bind] in Hdec; [discriminate|].
      injection Hdec as <-. apply (IH r0); [lia|assumption]. }
    destruct ((0xC2 <=? b0) && (b0 <=? 0xDF)).
    { destruct r0 as [|b1 r1]; [congruence|].
      destruct (is_cont b1); [|congruence].
      destruct (utf8_decode r1) eqn:E; cbn [bind] in Hdec; [discriminate|].
      injection Hdec as <-. apply (IH r1); [simpl in Hlen; lia|assumption]. }
    destruct ((0xE0 <=? b0) && (b0 <=? 0xEF)).
    { destruct r0 as [|b1 [|b2 r2]]; try congruence.
      destruct (second3 b0 b1 && is_cont b2); [|congruence].
      destruct (utf8_decode r2) eqn:E; cbn [bind] in Hdec; [discriminate|].
      injection Hdec as <-. apply (IH r2); [simpl in Hlen; lia|assumption]. }
    destruct ((0xF0 <=? b0) && (b0 <=? 0xF4)); [|congruence].
    destruct r0 as [|b1 [|b2 [|b3 r3]]]; try congruence.
    destruct (second4 b0 b1 && is_cont b2 && is_cont b3); [|congruence].
    destruct (utf8_decode r3) eqn:E; cbn [bind] in Hdec; [discriminate|].
    injection Hdec as <-. apply (IH r3); [simpl in Hlen; lia|assumption].
Qed.

(** When every column is recovered, [decode_secret] fails on a value that is
    no byte and decodes the bytes as UTF-8 otherwise. *)
Lemma decode_secret_recovered (shares : list share) (vs : list Z) :
  recover_all (zip_star shares) = Ok vs ->
  decode_secret shares
  = if forallb (fun v => (0 <=? v) && (v <? 256)) vs then utf8_decode vs
    else Raise (ValueError "bytes must be in range(0, 256)").
Proof.
  intros Hall. unfold decode_secret. rewrite (recover_bytes_of_all _ vs Hall).
  destruct (forallb _ vs); reflexivity.
Qed.





(** ** Integers as decimal text *)

Lemma dval_app (a b : list Z) (acc : Z) : dval (a ++ b) acc = dval b (dval a acc).
Proof. unfold dval. apply fold_left_app. Qed.

Lemma digits_fuel_spec (fuel : nat) :
  forall n acc, (0 < fuel)%nat -> 0 <= n < 2 ^ Z.of_nat fuel ->
    exists ds, digits_fuel fuel n acc = ds ++ acc
               /\ ds <> []
               /\ Forall (fun d => is_digit d = true) ds
               /\ forall a, dval ds a = a * 10 ^ Z.of_nat (length ds) + n.
Proof.
  induction fuel as [|f IH]; intros n acc Hf Hn.
  - lia.
  - cbn [digits_fuel]. destruct (n <? 10) eqn:E.
    + exists [48 + n mod 10]. split; [reflexivity|]. split; [discriminate|].
      split.
      * constructor; [|constructor]. unfold is_digit. rewrite Z.mod_small by lia. lia.
      * intros a. unfold dval. cbn [fold_left length].
        rewrite Z.mod_small by lia. change (Z.of_nat 1) with 1. lia.
    + destruct (IH (n / 10) ((48 + n mod 10) :: acc)) as (ds & Hds & Hne & Hall & Hval).
      { destruct f; [simpl in Hn; lia|lia]. }
      { rewrite Nat2Z.inj_succ, Z.pow_succ_r in Hn by lia.
        split; [apply Z.div_pos; lia|].
        apply Z.div_lt_upper_bound; lia. }
      exists (ds ++ [48 + n mod 10]). rewrite Hds, <- app_assoc. split; [reflexivity|].
      split; [destruct ds; discriminate|]. split.
      * apply Forall_app. split; [assumption|]. constructor; [|constructor].
        unfold is_digit. pose proof (Z.mod_pos_bound n 10). lia.
      * intros a. rewrite dval_app, Hval. unfold dval. cbn [fold_left].
        rewrite length_app, Nat2Z.inj_add. cbn [length]. change (Z.of_nat 1) with 1.
        rewrite Z.pow_add_r, Z.pow_1_r by lia.
        pose proof (Z.div_mod n 10). lia.
Qed.

(** The text of a non-negative integer: digits, at least one, whose value is
    the integer. *)
Lemma str_of_int_digits (x : Z) :
  0 <= x ->
  str_of_int x <> []
  /\ Forall (fun d => is_digit d = true) (str_of_int x)
  /\ dval (str_of_int x) 0 = x.
Proof.
  intros Hx. unfold str_of_int. replace (x <? 0) with false by lia.
  unfold str_of_nonneg.
  destruct (digits_fuel_spec (S (Z.to_nat (Z.log2 x))) x []) as (ds & Hds & Hne & Hall & Hval).
  - lia.
  - split; [assumption|]. rewrite Nat2Z.inj_succ, Z2Nat.id by apply Z.log2_nonneg.
    destruct (Z.eq_dec x 0) as [->|Hx0]; [reflexivity|].
    apply Z.log2_spec. lia.
  - rewrite Hds, app_nil_r. split; [assumption|]. split; [assumption|].
    rewrite Hval. lia.
Qed.

Lemma scan_digits_all (ds : list Z) (acc : Z) :
  Forall (fun d => is_digit d = true) ds ->
  scan_digits ds acc = Some (dval ds acc, []).
Proof.
  intros H. revert acc. induction H as [|d r Hd Hr IH]; intros acc; cbn [scan_digits].
  - reflexivity.
  - rewrite Hd. rewrite IH. reflexivity.
Qed.

Lemma int_of_ascii_digits (ds : list Z) :
  ds <> [] ->
  Forall (fun d => is_digit d = true) ds ->
  int_of_ascii ds = Ok (dval ds 0).
Proof.
  intros Hne H. destruct ds as [|d r]; [congruence|].
  inversion H as [|? ? Hd Hr]; subst.
  unfold int_of_ascii. cbn [c_lstrip].
  assert (Hs : c_isspace d = false) by (unfold c_isspace, is_digit in *; lia).
  rewrite Hs.
  replace (d =? 43) with false by (unfold is_digit in Hd; lia).
  replace (d =? 45) with false by (unfold is_digit in Hd; lia).
  rewrite Hd, scan_digits_all by assumption. cbn [forallb].
  unfold dval. cbn [fold_left]. replace (0 * 10 + (d - 48)) with (d - 48) by lia.
  reflexivity.
Qed.

Lemma to_ascii_ascii (todecimal : Z -> option Z) (s : str) :
  Forall (fun c => c < 128) s -> to_ascii todecimal s = s.
Proof.
  induction 1 as [|c r Hc Hr IH]; cbn [to_ascii]; [reflexivity|].
  replace (c <? 128) with true by lia. rewrite IH. reflexivity.
Qed.

Lemma is_digit_ascii (ds : list Z) :
  Forall (fun d => is_digit d = true) ds -> Forall (fun c => c < 128) ds.
Proof. apply Forall_impl. intros d H. unfold is_digit in H. lia. Qed.

(** [int(str(x)) == x] for [x >= 0]. *)
Lemma int_of_str_of_int (todecimal : Z -> option Z) (x : Z) :
  0 <= x -> int_of_str todecimal (str_of_int x) = Ok x.
Proof.
  intros Hx. destruct (str_of_int_digits x Hx) as (Hne & Hall & Hval).
  unfold int_of_str. rewrite to_ascii_ascii by (apply is_digit_ascii; assumption).
  rewrite int_of_ascii_digits by assumption. rewrite Hval. reflexivity.
Qed.

(** ** Stripping and splitting *)

Lemma lstrip_nospace (s : str) :
  Forall (fun c => isspace c = false) s -> lstrip s = s.
Proof. intros H. destruct H as [|c r Hc Hr]; cbn [lstrip]; [reflexivity|]. rewrite Hc. reflexivity. Qed.

Lemma strip_nospace (s : str) :
  Forall (fun c => isspace c = false) s -> strip s = s.
Proof.
  intros H. unfold strip, rstrip. rewrite (lstrip_nospace s H).
  rewrite lstrip_nospace by (apply Forall_rev; assumption).
  apply rev_involutive.
Qed.

Lemma split_no_sep (sep : Z) (s : str) : ~ In sep s -> split sep s = [s].
Proof.
  induction s as [|c r IH]; cbn [split]; [reflexivity|]. intros H.
  replace (c =? sep) with false by (symmetry; apply Z.eqb_neq; intros ->; apply H; left; reflexivity).
  rewrite IH by (intros Hin; apply H; right; assumption). reflexivity.
Qed.

Lemma split_app_sep (sep : Z) (a b : str) :
  ~ In sep a -> split sep (a ++ sep :: b) = a :: split sep b.
Proof.
  induction a as [|c r IH]; cbn [app split]; intros H.
  - rewrite Z.eqb_refl. reflexivity.
  - replace (c =? sep) with false by (symmetry; apply Z.eqb_neq; intros ->; apply H; left; reflexivity).
    rewrite IH by (intros Hin; apply H; right; assumption). reflexivity.
Qed.

(** ** base64 *)

Lemma list_ind3 (P : list Z -> Prop) :
  P [] -> (forall a, P [a]) -> (forall a b, P [a; b]) ->
  (forall a b c r, P r -> P (a :: b :: c :: r)) ->
  forall l, P l.
Proof.
  intros H0 H1 H2 H3 l.
  assert (H : forall n l', (length l' <= n)%nat -> P l').
  { induction n as [|n IH]; intros l' Hl.
    - destruct l'; [exact H0|simpl in Hl; lia].
    - destruct l' as [|a [|b [|c r]]]; auto.
      apply H3. apply IH. simpl in Hl. lia. }
  apply (H (length l)). lia.
Qed.

Lemma b64char_facts (v : Z) :
  0 <= v < 64 ->
  (b64char v =? 61) = false
  /\ b64val (b64char v) = Some v
  /\ plain_char (b64char v)
  /\ b64char v <> 58.
Proof.
  intros Hv.
  assert (H : forall k, In k (seq 0 64) -> b64char_check k = true).
  { apply forallb_forall. vm_compute. reflexivity. }
  specialize (H (Z.to_nat v)). unfold b64char_check in H.
  rewrite Z2Nat.id in H by lia. cbv zeta in H.
  assert (Hin : In (Z.to_nat v) (seq 0 64)) by (apply in_seq; lia).
  apply H in Hin. clear H.
  destruct (b64val (b64char v)) as [w|]; [|rewrite andb_false_r in Hin; discriminate Hin].
  unfold plain_char. repeat split; try lia. f_equal. lia.
Qed.

Lemma a2b_loop_char (v : Z) (r : list Z) (q : nat) (l : Z) (p : nat) :
  0 <= v < 64 ->
  a2b_loop (b64char v :: r) q l p
  = match q with
    | O => a2b_loop r 1 v 0
    | 1%nat => bs <- a2b_loop r 2 (v mod 16) 0 ;; Ok ((l * 4 + v / 16) :: bs)
    | 2%nat => bs <- a2b_loop r 3 (v mod 4) 0 ;; Ok ((l * 16 + v / 4) :: bs)
    | _ => bs <- a2b_loop r 0 0 0 ;; Ok ((l * 64 + v) :: bs)
    end.
Proof.
  intros Hv. destruct (b64char_facts v Hv) as (H1 & H2 & _).
  cbn [a2b_loop]. rewrite H1, H2. reflexivity.
Qed.

Lemma b64_byte1 (a b : Z) :
  0 <= a < 256 -> 0 <= b < 256 -> a / 4 * 4 + (a mod 4 * 16 + b / 16) / 16 = a.
Proof. intros. Z.div_mod_to_equations. lia. Qed.

Lemma b64_byte2 (a b c : Z) :
  0 <= a < 256 -> 0 <= b < 256 -> 0 <= c < 256 ->
  (a mod 4 * 16 + b / 16) mod 16 * 16 + (b mod 16 * 4 + c / 64) / 4 = b.
Proof. intros. Z.div_mod_to_equations. lia. Qed.

Lemma b64_byte3 (b c : Z) :
  0 <= b < 256 -> 0 <= c < 256 ->
  (b mod 16 * 4 + c / 64) mod 4 * 64 + c mod 64 = c.
Proof. intros. Z.div_mod_to_equations. lia. Qed.

Lemma b64_sextets (a b c : Z) :
  0 <= a < 256 -> 0 <= b < 256 -> 0 <= c < 256 ->
  0 <= a / 4 < 64 /\ 0 <= a mod 4 * 16 + b / 16 < 64
  /\ 0 <= b mod 16 * 4 + c / 64 < 64 /\ 0 <= c mod 64 < 64.
Proof. intros. Z.div_mod_to_equations. lia. Qed.

(** Decoding undoes encoding. *)
Lemma a2b_b64encode (bs : bytes) :
  Forall (fun b => 0 <= b < 256) bs -> a2b_loop (b64encode bs) 0 0 0 = Ok bs.
Proof.
  induction bs as [|a|a b|a b c r IH] using list_ind3; intros H.
  - reflexivity.
  - inversion H as [|? ? Ha _]; subst.
    destruct (b64_sextets a 0 0 Ha) as (S1 & S2 & _); try lia.
    cbn [b64encode]. rewrite a2b_loop_char by assumption.
    replace (a mod 4 * 16) with (a mod 4 * 16 + 0 / 16) by (change (0 / 16) with 0; lia).
    rewrite a2b_loop_char by assumption.
    cbn [a2b_loop Z.eqb Nat.leb Nat.add bind]. rewrite (b64_byte1 a 0) by lia. reflexivity.
  - inversion H as [|? ? Ha H']; subst. inversion H' as [|? ? Hb _]; subst.
    destruct (b64_sextets a b 0 Ha Hb) as (S1 & S2 & S3 & _); try lia.
    cbn [b64encode]. rewrite a2b_loop_char by assumption.
    rewrite a2b_loop_char by assumption.
    replace (b mod 16 * 4) with (b mod 16 * 4 + 0 / 64) by (change (0 / 64) with 0; lia).
    rewrite a2b_loop_char by assumption.
    cbn [a2b_loop Z.eqb Nat.leb Nat.add bind].
    rewrite (b64_byte1 a b), (b64_byte2 a b 0) by lia. reflexivity.
  - inversion H as [|? ? Ha H']; subst. inversion H' as [|? ? Hb H'']; subst.
    inversion H'' as [|? ? Hc Hr]; subst.
    destruct (b64_sextets a b c Ha Hb Hc) as (S1 & S2 & S3 & S4).
    cbn [b64encode]. rewrite !a2b_loop_char by assumption.
    rewrite (IH Hr). cbn [bind].
    rewrite (b64_byte1 a b), (b64_byte2 a b c), (b64_byte3 b c) by lia. reflexivity.
Qed.

Lemma b64encode_chars (bs : bytes) :
  Forall (fun b => 0 <= b < 256) bs ->
  Forall (fun c => plain_char c /\ c <> 58) (b64encode bs).
Proof.
  assert (Hpad : plain_char 61 /\ 61 <> 58) by (unfold plain_char; split; [split; [lia|reflexivity]|lia]).
  assert (Hch : forall v, 0 <= v < 64 -> plain_char (b64char v) /\ b64char v <> 58).
  { intros v Hv. destruct (b64char_facts v Hv) as (_ & _ & H3 & H4). split; assumption. }
  induction bs as [|a|a b|a b c r IH] using list_ind3; intros H.
  - constructor.
  - inversion H as [|? ? Ha _]; subst.
    destruct (b64_sextets a 0 0 Ha) as (S1 & S2 & _); try lia.
    change (0 / 16) with 0 in S2. rewrite Z.add_0_r in S2.
    cbn [b64encode]. do 2 (constructor; [apply Hch; assumption|]).
    do 2 (constructor; [exact Hpad|]). constructor.
  - inversion H as [|? ? Ha H']; subst. inversion H' as [|? ? Hb _]; subst.
    destruct (b64_sextets a b 0 Ha Hb) as (S1 & S2 & S3 & _); try lia.
    change (0 / 64) with 0 in S3. rewrite Z.add_0_r in S3.
    cbn [b64encode]. do 3 (constructor; [apply Hch; assumption|]).
    constructor; [exact Hpad|]. constructor.
  - inversion H as [|? ? Ha H']; subst. inversion H' as [|? ? Hb H'']; subst.
    inversion H'' as [|? ? Hc Hr]; subst.
    destruct (b64_sextets a b c Ha Hb Hc) as (S1 & S2 & S3 & S4).
    cbn [b64encode]. do 4 (constructor; [apply Hch; assumption|]). apply IH. assumption.
Qed.

Lemma isascii_plain (s : str) : Forall (fun c => c < 128) s -> isascii s = true.
Proof.
  induction 1 as [|c r Hc Hr IH]; [reflexivity|].
  cbn [isascii forallb]. fold (isascii r). rewrite IH. lia.
Qed.

(** [b64decode(b64encode(bs)) == bs] *)
Lemma b64decode_b64encode (bs : bytes) :
  Forall (fun b => 0 <= b < 256) bs -> b64decode (b64encode bs) = Ok bs.
Proof.
  intros H. unfold b64decode. rewrite isascii_plain.
  - apply a2b_b64encode. assumption.
  - eapply Forall_impl; [|apply b64encode_chars; exact H].
    cbv beta. intros c [[Hc _] _]. exact Hc.
Qed.

(** ** Share serialization *)

Lemma be16_bytes_range (ys : list Z) :
  Forall (fun y => 0 <= y < 65536) ys ->
  Forall (fun b => 0 <= b < 256) (be16_bytes ys).
Proof.
  induction 1 as [|y r Hy Hr IH]; cbn [be16_bytes flat_map app]; [constructor|].
  constructor; [Z.div_mod_to_equations; lia|].
  constructor; [Z.div_mod_to_equations; lia|]. exact IH.
Qed.

Lemma be16_list_bytes (ys : list Z) :
  Forall (fun y => 0 <= y < 65536) ys -> be16_list (be16_bytes ys) = ys.
Proof.
  induction 1 as [|y r Hy Hr IH]; cbn [be16_bytes flat_map app be16_list]; [reflexivity|].
  fold (be16_bytes r). rewrite IH. f_equal. Z.div_mod_to_equations. lia.
Qed.

Lemma be16_bytes_even (ys : list Z) :
  Z.of_nat (length (be16_bytes ys)) mod 2 = 0.
Proof.
  induction ys as [|y r IH]; cbn [be16_bytes flat_map app length]; [reflexivity|].
  fold (be16_bytes r). rewrite !Nat2Z.inj_succ.
  Z.div_mod_to_equations. lia.
Qed.

Lemma join_y_bytes_spec (sh : share) :
  Forall (fun pt => 0 <= snd pt < 65536) sh ->
  join_y_bytes sh = Ok (be16_bytes (map snd sh)).
Proof.
  induction 1 as [|[x y] r Hy Hr IH]; cbn [join_y_bytes map snd]; [reflexivity|].
  cbn [snd] in Hy. unfold to_bytes2.
  replace (y <? 0) with false by lia. replace (65536 <=? y) with false by lia.
  cbn [bind]. rewrite IH. reflexivity.
Qed.

Lemma token_chars (x : Z) (ys : list Z) :
  0 <= x ->
  Forall (fun y => 0 <= y < 65536) ys ->
  Forall (fun c => isspace c = false) (token x ys).
Proof.
  intros Hx Hys. unfold token.
  destruct (str_of_int_digits x Hx) as (_ & Hd & _).
  apply Forall_app. split.
  - eapply Forall_impl; [|exact Hd]. cbv beta. intros d H. unfold is_digit, isspace in *. lia.
  - apply Forall_app. split.
    + repeat constructor.
    + eapply Forall_impl; [|apply b64encode_chars, be16_bytes_range; exact Hys].
      cbv beta. intros c [[_ H] _]. exact H.
Qed.

Lemma existsb_out_of_field (ys : list Z) :
  Forall (fun y => 0 <= y < 257) ys ->
  existsb (fun v => negb ((0 <=? v) && (v <? PRIME))) ys = false.
Proof.
  induction 1 as [|y r Hy Hr IH]; cbn [existsb]; [reflexivity|].
  rewrite IH. unfold PRIME. lia.
Qed.

(** Deserializing the token of [x] and [ys], for any index [x >= 1], however
    large. *)
Lemma str_to_share_token (todecimal : Z -> option Z) (x : Z) (ys : list Z) :
  0 < x ->
  Forall (fun y => 0 <= y < 257) ys ->
  str_to_share todecimal (token x ys) = Some (map (fun v => (x, v)) ys).
Proof.
  intros Hx Hys.
  assert (Hys' : Forall (fun y => 0 <= y < 65536) ys).
  { eapply Forall_impl; [|exact Hys]. cbv beta. intros; lia. }
  unfold str_to_share, str_to_share_try.
  rewrite strip_nospace by (apply token_chars; [lia|assumption]).
  destruct (str_of_int_digits x) as (_ & Hd & _); [lia|].
  unfold token. change (lit ":" ++ b64encode (be16_bytes ys)) with (58 :: b64encode (be16_bytes ys)).
  rewrite split_app_sep.
  2:{ intros Hin. rewrite Forall_forall in Hd. specialize (Hd 58 Hin). discriminate Hd. }
  rewrite split_no_sep.
  2:{ intros Hin. pose proof (b64encode_chars _ (be16_bytes_range ys Hys')) as Hc.
      rewrite Forall_forall in Hc. destruct (Hc 58 Hin) as [_ Hne]. apply Hne. reflexivity. }
  rewrite int_of_str_of_int by lia. cbn [bind].
  rewrite b64decode_b64encode by (apply be16_bytes_range; assumption). cbn [bind].
  rewrite be16_bytes_even. cbn [Z.eqb negb].
  rewrite be16_list_bytes by assumption.
  rewrite existsb_out_of_field by assumption.
  replace (x <=? 0) with false by lia. reflexivity.
Qed.

(** C2. Serialization round trip: every valid share has a serialization, and
    deserializing it returns the share. *)
Theorem serialize_roundtrip (todecimal : Z -> option Z) (sh : share) :
  valid_share sh ->
  exists tok, share_to_str sh = Ok tok /\ str_to_share todecimal tok = Some sh.
Proof.
  intros (Hne & x & Hx & Hall).
  assert (Hmap : map (fun v => (x, v)) (map snd sh) = sh).
  { rewrite map_map. rewrite <- (map_id sh) at 2. apply map_ext_in.
    intros [x' y] Hin. rewrite Forall_forall in Hall.
    destruct (Hall _ Hin) as [Hf _]. cbn [fst snd] in *. subst. reflexivity. }
  exists (token x (map snd sh)). split.
  - destruct sh as [|[x0 y0] r]; [congruence|].
    unfold share_to_str. rewrite join_y_bytes_spec.
    + cbn [bind]. inversion Hall as [|? ? [Hf _] _]; subst. reflexivity.
    + eapply Forall_impl; [|exact Hall]. cbv beta. intros pt [_ H]. lia.
  - rewrite str_to_share_token; [rewrite Hmap; reflexivity|lia|].
    apply Forall_map. eapply Forall_impl; [|exact Hall]. cbv beta. intros pt [_ H]. exact H.
Qed.

Lemma serialize_roundtrip_witness :
  exists tok, share_to_str [(3, 256); (3, 0); (3, 72)] = Ok tok
              /\ str_to_share (fun _ => None) tok = Some [(3, 256); (3, 0); (3, 72)].
Proof.
  apply (serialize_roundtrip (fun _ => None) [(3, 256); (3, 0); (3, 72)]).
  split; [discriminate|]. exists 3. split; [lia|].
  repeat constructor; simpl; lia.
Defined.



Lemma share_x_share_of (x : Z) (ys : list Z) :
  ys <> [] -> share_x (share_of (x, ys)) = x.
Proof. destruct ys; [congruence|reflexivity]. Qed.




(** ** Failures of deserialization *)

Lemma length_split (sep : Z) (s : str) :
  length (split sep s) = S (count_occ Z.eq_dec s sep).
Proof.
  induction s as [|c r IH]; cbn [split count_occ]; [reflexivity|].
  destruct (Z.eq_dec c sep) as [->|Hne].
  - rewrite Z.eqb_refl. cbn [length]. rewrite IH. reflexivity.
  - replace (c =? sep) with false by (symmetry; apply Z.eqb_neq; assumption).
    destruct (split sep r) as [|w ws]; [discriminate IH|].
    cbn [length] in *. exact IH.
Qed.

Lemma count_occ_lstrip (s : str) (c : Z) :
  isspace c = false -> count_occ Z.eq_dec (lstrip s) c = count_occ Z.eq_dec s c.
Proof.
  intros Hc. induction s as [|a r IH]; cbn [lstrip]; [reflexivity|].
  destruct (isspace a) eqn:Ea; [|reflexivity].
  rewrite IH. cbn [count_occ].
  destruct (Z.eq_dec a c) as [->|_]; [congruence|reflexivity].
Qed.

Lemma count_occ_strip (s : str) (c : Z) :
  isspace c = false -> count_occ Z.eq_dec (strip s) c = count_occ Z.eq_dec s c.
Proof.
  intros Hc. unfold strip, rstrip.
  rewrite count_occ_rev, count_occ_lstrip, count_occ_rev, count_occ_lstrip by assumption.
  reflexivity.
Qed.

Lemma existsb_in_field (ys : list Z) :
  existsb (fun v => negb ((0 <=? v) && (v <? PRIME))) ys = false ->
  Forall (fun y => 0 <= y < 257) ys.
Proof.
  induction ys as [|y r IH]; cbn [existsb]; [constructor|].
  intros H. apply orb_false_elim in H. destruct H as [H1 H2].
  constructor; [unfold PRIME in H1; lia|apply IH; assumption].
Qed.

Lemma existsb_not_in_field (ys : list Z) :
  Exists (fun v => ~ 0 <= v < 257) ys ->
  existsb (fun v => negb ((0 <=? v) && (v <? PRIME))) ys = true.
Proof.
  induction 1 as [y r Hy|y r Hr IH]; cbn [existsb].
  - unfold PRIME. apply orb_true_intro. left. lia.
  - rewrite IH. apply orb_true_r.
Qed.

(** C6. Deserialization returns a failure value and never raises: the result
    of [str_to_share] is [None] or a share (every exception of the body is
    caught), a share returned has one positive index and ordinates of the
    field, and the result is [None]
    - when the text does not hold exactly one colon;
    - when the part before the colon is not read by [int] as an integer
      greater than 0 (it is no integer, or [x <= 0]);
    - when the payload decodes to an odd number of bytes;
    - when a decoded ordinate is outside [[0, 257)]. *)
Theorem str_to_share_failures (todecimal : Z -> option Z) (s : str) :
  (str_to_share todecimal s = None
   \/ exists x ys, str_to_share todecimal s = Some (share_of (x, ys))
                   /\ 0 < x /\ Forall (fun y => 0 <= y < 257) ys)
  /\ (count_occ Z.eq_dec s 58 <> 1%nat -> str_to_share todecimal s = None)
  /\ (forall x_str y_b64,
        split 58 (strip s) = [x_str; y_b64] ->
        ((forall x, int_of_str todecimal x_str = Ok x -> x <= 0) ->
         str_to_share todecimal s = None)
        /\ (forall bs, b64decode y_b64 = Ok bs ->
                       Z.of_nat (length bs) mod 2 <> 0 ->
                       str_to_share todecimal s = None)
        /\ (forall bs, b64decode y_b64 = Ok bs ->
                       Exists (fun v => ~ 0 <= v < 257) (be16_list bs) ->
                       str_to_share todecimal s = None)).
Proof.
  unfold str_to_share, str_to_share_try. split; [|split].
  - destruct (split 58 (strip s)) as [|x_str [|y_b64 [|? ?]]]; try (left; reflexivity).
    destruct (int_of_str todecimal x_str) as [x|]; cbn [bind]; [|left; reflexivity].
    destruct (b64decode y_b64) as [bs|]; cbn [bind]; [|left; reflexivity].
    destruct (negb (Z.of_nat (length bs) mod 2 =? 0)); [left; reflexivity|].
    destruct (x <=? 0) eqn:Ex; cbn [orb]; [left; reflexivity|].
    destruct (existsb _ (be16_list bs)) eqn:Ey; [left; reflexivity|].
    right. exists x, (be16_list bs). split; [reflexivity|]. split; [lia|].
    apply existsb_in_field. assumption.
  - intros Hc.
    pose proof (length_split 58 (strip s)) as Hl.
    rewrite count_occ_strip in Hl by reflexivity.
    destruct (split 58 (strip s)) as [|x_str [|y_b64 [|? ?]]]; try reflexivity.
    cbn [length] in Hl. exfalso. apply Hc. lia.
  - intros x_str y_b64 ->. split; [|split].
    + intros Hx. destruct (int_of_str todecimal x_str) as [x|]; cbn [bind]; [|reflexivity].
      specialize (Hx x eq_refl).
      destruct (b64decode y_b64) as [bs|]; cbn [bind]; [|reflexivity].
      destruct (negb (Z.of_nat (length bs) mod 2 =? 0)); [reflexivity|].
      replace (x <=? 0) with true by lia. reflexivity.
    + intros bs Hb Hodd.
      destruct (int_of_str todecimal x_str) as [x|]; cbn [bind]; [|reflexivity].
      rewrite Hb. cbn [bind].
      replace (Z.of_nat (length bs) mod 2 =? 0) with false by lia. reflexivity.
    + intros bs Hb Hy.
      destruct (int_of_str todecimal x_str) as [x|]; cbn [bind]; [|reflexivity].
      rewrite Hb. cbn [bind].
      destruct (negb (Z.of_nat (length bs) mod 2 =? 0)); [reflexivity|].
      rewrite (existsb_not_in_field _ Hy), orb_true_r. reflexivity.
Qed.

(** The rejections that the specification lists: an index 0, a payload of a
    single character, an ordinate 257, a token without colon and a token with
    two. *)
Example str_to_share_rejections (todecimal : Z -> option Z) :
  str_to_share todecimal (lit "0:AAA=") = None
  /\ str_to_share todecimal (lit "3:A") = None
  /\ str_to_share todecimal (lit "1:AQE=") = None
  /\ str_to_share todecimal (lit "1AAA=") = None
  /\ str_to_share todecimal (lit "1:2:AAA=") = None
  /\ str_to_share todecimal (lit "x:AAA=") = None
  /\ str_to_share todecimal (lit "1:AAAA") = None.
Proof. repeat split; reflexivity. Qed.

(* ================================================================== *)
(** * Part V. Further properties of blob.py *)
(* ================================================================== *)

(** ** Field arithmetic and polynomial evaluation *)

Lemma power_sum_horner (coeffs : list Z) (i x : Z) :
  0 <= i -> power_sum coeffs i x = x ^ i * horner coeffs x.
Proof.
  revert i. induction coeffs as [|c r IH]; intros i Hi; cbn [power_sum horner]; [ring|].
  rewrite IH by lia. rewrite Z.pow_add_r by lia. ring.
Qed.

Lemma eval_poly_sum_power (p : Z) (coeffs : list Z) (i x acc : Z) :
  p <> 0 ->
  exists s, eval_poly_sum coeffs i x p acc = Ok s
            /\ cong p s (acc + power_sum coeffs i x).
Proof.
  intros Hp. revert i acc.
  induction coeffs as [|c r IH]; intros i acc; cbn [eval_poly_sum power_sum].
  - exists acc. split; [reflexivity|]. apply cong_eq. ring.
  - unfold pow3. replace (p =? 0) with false by lia. cbn [bind].
    destruct (IH (i + 1) (acc + c * (x ^ i mod p))) as (s & Hs & Hc).
    exists s. split; [exact Hs|].
    rewrite Hc, cong_mod. apply cong_eq. ring.
Qed.

(** X1. [eval_poly] returns the value of the polynomial, reduced like [%] (into
    [[0, p)] for a positive modulus): reducing each power first changes
    nothing.  It raises only on the modulus 0. *)
Theorem eval_poly_value (coeffs : list Z) (x p : Z) :
  (p <> 0 -> eval_poly coeffs x p = Ok (power_sum coeffs 0 x mod p))
  /\ (0 < p -> exists v, eval_poly coeffs x p = Ok v /\ 0 <= v < p)
  /\ (p = 0 -> exists e, eval_poly coeffs x p = Raise e).
Proof.
  assert (H : p <> 0 -> eval_poly coeffs x p = Ok (power_sum coeffs 0 x mod p)).
  { intros Hp. unfold eval_poly.
    destruct (eval_poly_sum_power p coeffs 0 x 0 Hp) as (s & Hs & Hc).
    rewrite Hs. cbn [bind]. unfold mod_. replace (p =? 0) with false by lia.
    f_equal. unfold cong in Hc. rewrite Hc. rewrite Z.add_0_l. reflexivity. }
  split; [exact H|]. split.
  - intros Hp. eexists. split; [apply H; lia|]. apply Z.mod_pos_bound. assumption.
  - intros ->. unfold eval_poly. destruct coeffs as [|c r].
    + eexists. reflexivity.
    + eexists. reflexivity.
Qed.

(** X2. [modinv] modulo 257: a base that is no multiple of 257 has an inverse in
    [[1, 256]]; a multiple of 257 raises [ValueError]. *)
Theorem modinv_contract (a : Z) :
  (a mod 257 <> 0 ->
   exists b, modinv a PRIME = Ok b /\ 1 <= b <= 256 /\ (a * b) mod 257 = 1)
  /\ (a mod 257 = 0 -> modinv a PRIME = Raise not_invertible).
Proof.
  split.
  - intros Ha. exists (Z.invmod a 257). split; [apply modinv_PRIME; assumption|].
    pose proof (Z.invmod_prime a 257 prime_257 Ha) as Hinv.
    rewrite Z.mul_comm in Hinv. split; [|exact Hinv].
    pose proof (Z.mod_invmod 257 a) as Hm.
    pose proof (Z.mod_pos_bound (Z.invmod a 257) 257 ltac:(lia)) as Hb.
    rewrite Hm in Hb.
    assert (Z.invmod a 257 <> 0).
    { intros E. rewrite E, Z.mul_0_r in Hinv. discriminate Hinv. }
    lia.
  - apply modinv_zero.
Qed.

(** ** Splitting and encoding *)

Lemma rand_coeffs_exact (m : nat) (g : rng) :
  rand_coeffs m g
  = Ok (map (fun i => tape g (pos g + i) mod 257) (seq 0 m),
        mkRng (tape g) (pos g + m)).
Proof.
  revert g. induction m as [|m IH]; intros g; cbn [rand_coeffs seq map].
  - rewrite Nat.add_0_r. destruct g. reflexivity.
  - unfold randbelow, PRIME. change (257 <=? 0) with false. cbv iota. cbn [bind].
    rewrite IH. cbn [bind tape pos]. rewrite Nat.add_0_r.
    rewrite <- seq_shift, map_map.
    rewrite (map_ext (fun i => tape g (S (pos g) + i) mod 257)
                     (fun x => tape g (pos g + S x) mod 257))
      by (intros i; f_equal; f_equal; lia).
    replace (S (pos g) + m)%nat with (pos g + S m)%nat by lia. reflexivity.
Qed.

Lemma share_point_range (x : Z) (f : list Z) : 0 <= snd (share_point x f) < 257.
Proof. unfold share_point. cbn [snd]. apply Z.mod_pos_bound. lia. Qed.

(** X3. [split_secret] never fails: it returns one point for each of
    [x = 1, ..., n] in this order (none for [n <= 0]), every ordinate is a
    field element, and exactly [k - 1] values are drawn from the random
    source (none for [k <= 1]). *)
Theorem split_secret_shape (byte n k : Z) (g : rng) :
  exists pts g',
    split_secret byte n k g = Ok (pts, g')
    /\ map fst pts = range1 n
    /\ Forall (fun pt => 0 <= snd pt < 257) pts
    /\ tape g' = tape g
    /\ pos g' = (pos g + Z.to_nat (k - 1))%nat.
Proof.
  unfold split_secret. rewrite rand_coeffs_exact. cbn [bind].
  rewrite eval_points_spec. cbn [bind].
  eexists _, _. split; [reflexivity|]. split; [|split; [|split; reflexivity]].
  - rewrite map_map. cbn [share_point fst]. apply map_id.
  - apply Forall_forall. intros pt Hpt. apply in_map_iff in Hpt.
    destruct Hpt as (x & <- & _). apply share_point_range.
Qed.

(** X4. With a threshold of 1 or less the polynomial is the constant [byte]: no
    random value is drawn and every share holds the secret byte itself. *)
Theorem split_secret_threshold_one (byte n k : Z) (g : rng) :
  k <= 1 ->
  split_secret byte n k g
  = Ok (map (fun x => (x, byte mod 257)) (range1 n), g).
Proof.
  intros Hk. unfold split_secret. rewrite rand_coeffs_exact.
  replace (Z.to_nat (k - 1)) with 0%nat by lia. cbn [seq map bind app].
  rewrite eval_points_spec. cbn [bind]. rewrite Nat.add_0_r.
  destruct g as [t q]. cbn [tape pos]. f_equal. f_equal.
  apply map_ext. intros x. unfold share_point. cbn [horner]. f_equal. f_equal. ring.
Qed.

Lemma split_secret_threshold_one_witness :
  split_secret 72 3 1 (mkRng (fun _ => 5) 0)
  = Ok (map (fun x => (x, 72 mod 257)) (range1 3), mkRng (fun _ => 5) 0).
Proof. apply (split_secret_threshold_one 72 3 1 (mkRng (fun _ => 5) 0)). lia. Defined.

Lemma nth_error_shares_of (polys : list (list Z)) (xs : list Z) (i : nat) (sh : share) :
  nth_error (shares_of polys xs) i = Some sh ->
  exists x, nth_error xs i = Some x /\ sh = map (share_point x) polys.
Proof.
  unfold shares_of. rewrite nth_error_map.
  destruct (nth_error xs i) as [x|]; cbn [option_map]; [|discriminate].
  intros H. injection H as <-. exists x. split; reflexivity.
Qed.

Lemma nth_error_range1 (n : Z) (i : nat) (x : Z) :
  nth_error (range1 n) i = Some x -> x = Z.of_nat i + 1 /\ (i < Z.to_nat n)%nat.
Proof.
  unfold range1. rewrite nth_error_map. intros H.
  destruct (nth_error (seq 0 (Z.to_nat n)) i) as [j|] eqn:E; cbn [option_map] in H; [|discriminate].
  injection H as <-.
  assert (Hi : (i < Z.to_nat n)%nat).
  { assert (Hl : (i < length (seq 0 (Z.to_nat n)))%nat)
      by (apply nth_error_Some; congruence).
    rewrite length_seq in Hl. exact Hl. }
  apply (nth_error_nth _ _ 0%nat) in E. rewrite seq_nth in E by assumption.
  split; [lia|assumption].
Qed.

(** X5. [encode_secret] refuses a secret that is not ASCII, before anything is
    drawn; for an ASCII secret it returns [n] shares (none for [n <= 0]),
    and the share at position [i] has one point per character of the secret,
    each with the index [i + 1] and an ordinate of the field. *)
Theorem encode_secret_shape (s : str) (n k : Z) (g : rng) :
  (isascii s = false ->
   encode_secret s n k g = Raise (ValueError "Only ASCII secrets supported."))
  /\ (isascii s = true ->
      exists shares g',
        encode_secret s n k g = Ok (shares, g')
        /\ length shares = Z.to_nat n
        /\ forall i sh, nth_error shares i = Some sh ->
             length sh = length s
             /\ Forall (fun pt => fst pt = Z.of_nat i + 1 /\ 0 <= snd pt < 257) sh).
Proof.
  split.
  - intros Ha. unfold encode_secret. rewrite Ha. reflexivity.
  - intros Ha. destruct (encode_secret_spec s n k g Ha) as (polys & g' & He & HF).
    exists (shares_of polys (range1 n)), g'. split; [exact He|]. split.
    { unfold shares_of, range1. rewrite !length_map, length_seq. reflexivity. }
    intros i sh Hsh. apply nth_error_shares_of in Hsh. destruct Hsh as (x & Hx & ->).
    apply nth_error_range1 in Hx. destruct Hx as [-> _]. split.
    + rewrite length_map. symmetry. eapply Forall2_length. exact HF.
    + apply Forall_forall. intros pt Hpt. apply in_map_iff in Hpt.
      destruct Hpt as (f & <- & _). split; [reflexivity|apply share_point_range].
Qed.

(** ** Decoding with enough shares *)

Lemma recover_bytes_enough (polys : list (list Z)) (xs : list Z) (bs : bytes) :
  xs <> [] ->
  NoDup xs ->
  (forall x, In x xs -> 1 <= x <= 256) ->
  Forall2 (fun b f => hd 0 f = b /\ (length f <= length xs)%nat) bs polys ->
  Forall (fun b => 0 <= b < 256) bs ->
  recover_bytes (map (fun f => map (fun x => share_point x f) xs) polys) = Ok bs.
Proof.
  intros Hne Hnd Hr HF. induction HF as [|b f bs' polys' [Hhd Hlen] HF IH]; intros Hb.
  - reflexivity.
  - inversion Hb as [|? ? Hb0 Hbs]; subst.
    cbn [map recover_bytes].
    rewrite recover_secret_exact by (try assumption; lia). cbn [bind].
    replace ((0 <=? hd 0 f) && (hd 0 f <? 256)) with true by lia.
    rewrite IH by assumption. reflexivity.
Qed.

Lemma decode_selected (s : str) (n k : Z) (polys : list (list Z)) (sel : list nat) :
  wf_str s ->
  isascii s = true ->
  n <= 256 ->
  NoDup sel ->
  sel <> [] ->
  k <= Z.of_nat (length sel) ->
  (forall i, In i sel -> (i < Z.to_nat n)%nat) ->
  Forall2 (fun b f => hd 0 f = b /\ length f = S (Z.to_nat (k - 1))) s polys ->
  decode_secret (map (fun i => nth i (shares_of polys (range1 n)) []) sel) = Ok s.
Proof.
  intros Hwf Ha Hn Hnd Hne Hk Hsel HF.
  rewrite select_shares_of by assumption.
  set (xs := map (fun i => Z.of_nat i + 1) sel).
  assert (Hxs : xs <> []) by (unfold xs; destruct sel; [congruence|discriminate]).
  unfold decode_secret. rewrite zip_star_shares_of by assumption.
  rewrite (recover_bytes_enough polys xs s).
  - cbn [bind]. apply utf8_decode_ascii. assumption.
  - assumption.
  - unfold xs. apply Injective_map_NoDup; [|assumption]. intros i j Hij. lia.
  - unfold xs. intros x Hx. apply in_map_iff in Hx. destruct Hx as (i & <- & Hi).
    specialize (Hsel i Hi). lia.
  - eapply Forall2_impl; [|exact HF]. cbn beta. intros b f [H1 H2].
    split; [assumption|]. unfold xs. rewrite length_map, H2.
    destruct sel; [congruence|]. cbn [length] in *. lia.
  - apply isascii_range; assumption.
Qed.

(** X6. Any set of at least [k] (and at least one) of the shares of a split
    recovers the secret, not only sets of exactly [k]; and this holds up to
    [n = 256], the largest number of shares the field allows. *)
Theorem decode_enough_shares (s : str) (n k : Z) (g : rng) (sel : list nat) :
  wf_str s ->
  isascii s = true ->
  n <= 256 ->
  NoDup sel ->
  sel <> [] ->
  k <= Z.of_nat (length sel) ->
  (forall i, In i sel -> (i < Z.to_nat n)%nat) ->
  exists shares g',
    encode_secret s n k g = Ok (shares, g')
    /\ decode_secret (map (fun i => nth i shares []) sel) = Ok s.
Proof.
  intros Hwf Ha Hn Hnd Hne Hk Hsel.
  destruct (encode_secret_spec s n k g Ha) as (polys & g' & He & HF).
  exists (shares_of polys (range1 n)), g'. split; [exact He|].
  apply (decode_selected s n k); assumption.
Qed.

Lemma decode_enough_shares_witness :
  exists shares g',
    encode_secret (lit "Hi") 256 2 (mkRng (fun i => Z.of_nat i * 31 + 7) 0) = Ok (shares, g')
    /\ decode_secret (map (fun i => nth i shares []) [255; 0; 100; 7]%nat) = Ok (lit "Hi").
Proof.
  apply (decode_enough_shares (lit "Hi") 256 2
           (mkRng (fun i => Z.of_nat i * 31 + 7) 0) [255; 0; 100; 7]%nat).
  - repeat constructor; vm_compute; discriminate.
  - reflexivity.
  - lia.
  - repeat constructor; simpl; intuition discriminate.
  - discriminate.
  - simpl. lia.
  - intros i Hi. simpl in Hi. change (Z.to_nat 256) with 256%nat. lia.
Defined.

(** ** What [recover_secret] returns and raises *)

(** The inner loop either multiplies by every factor, or stops at the first
    abscissa congruent to [xi] with the failure of [modinv]. *)
Lemma li_loop_outcome (xs : list Z) (j i : nat) (xi li : Z) :
  match li_loop xs j i xi PRIME li with
  | Ok v =>
      (0 <= li < 257 -> 0 <= v < 257)
      /\ forall m x, nth_error xs m = Some x -> (j + m)%nat <> i -> (xi - x) mod 257 <> 0
  | Raise e =>
      e = not_invertible
      /\ exists m x, nth_error xs m = Some x /\ (j + m)%nat <> i /\ (xi - x) mod 257 = 0
  end.
Proof.
  revert j li. induction xs as [|x r IH]; intros j li; cbn [li_loop].
  - split; [tauto|]. intros m y H. destruct m; discriminate H.
  - destruct (Nat.eqb i j) eqn:Eij; cbn [bind].
    + apply Nat.eqb_eq in Eij. subst j. specialize (IH (S i) li).
      destruct (li_loop r (S i) i xi PRIME li) as [v|e].
      * destruct IH as [Hb Hd]. split; [exact Hb|].
        intros [|m] y Hy Hne; [lia|]. apply (Hd m y Hy). lia.
      * destruct IH as [He (m & y & Hy & Hne & Hz)]. split; [exact He|].
        exists (S m), y. repeat split; [exact Hy|lia|exact Hz].
    + apply Nat.eqb_neq in Eij.
      destruct (Z.eq_dec ((xi - x) mod 257) 0) as [Hz|Hnz].
      * rewrite modinv_zero by assumption. cbn [bind]. split; [reflexivity|].
        exists 0%nat, x. repeat split; [lia|exact Hz].
      * rewrite modinv_PRIME by assumption. cbn [bind]. rewrite mod_PRIME. cbn [bind].
        specialize (IH (S j) ((li * - x * Z.invmod (xi - x) 257) mod 257)).
        destruct (li_loop r (S j) i xi PRIME _) as [v|e].
        -- destruct IH as [Hb Hd]. split.
           ++ intros _. apply Hb. apply Z.mod_pos_bound. lia.
           ++ intros [|m] y Hy Hne.
              ** cbn [nth_error] in Hy. injection Hy as <-. exact Hnz.
              ** apply (Hd m y Hy). lia.
        -- destruct IH as [He (m & y & Hy & Hne & Hz)]. split; [exact He|].
           exists (S m), y. repeat split; [exact Hy|lia|exact Hz].
Qed.

Lemma interp_loop_outcome (pts : list (Z * Z)) (i : nat) (xs : list Z) (total : Z) :
  match interp_loop pts i xs PRIME total with
  | Ok v =>
      (pts <> [] -> 0 <= v < 257)
      /\ forall m xi yi j x,
           nth_error pts m = Some (xi, yi) -> nth_error xs j = Some x ->
           j <> (i + m)%nat -> (xi - x) mod 257 <> 0
  | Raise e =>
      e = not_invertible
      /\ exists m xi yi j x,
           nth_error pts m = Some (xi, yi) /\ nth_error xs j = Some x
           /\ j <> (i + m)%nat /\ (xi - x) mod 257 = 0
  end.
Proof.
  revert i total. induction pts as [|[xi yi] post IH]; intros i total; cbn [interp_loop].
  - split; [congruence|]. intros m ? ? ? ? H. destruct m; discriminate H.
  - pose proof (li_loop_outcome xs 0 i xi 1) as Hli.
    destruct (li_loop xs 0 i xi PRIME 1) as [li|e]; cbn [bind].
    + destruct Hli as [_ Hd]. rewrite mod_PRIME. cbn [bind].
      specialize (IH (S i) ((total + yi * li) mod 257)).
      destruct (interp_loop post (S i) xs PRIME _) as [v|e] eqn:E.
      * destruct IH as [Hb Hall]. split.
        -- intros _. destruct post as [|q post'].
           ++ cbn [interp_loop] in E. injection E as <-. apply Z.mod_pos_bound. lia.
           ++ apply Hb. congruence.
        -- intros [|m] xi' yi' j x Hm Hj Hne.
           ++ cbn [nth_error] in Hm. injection Hm as <- <-.
              apply (Hd j x Hj). cbn [Nat.add]. lia.
           ++ apply (Hall m xi' yi' j x Hm Hj). lia.
      * destruct IH as [He (m & xi' & yi' & j & x & Hm & Hj & Hne & Hz)].
        split; [exact He|]. exists (S m), xi', yi', j, x.
        repeat split; [exact Hm|exact Hj|lia|exact Hz].
    + destruct Hli as [He (j & x & Hj & Hne & Hz)]. split; [exact He|].
      exists 0%nat, xi, yi, j, x. cbn [Nat.add] in Hne.
      repeat split; [exact Hj|lia|exact Hz].
Qed.

Lemma nth_error_fst {A B : Type} (l : list (A * B)) (m : nat) (a : A) :
  nth_error (map fst l) m = Some a -> exists b, nth_error l m = Some (a, b).
Proof.
  rewrite nth_error_map. destruct (nth_error l m) as [[a' b]|]; cbn [option_map]; [|discriminate].
  intros H. injection H as <-. exists b. reflexivity.
Qed.

(** X7. [recover_secret] succeeds exactly on a non-empty list of points whose
    abscissas are pairwise distinct modulo 257, and then returns a field
    element. *)
Theorem recover_secret_succeeds_iff (pts : list point) :
  (exists v, recover_secret pts = Ok v)
  <-> pts <> [] /\ NoDup (map fst pts) /\ ~ congruent_pair 257 (map fst pts).
Proof.
  split.
  - intros [v Hv]. destruct pts as [|q pts']; [discriminate Hv|].
    split; [discriminate|].
    destruct (ListDec.NoDup_dec Z.eq_dec (map fst (q :: pts'))) as [Hnd|Hnd].
    2:{ unfold recover_secret in Hv. rewrite lagrange_interp_dup in Hv by assumption.
        discriminate Hv. }
    split; [exact Hnd|].
    unfold recover_secret, lagrange_interp in Hv.
    rewrite set_len_NoDup, Nat.eqb_refl in Hv by assumption. cbn [negb] in Hv.
    rewrite combine_fst_snd in Hv.
    pose proof (interp_loop_outcome (q :: pts') 0 (map fst (q :: pts')) 0) as Ho.
    rewrite Hv in Ho. destruct Ho as [_ Hall].
    intros (i & j & xi & xj & Hij & Hi & Hj & Hz).
    apply nth_error_fst in Hi. destruct Hi as [yi Hi].
    apply (Hall i xi yi j xj Hi Hj); [cbn [Nat.add]; lia|exact Hz].
  - intros (Hne & Hnd & Hnc). destruct pts as [|q pts']; [congruence|].
    unfold recover_secret, lagrange_interp.
    rewrite set_len_NoDup, Nat.eqb_refl by assumption. cbn [negb].
    rewrite combine_fst_snd.
    pose proof (interp_loop_outcome (q :: pts') 0 (map fst (q :: pts')) 0) as Ho.
    destruct (interp_loop (q :: pts') 0 (map fst (q :: pts')) PRIME 0) as [v|e].
    + exists v. reflexivity.
    + exfalso. destruct Ho as [_ (m & xi & yi & j & x & Hm & Hj & Hne' & Hz)].
      apply Hnc. exists m, j, xi, x. cbn [Nat.add] in Hne'.
      repeat split; [lia| |exact Hj|exact Hz].
      rewrite nth_error_map, Hm. reflexivity.
Qed.

(** X8. Whatever the points, [recover_secret] returns a field element or raises a
    [ValueError]: no other value and no other exception. *)
Theorem recover_secret_outcomes (pts : list point) :
  (exists v, recover_secret pts = Ok v /\ 0 <= v < 257)
  \/ (exists msg, recover_secret pts = Raise (ValueError msg)).
Proof.
  destruct pts as [|q pts']; [right; eexists; reflexivity|].
  unfold recover_secret, lagrange_interp.
  destruct (Nat.eqb _ _); cbn [negb]; [|right; eexists; reflexivity].
  rewrite combine_fst_snd.
  pose proof (interp_loop_outcome (q :: pts') 0 (map fst (q :: pts')) 0) as Ho.
  destruct (interp_loop (q :: pts') 0 (map fst (q :: pts')) PRIME 0) as [v|e].
  - left. exists v. split; [reflexivity|]. apply Ho. discriminate.
  - right. destruct Ho as [-> _]. eexists. reflexivity.
Qed.

(** Abscissas that differ as integers and agree modulo 257 pass the
    duplicate test and make the modular inverse fail. *)
Lemma recover_secret_congruent_x (pts : list point) :
  NoDup (map fst pts) ->
  congruent_pair 257 (map fst pts) ->
  recover_secret pts = Raise not_invertible.
Proof.
  intros Hnd (i & j & xi & xj & Hij & Hi & Hj & Hz).
  destruct pts as [|q pts']; [destruct i; discriminate Hi|].
  unfold recover_secret, lagrange_interp.
  rewrite set_len_NoDup, Nat.eqb_refl by assumption. cbn [negb].
  rewrite combine_fst_snd.
  pose proof (interp_loop_outcome (q :: pts') 0 (map fst (q :: pts')) 0) as Ho.
  destruct (interp_loop (q :: pts') 0 (map fst (q :: pts')) PRIME 0) as [v|e].
  - exfalso. destruct Ho as [_ Hall].
    apply nth_error_fst in Hi. destruct Hi as [yi Hi].
    apply (Hall i xi yi j xj Hi Hj); [cbn [Nat.add]; lia|exact Hz].
  - destruct Ho as [-> _]. reflexivity.
Qed.

Lemma recover_secret_congruent_x_witness :
  recover_secret [(1, 5); (258, 9)] = Raise not_invertible.
Proof.
  apply (recover_secret_congruent_x [(1, 5); (258, 9)]).
  - repeat constructor; simpl; intuition discriminate.
  - exists 0%nat, 1%nat, 1, 258. repeat split. discriminate.
Defined.

(** ** Serialization beyond valid shares *)









Lemma join_y_bytes_overflow (sh : share) :
  Exists (fun pt => ~ 0 <= snd pt < 65536) sh ->
  join_y_bytes sh = Raise OverflowError.
Proof.
  induction sh as [|[x y] r IH]; intros H; [inversion H|].
  cbn [join_y_bytes]. unfold to_bytes2.
  destruct (y <? 0) eqn:E1; [reflexivity|].
  destruct (65536 <=? y) eqn:E2; [reflexivity|]. cbn [bind].
  inversion H as [? ? Hy|? ? Hr]; subst; [cbn [snd] in Hy; lia|].
  rewrite (IH Hr). reflexivity.
Qed.

(** X10. What [share_to_str] raises: [IndexError] on the empty share, and
    [OverflowError] when an ordinate does not fit in two bytes. *)
Theorem share_to_str_errors (sh : share) :
  (sh = [] -> share_to_str sh = Raise IndexError)
  /\ (sh <> [] -> Exists (fun pt => ~ 0 <= snd pt < 65536) sh ->
      share_to_str sh = Raise OverflowError).
Proof.
  split.
  - intros ->. reflexivity.
  - intros Hne Hex. destruct sh as [|[x y] r]; [congruence|].
    unfold share_to_str. rewrite join_y_bytes_overflow by assumption. reflexivity.
Qed.

Lemma str_to_share_some (todecimal : Z -> option Z) (s : str) (sh : share) :
  str_to_share todecimal s = Some sh ->
  exists x ys, sh = map (fun v => (x, v)) ys /\ 0 < x
               /\ Forall (fun y => 0 <= y < 257) ys.
Proof.
  unfold str_to_share, str_to_share_try.
  destruct (split 58 (strip s)) as [|x_str [|y_b64 [|? ?]]]; try discriminate.
  destruct (int_of_str todecimal x_str) as [x|]; cbn [bind]; [|discriminate].
  destruct (b64decode y_b64) as [bs|]; cbn [bind]; [|discriminate].
  destruct (negb (Z.of_nat (length bs) mod 2 =? 0)); [discriminate|].
  destruct (x <=? 0) eqn:Ex; cbn [orb]; [discriminate|].
  destruct (existsb _ (be16_list bs)) eqn:Ey; [discriminate|].
  intros H. injection H as <-. exists x, (be16_list bs).
  split; [reflexivity|]. split; [lia|]. apply existsb_in_field. assumption.
Qed.

(** X11. Every non-empty share that [str_to_share] returns, from whatever text,
    can be serialized, and its serialization is read back as the same share. *)
Theorem deserialized_share_roundtrip (todecimal : Z -> option Z) (s : str) (sh : share) :
  str_to_share todecimal s = Some sh ->
  sh <> [] ->
  exists tok, share_to_str sh = Ok tok /\ str_to_share todecimal tok = Some sh.
Proof.
  intros Hs Hne. destruct (str_to_share_some todecimal s sh Hs) as (x & ys & -> & Hx & Hys).
  destruct ys as [|y0 r]; [exfalso; apply Hne; reflexivity|].
  exists (token x (y0 :: r)). split.
  - cbn [map]. unfold share_to_str. rewrite join_y_bytes_spec.
    + cbn [bind map snd]. rewrite map_map. cbn [snd]. rewrite map_id. reflexivity.
    + apply Forall_forall. intros pt Hpt.
      change ((x, y0) :: map (fun v => (x, v)) r) with (map (fun v => (x, v)) (y0 :: r)) in Hpt.
      apply in_map_iff in Hpt. destruct Hpt as (v & <- & Hv).
      rewrite Forall_forall in Hys. specialize (Hys v Hv). cbn [snd]. lia.
  - apply str_to_share_token; assumption.
Qed.

Lemma deserialized_share_roundtrip_witness :
  exists tok, share_to_str [(10, 0)] = Ok tok
              /\ str_to_share (fun _ => None) tok = Some [(10, 0)].
Proof.
  apply (deserialized_share_roundtrip (fun _ => None) (lit " +1_0 :AA = A= ") [(10, 0)]).
  - vm_compute. reflexivity.
  - discriminate.
Defined.

(** ** White space around a token *)

Lemma lstrip_spaces (ws s : str) :
  Forall (fun c => isspace c = true) ws -> lstrip (ws ++ s) = lstrip s.
Proof.
  induction 1 as [|c r Hc Hr IH]; cbn [app lstrip]; [reflexivity|].
  rewrite Hc. exact IH.
Qed.

Lemma lstrip_app (a b : str) :
  lstrip (a ++ b) = match lstrip a with [] => lstrip b | _ :: _ => lstrip a ++ b end.
Proof.
  induction a as [|c r IH]; cbn [app lstrip].
  - destruct (lstrip b); reflexivity.
  - destruct (isspace c); [exact IH|reflexivity].
Qed.

Lemma rstrip_spaces (s ws : str) :
  Forall (fun c => isspace c = true) ws -> rstrip (s ++ ws) = rstrip s.
Proof.
  intros H. unfold rstrip. rewrite rev_app_distr.
  rewrite lstrip_spaces by (apply Forall_rev; assumption). reflexivity.
Qed.

Lemma lstrip_all_spaces (ws : str) :
  Forall (fun c => isspace c = true) ws -> lstrip ws = [].
Proof. intros H. rewrite <- (app_nil_r ws). rewrite lstrip_spaces by assumption. reflexivity. Qed.

Lemma strip_spaces (ws1 s ws2 : str) :
  Forall (fun c => isspace c = true) ws1 ->
  Forall (fun c => isspace c = true) ws2 ->
  strip (ws1 ++ s ++ ws2) = strip s.
Proof.
  intros H1 H2. unfold strip. rewrite lstrip_spaces by assumption.
  rewrite lstrip_app. destruct (lstrip s) as [|c r] eqn:E.
  - rewrite lstrip_all_spaces by assumption. reflexivity.
  - apply rstrip_spaces. assumption.
Qed.

(** X12. White space before and after a token is ignored (so a token pasted with
    blanks, tabs or a line end is read like the token itself). *)
Theorem str_to_share_ignores_spaces (todecimal : Z -> option Z) (ws1 s ws2 : str) :
  Forall (fun c => isspace c = true) ws1 ->
  Forall (fun c => isspace c = true) ws2 ->
  str_to_share todecimal (ws1 ++ s ++ ws2) = str_to_share todecimal s.
Proof.
  intros H1 H2. unfold str_to_share, str_to_share_try.
  rewrite strip_spaces by assumption. reflexivity.
Qed.

Lemma str_to_share_ignores_spaces_witness :
  str_to_share (fun _ => None) (lit "  " ++ lit "3:AAA=" ++ [9; 10])
  = str_to_share (fun _ => None) (lit "3:AAA=").
Proof.
  apply (str_to_share_ignores_spaces (fun _ => None) (lit "  ") (lit "3:AAA=") [9; 10]).
  - repeat constructor.
  - repeat constructor.
Defined.

(** ** From split to recovery through text *)

Lemma share_of_roundtrip (todecimal : Z -> option Z) (x : Z) (ys : list Z) :
  0 < x ->
  ys <> [] ->
  Forall (fun y => 0 <= y < 257) ys ->
  exists tok, share_to_str (share_of (x, ys)) = Ok tok
              /\ str_to_share todecimal tok = Some (share_of (x, ys)).
Proof.
  intros Hx Hne Hys. exists (token x ys). split.
  - unfold share_of. cbn [fst snd]. destruct ys as [|y0 r]; [congruence|].
    cbn [map]. unfold share_to_str.
    change ((x, y0) :: map (fun v => (x, v)) r) with (map (fun v => (x, v)) (y0 :: r)).
    rewrite join_y_bytes_spec.
    + cbn [bind]. rewrite map_map. cbn [snd]. rewrite map_id. reflexivity.
    + apply Forall_map. cbn [snd]. eapply Forall_impl; [|exact Hys]. cbv beta. intros; lia.
  - apply str_to_share_token; assumption.
Qed.

Lemma shares_of_share_of (polys : list (list Z)) (xs : list Z) :
  shares_of polys xs
  = map (fun x => share_of (x, map (fun f => horner f x mod 257) polys)) xs.
Proof.
  unfold shares_of, share_of. apply map_ext. intros x. cbn [fst snd].
  rewrite map_map. reflexivity.
Qed.

(** [validate_shares] on shares that each carry one index. *)
Lemma validate_share_of (xys : list (Z * list Z)) :
  (2 <= length xys)%nat ->
  (exists m, m <> 0%nat /\ Forall (fun xy => length (snd xy) = m) xys) ->
  NoDup (map fst xys) ->
  validate_shares (map share_of xys) = Ok (true, lit "").
Proof.
  intros Hlen (m & Hm & Hsame) Hnd.
  rewrite Forall_forall in Hsame.
  assert (Hne : Forall (fun s => s <> []) (map share_of xys)).
  { apply Forall_forall. intros s Hs. apply in_map_iff in Hs.
    destruct Hs as ([x ys] & <- & Hin). specialize (Hsame _ Hin). cbn [snd] in Hsame.
    unfold share_of. cbn [fst snd]. destruct ys; [simpl in Hsame; lia|discriminate]. }
  assert (Hxs : map share_x (map share_of xys) = map fst xys).
  { rewrite map_map. apply map_ext_in. intros [x ys] Hin.
    specialize (Hsame _ Hin). cbn [snd] in Hsame. cbn [fst].
    apply share_x_share_of. destruct ys; [simpl in Hsame; lia|discriminate]. }
  unfold validate_shares. rewrite length_map.
  replace (length xys <? 2)%nat with false by (symmetry; apply Nat.ltb_ge; assumption).
  assert (E1 : set_len (map (fun s : share => Z.of_nat (length s)) (map share_of xys)) = 1%nat).
  { apply lengths_agree_iff.
    - destruct xys; [simpl in Hlen; lia|discriminate].
    - intros (s1 & s2 & H1 & H2 & Hd). apply Hd.
      apply in_map_iff in H1, H2.
      destruct H1 as (xy1 & <- & H1), H2 as (xy2 & <- & H2).
      unfold share_of. rewrite !length_map.
      rewrite (Hsame _ H1), (Hsame _ H2). reflexivity. }
  rewrite E1. cbn [Nat.eqb negb].
  rewrite first_indices_nonempty by assumption. cbn [bind].
  rewrite Hxs, set_len_NoDup, Nat.eqb_refl by assumption. reflexivity.
Qed.

Lemma validate_selected (polys : list (list Z)) (n : Z) (sel : list nat) :
  polys <> [] ->
  NoDup sel ->
  (2 <= length sel)%nat ->
  (forall i, In i sel -> (i < Z.to_nat n)%nat) ->
  validate_shares (map (fun i => nth i (shares_of polys (range1 n)) []) sel)
  = Ok (true, lit "").
Proof.
  intros Hp Hnd Hlen Hsel.
  rewrite select_shares_of by assumption. rewrite shares_of_share_of.
  rewrite <- (map_map (fun x => (x, map (fun f => horner f x mod 257) polys)) share_of).
  apply validate_share_of.
  - rewrite !length_map. assumption.
  - exists (length polys). split; [destruct polys; [congruence|discriminate]|].
    apply Forall_forall. intros xy Hxy. apply in_map_iff in Hxy.
    destruct Hxy as (x & <- & _). cbn [snd]. apply length_map.
  - rewrite map_map. cbn [fst]. rewrite map_id.
    apply Injective_map_NoDup; [|assumption]. intros i j Hij. lia.
Qed.

(** X13. The validator accepts any two or more distinct shares of a split of a
    non-empty secret, whatever the threshold [k]: it cannot tell that fewer
    than [k] shares were given. *)
Theorem validate_accepts_split (s : str) (n k : Z) (g : rng) (sel : list nat) :
  isascii s = true ->
  s <> [] ->
  NoDup sel ->
  (2 <= length sel)%nat ->
  (forall i, In i sel -> (i < Z.to_nat n)%nat) ->
  exists shares g',
    encode_secret s n k g = Ok (shares, g')
    /\ validate_shares (map (fun i => nth i shares []) sel) = Ok (true, lit "").
Proof.
  intros Ha Hne Hnd Hlen Hsel.
  destruct (encode_secret_spec s n k g Ha) as (polys & g' & He & HF).
  exists (shares_of polys (range1 n)), g'. split; [exact He|].
  apply validate_selected; try assumption.
  intros ->. inversion HF. congruence.
Qed.

Lemma validate_accepts_split_witness :
  exists shares g',
    encode_secret (lit "Hi") 5 4 (mkRng (fun i => Z.of_nat i * 31 + 7) 0) = Ok (shares, g')
    /\ validate_shares (map (fun i => nth i shares []) [3; 1]%nat) = Ok (true, lit "").
Proof.
  apply (validate_accepts_split (lit "Hi") 5 4 (mkRng (fun i => Z.of_nat i * 31 + 7) 0) [3; 1]%nat).
  - reflexivity.
  - discriminate.
  - repeat constructor; simpl; intuition discriminate.
  - simpl. lia.
  - intros i Hi. simpl in Hi. change (Z.to_nat 5) with 5%nat. lia.
Defined.

(** X14. The whole path that the command line takes.  The shares of a non-empty
    ASCII secret are split with [n <= 256]; any two or more of them, and at
    least [k], are each written as text and read back unchanged, pass the
    validator, and decode to the secret. *)
Theorem split_text_recover (todecimal : Z -> option Z)
    (s : str) (n k : Z) (g : rng) (sel : list nat) :
  wf_str s ->
  isascii s = true ->
  s <> [] ->
  n <= 256 ->
  NoDup sel ->
  (2 <= length sel)%nat ->
  k <= Z.of_nat (length sel) ->
  (forall i, In i sel -> (i < Z.to_nat n)%nat) ->
  exists shares g',
    encode_secret s n k g = Ok (shares, g')
    /\ (forall i, In i sel ->
          exists tok, share_to_str (nth i shares []) = Ok tok
                      /\ str_to_share todecimal tok = Some (nth i shares []))
    /\ validate_shares (map (fun i => nth i shares []) sel) = Ok (true, lit "")
    /\ decode_secret (map (fun i => nth i shares []) sel) = Ok s.
Proof.
  intros Hwf Ha Hne Hn Hnd Hlen Hk Hsel.
  destruct (encode_secret_spec s n k g Ha) as (polys & g' & He & HF).
  assert (Hp : polys <> []) by (intros ->; inversion HF; congruence).
  exists (shares_of polys (range1 n)), g'. split; [exact He|]. split; [|split].
  - intros i Hi. specialize (Hsel i Hi).
    assert (E : nth i (shares_of polys (range1 n)) []
                = share_of (Z.of_nat i + 1,
                            map (fun f => horner f (Z.of_nat i + 1) mod 257) polys)).
    { rewrite shares_of_share_of.
      rewrite (nth_map_lt _ _ i 0) by (unfold range1; rewrite length_map, length_seq; assumption).
      unfold range1. rewrite (nth_map_lt _ _ i 0%nat) by (rewrite length_seq; assumption).
      rewrite seq_nth by assumption. reflexivity. }
    rewrite E. apply share_of_roundtrip.
    + lia.
    + destruct polys; [congruence|discriminate].
    + apply Forall_forall. intros y Hy. apply in_map_iff in Hy.
      destruct Hy as (f & <- & _). apply Z.mod_pos_bound. lia.
  - apply validate_selected; assumption.
  - apply (decode_selected s n k); try assumption.
    destruct sel; [simpl in Hlen; lia|discriminate].
Qed.

Lemma split_text_recover_witness :
  exists shares g',
    encode_secret (lit "Hi") 5 3 (mkRng (fun i => Z.of_nat i * 31 + 7) 0) = Ok (shares, g')
    /\ (forall i, In i [4; 0; 2]%nat ->
          exists tok, share_to_str (nth i shares []) = Ok tok
                      /\ str_to_share (fun _ => None) tok = Some (nth i shares []))
    /\ validate_shares (map (fun i => nth i shares []) [4; 0; 2]%nat) = Ok (true, lit "")
    /\ decode_secret (map (fun i => nth i shares []) [4; 0; 2]%nat) = Ok (lit "Hi").
Proof.
  apply (split_text_recover (fun _ => None) (lit "Hi") 5 3
           (mkRng (fun i => Z.of_nat i * 31 + 7) 0) [4; 0; 2]%nat).
  - repeat constructor; vm_compute; discriminate.
  - reflexivity.
  - discriminate.
  - lia.
  - repeat constructor; simpl; intuition discriminate.
  - simpl. lia.
  - simpl. lia.
  - intros i Hi. simpl in Hi. change (Z.to_nat 5) with 5%nat. lia.
Defined.

(** ** Indices that the validator takes for distinct *)

Lemma zip_star_head {A : Type} (d : A) (rows : list (list A)) :
  rows <> [] ->
  Forall (fun r => r <> []) rows ->
  zip_star rows = map (hd d) rows :: zip_star (map (@tl A) rows).
Proof.
  induction rows as [|l rest IH]; [congruence|]. intros _ Hall.
  inversion Hall as [|? ? Hl Hrest]; subst.
  destruct l as [|a l']; [congruence|].
  destruct rest as [|l2 rest'].
  - reflexivity.
  - change (zip_star ((a :: l') :: l2 :: rest'))
      with (zip_cons (a :: l') (zip_star (l2 :: rest'))).
    rewrite IH by (congruence || assumption). reflexivity.
Qed.

(** X15. The validator compares indices as integers, the recovery works modulo
    257.  Shares of one common non-zero length whose indices are pairwise
    distinct, two of them congruent modulo 257 (such as 1 and 258), pass
    [validate_shares], and [decode_secret] then fails with the [ValueError]
    of the modular inverse. *)
Theorem validated_shares_congruent_indices (xys : list (Z * list Z)) :
  (2 <= length xys)%nat ->
  (exists m, m <> 0%nat /\ Forall (fun xy => length (snd xy) = m) xys) ->
  NoDup (map fst xys) ->
  congruent_pair 257 (map fst xys) ->
  validate_shares (map share_of xys) = Ok (true, lit "")
  /\ decode_secret (map share_of xys) = Raise not_invertible.
Proof.
  intros Hlen Hsame Hnd Hc. split; [apply validate_share_of; assumption|].
  destruct Hsame as (m & Hm & Hsame). rewrite Forall_forall in Hsame.
  unfold decode_secret.
  rewrite (zip_star_head (0, 0)).
  - cbn [recover_bytes].
    rewrite (recover_secret_congruent_x (map (hd (0, 0)) (map share_of xys))).
    + reflexivity.
    + replace (map fst (map (hd (0, 0)) (map share_of xys))) with (map fst xys); [exact Hnd|].
      rewrite !map_map. apply map_ext_in. intros [x ys] Hin.
      specialize (Hsame _ Hin). cbn [snd] in Hsame.
      destruct ys; [simpl in Hsame; lia|reflexivity].
    + replace (map fst (map (hd (0, 0)) (map share_of xys))) with (map fst xys); [exact Hc|].
      rewrite !map_map. apply map_ext_in. intros [x ys] Hin.
      specialize (Hsame _ Hin). cbn [snd] in Hsame.
      destruct ys; [simpl in Hsame; lia|reflexivity].
  - destruct xys; [simpl in Hlen; lia|discriminate].
  - apply Forall_forall. intros sh Hs. apply in_map_iff in Hs.
    destruct Hs as ([x ys] & <- & Hin). specialize (Hsame _ Hin). cbn [snd] in Hsame.
    unfold share_of. cbn [fst snd]. destruct ys; [simpl in Hsame; lia|discriminate].
Qed.

Lemma validated_shares_congruent_indices_witness :
  validate_shares (map share_of [(1, [72; 105]); (258, [7; 9])]) = Ok (true, lit "")
  /\ decode_secret (map share_of [(1, [72; 105]); (258, [7; 9])]) = Raise not_invertible.
Proof.
  apply (validated_shares_congruent_indices [(1, [72; 105]); (258, [7; 9])]).
  - simpl. lia.
  - exists 2%nat. split; [lia|]. repeat constructor.
  - repeat constructor; simpl; intuition discriminate.
  - exists 0%nat, 1%nat, 1, 258. repeat split. discriminate.
Defined.

(** ** Fewer shares than the threshold fit every secret *)

Lemma horner_padd (f g : list Z) (x : Z) :
  horner (padd f g) x = horner f x + horner g x.
Proof.
  revert g. induction f as [|a f' IH]; intros g; [simpl; ring|].
  destruct g as [|b g']; cbn [padd horner]; [ring|]. rewrite IH. ring.
Qed.

Lemma horner_pscale (c : Z) (f : list Z) (x : Z) :
  horner (pscale c f) x = c * horner f x.
Proof.
  unfold pscale. induction f as [|a f' IH]; cbn [map horner]; [ring|]. rewrite IH. ring.
Qed.

Lemma length_padd (f g : list Z) : length (padd f g) = Nat.max (length f) (length g).
Proof.
  revert g. induction f as [|a f' IH]; intros g; [reflexivity|].
  destruct g as [|b g']; cbn [padd length]; [reflexivity|]. rewrite IH. reflexivity.
Qed.

Lemma horner_mod_coeffs (p : Z) (f : list Z) (x : Z) :
  cong p (horner (map (fun c => c mod p) f) x) (horner f x).
Proof.
  induction f as [|a f' IH]; cbn [map horner]; [reflexivity|].
  rewrite IH, cong_mod. reflexivity.
Qed.

Lemma map_nth_seq (l : list Z) (d : Z) :
  map (fun i => nth i l d) (seq 0 (length l)) = l.
Proof.
  induction l as [|a r IH]; cbn [length seq map nth]; [reflexivity|].
  rewrite <- seq_shift, map_map. cbn [nth]. rewrite IH. reflexivity.
Qed.

(** A tape made of field elements is drawn as it is. *)
Lemma rand_coeffs_tape_of (cs : list Z) :
  Forall (fun c => 0 <= c < 257) cs ->
  exists g', rand_coeffs (length cs) (tape_of cs) = Ok (cs, g').
Proof.
  intros H. rewrite rand_coeffs_exact. eexists. f_equal. f_equal.
  unfold tape_of. cbn [tape pos Nat.add].
  rewrite <- (map_nth_seq cs 0) at 2. apply map_ext_in. intros i Hi.
  apply in_seq in Hi. apply Z.mod_small.
  rewrite Forall_forall in H. apply H. apply nth_In. lia.
Qed.

Lemma split_secret_coeffs (byte n k : Z) (cs : list Z) :
  Forall (fun c => 0 <= c < 257) cs ->
  length cs = Z.to_nat (k - 1) ->
  exists g', split_secret byte n k (tape_of cs)
             = Ok (map (fun x => share_point x (byte :: cs)) (range1 n), g').
Proof.
  intros Hcs Hlen. unfold split_secret. rewrite <- Hlen.
  destruct (rand_coeffs_tape_of cs Hcs) as (g' & Hg). rewrite Hg. cbn [bind].
  rewrite eval_points_spec. cbn [bind app]. exists g'. reflexivity.
Qed.

(** A polynomial with the constant term [byte'] that agrees modulo 257 with
    [f] on the abscissas [xs], when [f] has more coefficients than there are
    abscissas. *)
Lemma refit_polynomial (f xs : list Z) (byte' : Z) :
  (length xs < length f)%nat ->
  (forall x, In x xs -> x mod 257 <> 0) ->
  exists cs, length cs = pred (length f)
             /\ Forall (fun c => 0 <= c < 257) cs
             /\ forall x, In x xs ->
                  horner (byte' :: cs) x mod 257 = horner f x mod 257.
Proof.
  intros Hlen Hnz.
  destruct (roots_invertible 257 prime_257 0 xs) as [W HW].
  { intros x Hx. rewrite Z.sub_0_r. apply Hnz. assumption. }
  set (w := poly_roots xs) in *.
  set (c := (byte' - horner f 0) * W).
  set (h := padd f (pscale c w)).
  assert (Hh : forall x, horner h x = horner f x + c * horner w x).
  { intros x. unfold h. rewrite horner_padd, horner_pscale. reflexivity. }
  assert (Hlh : length h = length f).
  { unfold h, pscale, w. rewrite length_padd, length_map, length_poly_roots. lia. }
  destruct h as [|h0 ht] eqn:Eh; [simpl in Hlh; lia|].
  exists (map (fun a => a mod 257) ht). split; [|split].
  - rewrite length_map. simpl in Hlh. lia.
  - apply Forall_forall. intros a Ha. apply in_map_iff in Ha.
    destruct Ha as (b & <- & _). apply Z.mod_pos_bound. lia.
  - intros x Hx. change (cong 257 (horner (byte' :: map (fun a => a mod 257) ht) x) (horner f x)).
    cbn [horner]. rewrite horner_mod_coeffs.
    assert (H0 : cong 257 byte' h0).
    { pose proof (Hh 0) as E0. cbn [horner] in E0.
      replace (h0 + 0 * horner ht 0) with h0 in E0 by ring. rewrite E0.
      unfold c. replace ((byte' - horner f 0) * W * horner w 0)
        with ((byte' - horner f 0) * (W * horner w 0)) by ring.
      rewrite HW. apply cong_eq. ring. }
    rewrite H0. pose proof (Hh x) as Ex. cbn [horner] in Ex. rewrite Ex.
    unfold w. rewrite horner_poly_roots_root by assumption. apply cong_eq. ring.
Qed.

(** X16. Threshold secrecy, read off the arithmetic: fewer than [k] of the points
    of a split say nothing about the byte.  Whatever byte [byte'] one
    supposes instead, some draw of the random coefficients splits [byte'] into
    exactly the same points at those positions. *)
Theorem split_secret_hides_byte (byte byte' n k : Z) (g : rng) (sel : list nat) :
  n <= 256 ->
  NoDup sel ->
  Z.of_nat (length sel) < k ->
  (forall i, In i sel -> (i < Z.to_nat n)%nat) ->
  exists g' pts pts' g1 g1',
    split_secret byte n k g = Ok (pts, g1)
    /\ split_secret byte' n k g' = Ok (pts', g1')
    /\ map (fun i => nth i pts (0, 0)) sel = map (fun i => nth i pts' (0, 0)) sel.
Proof.
  intros Hn Hnd Hlen Hsel.
  destruct (split_secret_spec byte n k g) as (f & g1 & Hs & Hhd & Hlf).
  set (xs := map (fun i => Z.of_nat i + 1) sel).
  destruct (refit_polynomial f xs byte') as (cs & Hlc & Hcs & Hagree).
  { unfold xs. rewrite length_map, Hlf. lia. }
  { unfold xs. intros x Hx. apply in_map_iff in Hx. destruct Hx as (i & <- & Hi).
    specialize (Hsel i Hi). rewrite Z.mod_small by lia. lia. }
  destruct (split_secret_coeffs byte' n k cs Hcs) as (g1' & Hs'); [lia|].
  exists (tape_of cs), (map (fun x => share_point x f) (range1 n)),
    (map (fun x => share_point x (byte' :: cs)) (range1 n)), g1, g1'.
  split; [exact Hs|]. split; [exact Hs'|].
  apply map_ext_in. intros i Hi. specialize (Hsel i Hi).
  assert (Hr : (i < length (range1 n))%nat)
    by (unfold range1; rewrite length_map, length_seq; assumption).
  rewrite !(nth_map_lt _ _ i 0) by assumption.
  unfold share_point. f_equal. symmetry. apply Hagree.
  unfold xs. apply in_map_iff. exists i. split; [|assumption].
  unfold range1. rewrite (nth_map_lt _ _ i 0%nat) by (rewrite length_seq; assumption).
  rewrite seq_nth by assumption. reflexivity.
Qed.

Lemma split_secret_hides_byte_witness :
  exists g' pts pts' g1 g1',
    split_secret 72 5 3 (mkRng (fun i => Z.of_nat i * 31 + 7) 0) = Ok (pts, g1)
    /\ split_secret 200 5 3 g' = Ok (pts', g1')
    /\ map (fun i => nth i pts (0, 0)) [4; 1]%nat = map (fun i => nth i pts' (0, 0)) [4; 1]%nat.
Proof.
  apply (split_secret_hides_byte 72 200 5 3 (mkRng (fun i => Z.of_nat i * 31 + 7) 0) [4; 1]%nat).
  - lia.
  - repeat constructor; simpl; intuition discriminate.
  - simpl. lia.
  - intros i Hi. simpl in Hi. change (Z.to_nat 5) with 5%nat. lia.
Defined.

(** ** Shares of unequal length *)

Lemma zip_cons_firstn {A : Type} (m : nat) :
  forall (l : list A) (cols : list (list A)),
    zip_cons (firstn m l) (firstn m cols) = firstn m (zip_cons l cols).
Proof.
  induction m as [|m IH]; intros l cols.
  - reflexivity.
  - destruct l as [|a l]; [reflexivity|].
    destruct cols as [|c cols]; [reflexivity|].
    cbn [firstn zip_cons]. rewrite IH. reflexivity.
Qed.

Lemma zip_star_firstn {A : Type} (m : nat) (rows : list (list A)) :
  zip_star (map (firstn m) rows) = firstn m (zip_star rows).
Proof.
  induction rows as [|l r IH].
  - destruct m; reflexivity.
  - cbn [map zip_star]. destruct r as [|l2 r2].
    + cbn [map]. rewrite firstn_map. reflexivity.
    + change (map (firstn m) (l2 :: r2))
        with (firstn m l2 :: map (firstn m) r2) in IH |- *.
      cbv iota.
      change (firstn m l2 :: map (firstn m) r2)
        with (map (firstn m) (l2 :: r2)) in IH |- *.
      rewrite IH. apply zip_cons_firstn.
Qed.

Lemma length_zip_cons {A : Type} (l : list A) :
  forall cols, length (zip_cons l cols) = Nat.min (length l) (length cols).
Proof.
  induction l as [|a l IH]; intros cols; [reflexivity|].
  destruct cols as [|c cols]; [reflexivity|].
  cbn [zip_cons length]. rewrite IH. reflexivity.
Qed.

Lemma length_zip_star_le {A : Type} (rows : list (list A)) (l : list A) :
  In l rows -> (length (zip_star rows) <= length l)%nat.
Proof.
  induction rows as [|l0 r IH]; intros Hin; [contradiction|].
  cbn [zip_star]. destruct r as [|l2 r2].
  - destruct Hin as [<-|[]]. rewrite length_map. lia.
  - rewrite length_zip_cons. destruct Hin as [<-|Hin]; [lia|].
    specialize (IH Hin). lia.
Qed.

(** X17. [decode_secret] does not compare the lengths of the shares: it decodes
    as many characters as the shortest share has points and ignores the
    points beyond them.  Cutting every share to [m] points changes nothing
    when some share has no more than [m]. *)
Theorem decode_secret_shortest_share (shares : list share) (m : nat) :
  (exists sh, In sh shares /\ (length sh <= m)%nat) ->
  decode_secret (map (firstn m) shares) = decode_secret shares.
Proof.
  intros (sh & Hin & Hlen). unfold decode_secret.
  rewrite zip_star_firstn.
  rewrite firstn_all2; [reflexivity|].
  pose proof (length_zip_star_le shares sh Hin). lia.
Qed.

Lemma decode_secret_shortest_share_witness :
  decode_secret (map (firstn 1) [[(1, 72); (1, 105)]; [(2, 72)]])
  = decode_secret [[(1, 72); (1, 105)]; [(2, 72)]].
Proof.
  apply (decode_secret_shortest_share [[(1, 72); (1, 105)]; [(2, 72)]] 1).
  exists [(2, 72)]. split; [right; left; reflexivity|simpl; lia].
Defined.

(* ================================================================== *)
(** * Part VI. Properties of blob-cli.py *)
(* ================================================================== *)

(** ** [handle_recover] *)

Lemma read_shares_nonempty (todecimal : Z -> option Z) (lines : list str) :
  forall acc shares rest,
    read_shares todecimal lines acc = Collected shares rest ->
    Forall (fun s => s <> []) acc ->
    Forall (fun s => s <> []) shares.
Proof.
  induction lines as [|l r IH]; intros acc shares rest H Hacc; cbn [read_shares] in H.
  - discriminate H.
  - destruct (strip l) as [|c line'].
    + injection H as <- _. exact Hacc.
    + destruct (str_to_share todecimal (c :: line')) as [[|pt sh]|]; try discriminate H.
      apply (IH _ _ _ H). apply Forall_app. split; [exact Hacc|].
      constructor; [discriminate|constructor].
Qed.

Lemma validate_shares_total (shares : list share) :
  Forall (fun s => s <> []) shares ->
  exists valid msg, validate_shares shares = Ok (valid, msg).
Proof.
  intros H. unfold validate_shares.
  destruct (length shares <? 2)%nat; [eexists _, _; reflexivity|].
  destruct (negb _); [eexists _, _; reflexivity|].
  rewrite first_indices_nonempty by assumption. cbn [bind].
  destruct (negb _); eexists _, _; reflexivity.
Qed.

(** X18. No exception leaves [handle_recover]: it returns, or ends the process
    with status 0 at the end of input.  In particular the [IndexError] of
    [validate_shares] on empty shares cannot happen there, since the loop
    keeps no empty share. *)
Theorem handle_recover_no_exception (todecimal : Z -> option Z) (w : world) :
  (exists w', handle_recover todecimal w = Returned tt w')
  \/ (exists w', handle_recover todecimal w = Exited 0 w').
Proof.
  unfold handle_recover. cbv zeta.
  destruct (read_shares todecimal _ []) as [shares rest| rest |] eqn:E.
  - pose proof (read_shares_nonempty todecimal _ _ _ _ E (Forall_nil _)) as Hne.
    destruct (validate_shares_total shares Hne) as (valid & msg & Hv). rewrite Hv.
    destruct valid; cbn [negb].
    + destruct (decode_secret shares) as [secret|e].
      * destruct (negb (isascii secret)).
        -- unfold recover_failed. left. eexists. reflexivity.
        -- left. eexists. reflexivity.
      * unfold recover_failed. left. eexists. reflexivity.
    + left. eexists. reflexivity.
  - left. eexists. reflexivity.
  - right. unfold secure_exit. eexists. reflexivity.
Qed.

Lemma utf8_decode_nonempty (b0 : Z) (r0 : bytes) (s : str) :
  utf8_decode (b0 :: r0) = Ok s -> s <> [].
Proof.
  cbn [utf8_decode].
  destruct (b0 <? 0x80).
  { destruct (utf8_decode r0); cbn [bind]; [|discriminate]. intros H. injection H as <-. discriminate. }
  destruct ((0xC2 <=? b0) && (b0 <=? 0xDF)).
  { destruct r0 as [|b1 r1]; [discriminate|]. destruct (is_cont b1); [|discriminate].
    destruct (utf8_decode r1); cbn [bind]; [|discriminate]. intros H. injection H as <-. discriminate. }
  destruct ((0xE0 <=? b0) && (b0 <=? 0xEF)).
  { destruct r0 as [|b1 [|b2 r2]]; try discriminate.
    destruct (second3 b0 b1 && is_cont b2); [|discriminate].
    destruct (utf8_decode r2); cbn [bind]; [|discriminate]. intros H. injection H as <-. discriminate. }
  destruct ((0xF0 <=? b0) && (b0 <=? 0xF4)); [|discriminate].
  destruct r0 as [|b1 [|b2 [|b3 r3]]]; try discriminate.
  destruct (second4 b0 b1 && is_cont b2 && is_cont b3); [|discriminate].
  destruct (utf8_decode r3); cbn [bind]; [|discriminate]. intros H. injection H as <-. discriminate.
Qed.

(** Non-empty shares, at least one, decode to a non-empty string. *)
Lemma decode_secret_nonempty (shares : list share) (s : str) :
  shares <> [] ->
  Forall (fun sh => sh <> []) shares ->
  decode_secret shares = Ok s ->
  s <> [].
Proof.
  intros Hne Hall. unfold decode_secret.
  rewrite (zip_star_head (0, 0)) by assumption. cbn [recover_bytes].
  destruct (recover_secret _) as [v|]; cbn [bind]; [|discriminate].
  destruct ((0 <=? v) && (v <? 256)); [|discriminate].
  destruct (recover_bytes _) as [vs|]; cbn [bind]; [|discriminate].
  apply utf8_decode_nonempty.
Qed.

Lemma wipe_set_nonempty (secret : str) (w : world) :
  secret <> [] -> last_secret (wipe_secret (set_last_secret (Some secret) w)) = None.
Proof. intros H. destruct secret; [congruence|reflexivity]. Qed.

Lemma validate_true_nonempty (shares : list share) (msg : str) :
  validate_shares shares = Ok (true, msg) -> shares <> [].
Proof.
  unfold validate_shares. destruct shares as [|s r]; [|discriminate].
  cbn. discriminate.
Qed.

Lemma handle_recover_keeps_none (todecimal : Z -> option Z) (w : world) :
  last_secret w = None ->
  last_secret (world_of (handle_recover todecimal w)) = None.
Proof.
  intros Hw. unfold handle_recover. cbv zeta.
  destruct (read_shares todecimal _ []) as [shares rest| rest |] eqn:E.
  - pose proof (read_shares_nonempty todecimal _ _ _ _ E (Forall_nil _)) as Hne.
    destruct (validate_shares shares) as [[valid msg]|e] eqn:Hv; [|exact Hw].
    destruct valid; cbn [negb]; [|exact Hw].
    pose proof (validate_true_nonempty shares msg Hv) as Hnn.
    destruct (decode_secret shares) as [secret|e] eqn:Hd.
    + pose proof (decode_secret_nonempty shares secret Hnn Hne Hd) as Hs.
      destruct (negb (isascii secret)).
      * unfold recover_failed. cbn [world_of]. apply wipe_set_nonempty. exact Hs.
      * cbn [world_of]. apply wipe_set_nonempty. exact Hs.
    + unfold recover_failed. cbn [world_of]. exact Hw.
  - exact Hw.
  - unfold secure_exit. cbn [world_of print last_secret].
    unfold wipe_secret. cbn [print last_secret]. rewrite Hw. reflexivity.
Qed.

Lemma read_shares_good (todecimal : Z -> option Z) (good : list str) :
  forall acc tail,
    Forall (fun l => strip l <> []
                     /\ exists pt sh, str_to_share todecimal (strip l) = Some (pt :: sh)) good ->
    exists shares,
      read_shares todecimal (good ++ tail) acc = read_shares todecimal tail (acc ++ shares)
      /\ length shares = length good.
Proof.
  induction good as [|l r IH]; intros acc tail H.
  - exists []. rewrite app_nil_r. split; reflexivity.
  - inversion H as [|? ? (Hl & pt & sh & Hs) Hr]; subst.
    cbn [app read_shares]. destruct (strip l) as [|c line'] eqn:El; [congruence|].
    rewrite Hs. destruct (IH (acc ++ [pt :: sh]) tail Hr) as (shares & Hsh & Hlen).
    exists ((pt :: sh) :: shares). rewrite Hsh, <- app_assoc. split; [reflexivity|].
    simpl. lia.
Qed.

(** X19. A line that is no share ends the recovery at once.  After any number of
    lines that are shares, a line that is not empty and that [str_to_share]
    does not turn into a non-empty share (an unreadable token, or one with an
    empty payload, which deserializes to the empty list) makes
    [handle_recover] print the format error and return; the shares typed
    before are dropped, and the lines after it are left unread. *)
Theorem handle_recover_bad_line (todecimal : Z -> option Z)
    (w : world) (good : list str) (bad : str) (rest : list str) :
  stdin w = good ++ bad :: rest ->
  Forall (fun l => strip l <> []
                   /\ exists pt sh, str_to_share todecimal (strip l) = Some (pt :: sh)) good ->
  strip bad <> [] ->
  truthy (str_to_share todecimal (strip bad)) = false ->
  handle_recover todecimal w
  = Returned tt (mkWorld rest
                   (stdout w ++ recover_banner
                    ++ [Print (lit "[!] Invalid share format."); Print SEP])
                   (last_secret w) (gen w)).
Proof.
  intros Hin Hgood Hb Hf. unfold handle_recover. cbv zeta.
  cbn [print stdin stdout last_secret gen]. rewrite Hin.
  destruct (read_shares_good todecimal good [] (bad :: rest) Hgood) as (shares & Hr & _).
  rewrite Hr. cbn [read_shares].
  destruct (strip bad) as [|c line'] eqn:Eb; [congruence|].
  unfold recover_banner.
  destruct (str_to_share todecimal (c :: line')) as [[|pt sh]|]; [|discriminate Hf|];
    unfold print; cbn [stdin stdout last_secret gen]; rewrite <- !app_assoc; reflexivity.
Qed.

Lemma handle_recover_bad_line_witness :
  handle_recover (fun _ => None)
    (mkWorld [lit "1:AEg="; lit "7:"; lit "2:AEg="] [] None (mkRng (fun _ => 0) 0))
  = Returned tt (mkWorld [lit "2:AEg="]
                   ([] ++ recover_banner
                    ++ [Print (lit "[!] Invalid share format."); Print SEP])
                   None (mkRng (fun _ => 0) 0)).
Proof.
  apply (handle_recover_bad_line (fun _ => None)
           (mkWorld [lit "1:AEg="; lit "7:"; lit "2:AEg="] [] None (mkRng (fun _ => 0) 0))
           [lit "1:AEg="] (lit "7:") [lit "2:AEg="]).
  - reflexivity.
  - constructor; [|constructor]. split; [vm_compute; discriminate|].
    eexists _, _. vm_compute. reflexivity.
  - vm_compute. discriminate.
  - vm_compute. reflexivity.
Defined.

(** ** [handle_split] and its prompts *)

Lemma int_in_range_loop_sound (todecimal : Z -> option Z) (isdigit_other : Z -> bool)
    (prompt : str) (lo hi : Z) (lines : list str) :
  forall out n rest out',
    int_in_range_loop todecimal isdigit_other prompt lo hi lines out = (inr n, rest, out') ->
    lo <= n <= hi.
Proof.
  induction lines as [|l r IH]; intros out n rest out' H; cbn [int_in_range_loop] in H.
  - discriminate H.
  - destruct (isdigit isdigit_other (strip l)).
    + destruct (int_of_str todecimal (strip l)) as [v|e]; [|discriminate H].
      destruct ((lo <=? v) && (v <=? hi)) eqn:E.
      * injection H as <- _ _. lia.
      * apply (IH _ _ _ _ H).
    + apply (IH _ _ _ _ H).
Qed.

(** X20. [input_int_in_range] returns only an integer of the range asked for; it
    asks again after any other entry. *)
Theorem input_int_in_range_sound (todecimal : Z -> option Z) (isdigit_other : Z -> bool)
    (prompt : str) (lo hi : Z) (w : world) (n : Z) (w' : world) :
  input_int_in_range todecimal isdigit_other prompt lo hi w = Returned n w' ->
  lo <= n <= hi.
Proof.
  unfold input_int_in_range.
  destruct (int_in_range_loop todecimal isdigit_other prompt lo hi (stdin w) (stdout w))
    as [[[r|v] rest] out] eqn:E; [discriminate|].
  intros H. injection H as <- _. apply (int_in_range_loop_sound _ _ _ _ _ _ _ _ _ _ E).
Qed.

Lemma input_int_in_range_sound_witness : 2 <= 5 <= 256.
Proof.
  apply (input_int_in_range_sound (fun _ => None) (fun _ => false) (lit "n") 2 256
           (mkWorld [lit "abc"; lit "999"; lit " 5 "; lit "3"] [] None (mkRng (fun _ => 0) 0))
           5
           (mkWorld [lit "3"]
              [range_prompt (lit "n") 2 256; Print (lit "[!] Enter an integer.");
               range_prompt (lit "n") 2 256;
               Print (lit "[!] Value must be between 2 and 256.");
               range_prompt (lit "n") 2 256]
              None (mkRng (fun _ => 0) 0))).
  vm_compute. reflexivity.
Defined.

Lemma isdigit_digits (isdigit_other : Z -> bool) (ds : str) :
  ds <> [] -> Forall (fun d => is_digit d = true) ds -> isdigit isdigit_other ds = true.
Proof.
  intros Hne H. unfold isdigit. destruct ds as [|d r]; [congruence|].
  apply forallb_forall. intros c Hc. rewrite Forall_forall in H. specialize (H c Hc).
  replace (c <? 128) with true by (unfold is_digit in H; lia). exact H.
Qed.

Lemma input_int_in_range_canonical (todecimal : Z -> option Z) (isdigit_other : Z -> bool)
    (prompt : str) (lo hi v : Z) (rest : list str) (w : world) :
  stdin w = str_of_int v :: rest ->
  0 <= v ->
  lo <= v <= hi ->
  input_int_in_range todecimal isdigit_other prompt lo hi w
  = Returned v (mkWorld rest (stdout w ++ [range_prompt prompt lo hi])
                  (last_secret w) (gen w)).
Proof.
  intros Hin Hv Hr. unfold input_int_in_range. rewrite Hin. cbn [int_in_range_loop].
  destruct (str_of_int_digits v Hv) as (Hne & Hd & _).
  rewrite strip_nospace.
  2:{ eapply Forall_impl; [|exact Hd]. cbv beta. intros d H. unfold is_digit, isspace in *. lia. }
  rewrite isdigit_digits by assumption.
  rewrite int_of_str_of_int by assumption.
  replace ((lo <=? v) && (v <=? hi)) with true by lia. reflexivity.
Qed.

Lemma print_shares_tokens (shares : list share) (toks : list str) :
  Forall2 (fun sh tok => share_to_str sh = Ok tok) shares toks ->
  forall w, print_shares shares w
            = Returned tt (mkWorld (stdin w) (stdout w ++ map Print toks)
                             (last_secret w) (gen w)).
Proof.
  induction 1 as [|sh tok shares' toks' Hs HF IH]; intros w; cbn [print_shares map].
  - rewrite app_nil_r. destruct w. reflexivity.
  - rewrite Hs, IH. unfold print. cbn [stdin stdout last_secret gen].
    rewrite <- app_assoc. reflexivity.
Qed.

(** The tokens of the shares of the participants [xs]. *)
Lemma shares_of_tokens (polys : list (list Z)) (xs : list Z) :
  polys <> [] ->
  Forall2 (fun sh tok => share_to_str sh = Ok tok)
    (shares_of polys xs)
    (map (fun x => token x (map (fun f => horner f x mod 257) polys)) xs).
Proof.
  intros Hp. rewrite shares_of_share_of.
  induction xs as [|x r IH]; cbn [map]; constructor; [|exact IH].
  unfold share_of. cbn [fst snd]. destruct polys as [|f polys']; [congruence|].
  cbn [map]. unfold share_to_str.
  change ((x, horner f x mod 257) :: map (fun v => (x, v)) (map (fun f0 => horner f0 x mod 257) polys'))
    with (map (fun v => (x, v)) (map (fun f0 => horner f0 x mod 257) (f :: polys'))).
  rewrite join_y_bytes_spec.
  - cbn [bind]. rewrite (map_map (fun v => (x, v)) snd). cbn [snd]. rewrite map_id. reflexivity.
  - apply Forall_map. cbn [snd]. apply Forall_map. apply Forall_forall. intros g _.
    pose proof (Z.mod_pos_bound (horner g x) 257). lia.
Qed.

Lemma read_shares_exact (todecimal : Z -> option Z) (good : list str) (shs : list share) :
  Forall2 (fun l s => strip l <> [] /\ s <> []
                      /\ str_to_share todecimal (strip l) = Some s) good shs ->
  forall acc tail,
    read_shares todecimal (good ++ tail) acc = read_shares todecimal tail (acc ++ shs).
Proof.
  induction 1 as [|l s good' shs' (Hl & Hs & Hd) HF IH]; intros acc tail.
  - rewrite app_nil_r. reflexivity.
  - cbn [app read_shares]. destruct (strip l) as [|c line'] eqn:El; [congruence|].
    rewrite Hd. destruct s as [|pt sh]; [congruence|].
    rewrite IH, <- app_assoc. reflexivity.
Qed.

Lemma token_line (todecimal : Z -> option Z) (x : Z) (ys : list Z) :
  0 < x ->
  ys <> [] ->
  Forall (fun y => 0 <= y < 257) ys ->
  strip (token x ys) <> [] /\ share_of (x, ys) <> []
  /\ str_to_share todecimal (strip (token x ys)) = Some (share_of (x, ys)).
Proof.
  intros Hx Hne Hys.
  assert (Hs : strip (token x ys) = token x ys).
  { apply strip_nospace. apply token_chars; [lia|].
    eapply Forall_impl; [|exact Hys]. cbv beta. intros; lia. }
  rewrite Hs. split; [|split].
  - unfold token. destruct (str_of_int x); discriminate.
  - unfold share_of. cbn [fst snd]. destruct ys; [congruence|discriminate].
  - apply str_to_share_token; assumption.
Qed.

Lemma handle_recover_success (todecimal : Z -> option Z)
    (w : world) (good : list str) (shs : list share) (rest : list str)
    (msg secret : str) :
  stdin w = good ++ [] :: rest ->
  Forall2 (fun l s => strip l <> [] /\ s <> []
                      /\ str_to_share todecimal (strip l) = Some s) good shs ->
  validate_shares shs = Ok (true, msg) ->
  decode_secret shs = Ok secret ->
  isascii secret = true ->
  secret <> [] ->
  handle_recover todecimal w
  = Returned tt
      (mkWorld rest (stdout w ++ recover_banner ++ recover_report secret) None (gen w)).
Proof.
  intros Hin Hgood Hv Hd Ha Hne.
  unfold handle_recover. cbv zeta. cbn [print stdin stdout last_secret gen].
  rewrite Hin, (read_shares_exact _ _ _ Hgood). cbn [read_shares app].
  change (strip []) with (@nil Z). cbv beta iota. rewrite Hv. cbn [negb]. rewrite Hd, Ha. cbn [negb].
  destruct secret as [|c0 s0]; [congruence|].
  unfold recover_banner, recover_report, wipe_secret, set_last_secret, print.
  cbn [stdin stdout last_secret gen]. rewrite <- !app_assoc. reflexivity.
Qed.

(** X21. What is printed by a split can be typed back.  When [n], [k] (with
    [2 <= k <= n <= 256]) and a non-empty ASCII secret are entered,
    [handle_split] prints [n] tokens and keeps no secret; and whenever [k] or
    more of these tokens, in any order, are then typed into [handle_recover]
    and followed by an empty line, it prints the secret. *)
Theorem cli_split_then_recover (todecimal : Z -> option Z) (isdigit_other : Z -> bool)
    (w : world) (n k : Z) (secret : str) (rest : list str) :
  stdin w = str_of_int n :: str_of_int k :: secret :: rest ->
  2 <= n <= 256 ->
  2 <= k <= n ->
  wf_str secret ->
  isascii secret = true ->
  secret <> [] ->
  exists toks g',
    length toks = Z.to_nat n
    /\ handle_split todecimal isdigit_other w
       = Returned tt
           (mkWorld rest
              (stdout w ++ split_banner n
               ++ [Print (nl ++ lit "Shares (x:base64):"); Print SEP_MINUS]
               ++ map Print toks ++ [Print SEP_MINUS; Print SEP])
              None g')
    /\ forall (sel : list nat) (w2 : world) (rest2 : list str),
         NoDup sel ->
         k <= Z.of_nat (length sel) ->
         (forall i, In i sel -> (i < Z.to_nat n)%nat) ->
         stdin w2 = map (fun i => nth i toks []) sel ++ [] :: rest2 ->
         handle_recover todecimal w2
         = Returned tt
             (mkWorld rest2 (stdout w2 ++ recover_banner ++ recover_report secret)
                None (gen w2)).
Proof.
  intros Hin Hn Hk Hwf Ha Hne.
  destruct (encode_secret_spec secret n k (gen w) Ha) as (polys & g' & He & HF).
  assert (Hp : polys <> []) by (intros ->; inversion HF; congruence).
  set (ys := fun x => map (fun f => horner f x mod 257) polys).
  set (toks := map (fun x => token x (ys x)) (range1 n)).
  assert (Hys : forall x, ys x <> [] /\ Forall (fun y => 0 <= y < 257) (ys x)).
  { intros x. unfold ys. split; [destruct polys; [congruence|discriminate]|].
    apply Forall_map. apply Forall_forall. intros f _. apply Z.mod_pos_bound. lia. }
  exists toks, g'. split; [|split].
  - unfold toks, range1. rewrite !length_map, length_seq. reflexivity.
  - unfold handle_split. cbv zeta. unfold input_n, input_k.
    rewrite (input_int_in_range_canonical _ _ _ 2 (PRIME - 1) n (str_of_int k :: secret :: rest));
      [|cbn [print stdin]; exact Hin|lia|unfold PRIME; lia].
    rewrite (input_int_in_range_canonical _ _ _ 2 n k (secret :: rest));
      [|reflexivity|lia|lia].
    unfold input_nonempty. cbn [stdin stdout last_secret gen print nonempty_loop].
    destruct secret as [|c0 s0]; [congruence|].
    cbn [stdin stdout last_secret gen]. rewrite He.
    rewrite (print_shares_tokens _ toks) by (apply shares_of_tokens; assumption).
    unfold split_banner, range_prompt, wipe_secret, set_last_secret, print.
    cbn [stdin stdout last_secret gen]. rewrite <- !app_assoc. reflexivity.
  - intros sel w2 rest2 Hnd Hlen Hsel Hin2.
    assert (Hgood : Forall2 (fun l s => strip l <> [] /\ s <> []
                               /\ str_to_share todecimal (strip l) = Some s)
                      (map (fun i => nth i toks []) sel)
                      (map (fun i => nth i (shares_of polys (range1 n)) []) sel)).
    { clear Hin2 Hnd Hlen. induction sel as [|i r IH]; cbn [map]; constructor.
      - assert (Hi : (i < Z.to_nat n)%nat) by (apply Hsel; left; reflexivity).
        assert (Hr : (i < length (range1 n))%nat)
          by (unfold range1; rewrite length_map, length_seq; assumption).
        unfold toks. rewrite (nth_map_lt _ _ i 0) by assumption.
        rewrite shares_of_share_of. rewrite (nth_map_lt _ _ i 0) by assumption.
        fold (ys (nth i (range1 n) 0)). apply token_line; try apply Hys.
        unfold range1. rewrite (nth_map_lt _ _ i 0%nat) by (rewrite length_seq; assumption).
        lia.
      - apply IH. intros j Hj. apply Hsel. right. assumption. }
    apply (handle_recover_success todecimal w2 _ _ rest2 (lit "") secret Hin2 Hgood).
    + apply validate_selected; try assumption. lia.
    + apply (decode_selected secret n k); try assumption; try lia.
      destruct sel; [simpl in Hlen; lia|discriminate].
    + assumption.
    + assumption.
Qed.

Lemma cli_split_then_recover_witness :
  exists toks g',
    length toks = Z.to_nat 3
    /\ handle_split (fun _ => None) (fun _ => false)
         (mkWorld [str_of_int 3; str_of_int 2; lit "Hi"; lit "recover"] [] None
                  (mkRng (fun i => Z.of_nat i * 31 + 7) 0))
       = Returned tt
           (mkWorld [lit "recover"]
              ([] ++ split_banner 3
               ++ [Print (nl ++ lit "Shares (x:base64):"); Print SEP_MINUS]
               ++ map Print toks ++ [Print SEP_MINUS; Print SEP])
              None g')
    /\ forall (sel : list nat) (w2 : world) (rest2 : list str),
         NoDup sel ->
         2 <= Z.of_nat (length sel) ->
         (forall i, In i sel -> (i < Z.to_nat 3)%nat) ->
         stdin w2 = map (fun i => nth i toks []) sel ++ [] :: rest2 ->
         handle_recover (fun _ => None) w2
         = Returned tt
             (mkWorld rest2 (stdout w2 ++ recover_banner ++ recover_report (lit "Hi"))
                None (gen w2)).
Proof.
  apply (cli_split_then_recover (fun _ => None) (fun _ => false)
           (mkWorld [str_of_int 3; str_of_int 2; lit "Hi"; lit "recover"] [] None
                    (mkRng (fun i => Z.of_nat i * 31 + 7) 0))
           3 2 (lit "Hi") [lit "recover"]).
  - reflexivity.
  - lia.
  - lia.
  - repeat constructor; vm_compute; discriminate.
  - reflexivity.
  - discriminate.
Defined.

(** ** How the methods of the command line end *)

Lemma int_of_ascii_raises (buf : list Z) (e : exn) :
  int_of_ascii buf = Raise e -> e = invalid_literal.
Proof.
  unfold int_of_ascii. cbv zeta.
  destruct (match c_lstrip buf with
            | [] => (false, c_lstrip buf)
            | c :: r => if c =? 43 then (false, r) else if c =? 45 then (true, r)
                        else (false, c_lstrip buf)
            end) as [neg b1].
  destruct b1 as [|c r]; [intros H; injection H as <-; reflexivity|].
  destruct (is_digit c); [|intros H; injection H as <-; reflexivity].
  destruct (scan_digits r (c - 48)) as [[v rest]|]; [|intros H; injection H as <-; reflexivity].
  destruct (forallb c_isspace rest); [discriminate|intros H; injection H as <-; reflexivity].
Qed.

Lemma int_in_range_loop_ends (todecimal : Z -> option Z) (isdigit_other : Z -> bool)
    (prompt : str) (lo hi : Z) (lines : list str) :
  forall out,
    match int_in_range_loop todecimal isdigit_other prompt lo hi lines out with
    | (inr _, rest, _) => (length rest < length lines)%nat
    | (inl r, rest, _) =>
        (length rest <= length lines)%nat /\ (r = EOFError \/ r = PyExn invalid_literal)
    end.
Proof.
  induction lines as [|l r IH]; intros out; cbn [int_in_range_loop].
  - split; [lia|left; reflexivity].
  - destruct (isdigit isdigit_other (strip l)).
    + destruct (int_of_str todecimal (strip l)) as [v|e] eqn:E.
      * destruct ((lo <=? v) && (v <=? hi)); [simpl; lia|].
        specialize (IH (((out ++ [Prompt (prompt ++ lit " (" ++ str_of_int lo ++ lit "-"
                                           ++ str_of_int hi ++ lit "): ")])
                         ++ [Print (lit "[!] Value must be between " ++ str_of_int lo
                                    ++ lit " and " ++ str_of_int hi ++ lit ".")]))).
        destruct (int_in_range_loop _ _ _ _ _ r _) as [[[x|x] rest] out']; simpl; intuition lia.
      * split; [simpl; lia|]. right. f_equal.
        unfold int_of_str in E. apply (int_of_ascii_raises _ _ E).
    + specialize (IH ((out ++ [Prompt (prompt ++ lit " (" ++ str_of_int lo ++ lit "-"
                                       ++ str_of_int hi ++ lit "): ")])
                      ++ [Print (lit "[!] Enter an integer.")])).
      destruct (int_in_range_loop _ _ _ _ _ r _) as [[[x|x] rest] out']; simpl; intuition lia.
Qed.

Lemma input_int_in_range_ends (todecimal : Z -> option Z) (isdigit_other : Z -> bool)
    (prompt : str) (lo hi : Z) (w : world) :
  match input_int_in_range todecimal isdigit_other prompt lo hi w with
  | Returned _ w' => (length (stdin w') < length (stdin w))%nat /\ last_secret w' = last_secret w
  | Exited _ _ => False
  | Uncaught r w' => (r = EOFError \/ r = PyExn invalid_literal) /\ last_secret w' = last_secret w
  end.
Proof.
  unfold input_int_in_range.
  pose proof (int_in_range_loop_ends todecimal isdigit_other prompt lo hi (stdin w) (stdout w)) as H.
  destruct (int_in_range_loop _ _ _ _ _ _ _) as [[[x|x] rest] out']; cbn [stdin last_secret].
  - destruct H as [_ H]. split; [exact H|reflexivity].
  - split; [exact H|reflexivity].
Qed.

Lemma nonempty_loop_ends (prompt : str) (hidden : bool) (lines : list str) :
  forall out,
    match nonempty_loop prompt hidden lines out with
    | (inr v, rest, _) => (length rest < length lines)%nat /\ v <> []
    | (inl r, _, _) => r = EOFError
    end.
Proof.
  induction lines as [|v r IH]; intros out; cbn [nonempty_loop].
  - reflexivity.
  - destruct v as [|c v'].
    + specialize (IH ((out ++ [if hidden then PromptHidden prompt else Prompt prompt])
                      ++ [Print (lit "[!] Input cannot be empty.")])).
      destruct (nonempty_loop prompt hidden r _) as [[[x|x] rest] out']; simpl; intuition lia.
    + split; [simpl; lia|discriminate].
Qed.

Lemma print_shares_of (polys : list (list Z)) (xs : list Z) (w : world) :
  polys <> [] ->
  exists w', print_shares (shares_of polys xs) w = Returned tt w'
             /\ stdin w' = stdin w /\ last_secret w' = last_secret w.
Proof.
  intros Hp.
  rewrite (print_shares_tokens _ _ (shares_of_tokens polys xs Hp)).
  eexists. split; [reflexivity|]. split; reflexivity.
Qed.

(** What [encode_secret] returns for a non-empty secret can always be
    printed. *)
Lemma encode_secret_printable (secret : str) (n k : Z) (g : rng)
    (shares : list share) (g' : rng) (w : world) :
  secret <> [] ->
  encode_secret secret n k g = Ok (shares, g') ->
  exists w', print_shares shares w = Returned tt w'
             /\ stdin w' = stdin w /\ last_secret w' = last_secret w.
Proof.
  intros Hne He.
  destruct (isascii secret) eqn:Ha.
  - destruct (encode_secret_spec secret n k g Ha) as (polys & g1 & He' & HF).
    rewrite He' in He. injection He as <- <-.
    apply print_shares_of. intros ->. inversion HF. congruence.
  - unfold encode_secret in He. rewrite Ha in He. discriminate He.
Qed.

Lemma handle_split_ends (todecimal : Z -> option Z) (isdigit_other : Z -> bool) (w : world) :
  ends_well (handle_split todecimal isdigit_other w) (length (stdin w))
  /\ (last_secret w = None ->
      last_secret (world_of (handle_split todecimal isdigit_other w)) = None).
Proof.
  unfold handle_split. cbv zeta. unfold input_n, input_k.
  set (w0 := print _ w).
  assert (H0 : stdin w0 = stdin w /\ last_secret w0 = last_secret w) by (split; reflexivity).
  destruct H0 as [Hs0 Hl0].
  pose proof (input_int_in_range_ends todecimal isdigit_other
                (nl ++ lit "Total shares (n)") 2 (PRIME - 1) w0) as H1.
  destruct (input_int_in_range _ _ _ 2 (PRIME - 1) w0) as [n w1|c w1|r w1];
    [|contradiction|cbn [ends_well world_of]; destruct H1 as [H1 H1l]; split; [exact H1|congruence]].
  destruct H1 as [H1 H1l].
  pose proof (input_int_in_range_ends todecimal isdigit_other (lit "Threshold (k)") 2 n w1) as H2.
  destruct (input_int_in_range _ _ _ 2 n w1) as [k w2|c w2|r w2];
    [|contradiction|cbn [ends_well world_of]; destruct H2 as [H2 H2l]; split; [exact H2|congruence]].
  destruct H2 as [H2 H2l].
  unfold input_nonempty.
  pose proof (nonempty_loop_ends (lit "Secret (hidden): ") true (stdin w2) (stdout w2)) as H3.
  destruct (nonempty_loop _ true (stdin w2) (stdout w2)) as [[[r|secret] rest] out3].
  { cbn [ends_well world_of last_secret]. split; [left; exact H3|congruence]. }
  destruct H3 as [H3 Hne].
  cbn [gen stdin stdout last_secret].
  destruct (encode_secret secret n k (gen w2)) as [[shares g']|e] eqn:He.
  - destruct (encode_secret_printable secret n k (gen w2) shares g'
                (print SEP_MINUS (print (nl ++ lit "Shares (x:base64):")
                   (mkWorld rest out3 (last_secret w2) g'))) Hne He)
      as (w7 & Hp & Hs7 & Hl7).
    rewrite Hp. cbn [ends_well world_of]. split.
    + destruct secret as [|c0 s0]; [congruence|].
      unfold wipe_secret, set_last_secret, print. cbn [stdin stdout last_secret gen].
      rewrite Hs7. unfold print. cbn [stdin]. rewrite Hs0 in H1. lia.
    + intros _. apply wipe_set_nonempty. exact Hne.
  - cbn [ends_well world_of]. split.
    + destruct secret as [|c0 s0]; [congruence|].
      unfold wipe_secret, set_last_secret, print. cbn [stdin stdout last_secret gen].
      rewrite Hs0 in H1. lia.
    + intros _. apply wipe_set_nonempty. exact Hne.
Qed.

Lemma read_shares_rest (todecimal : Z -> option Z) (lines : list str) :
  forall acc,
    match read_shares todecimal lines acc with
    | Collected _ rest => (length rest < length lines)%nat
    | Invalid rest => (length rest < length lines)%nat
    | EndOfInput => True
    end.
Proof.
  induction lines as [|l r IH]; intros acc; cbn [read_shares].
  - exact I.
  - destruct (strip l) as [|c line'].
    + simpl. lia.
    + destruct (str_to_share todecimal (c :: line')) as [[|pt sh]|]; try (simpl; lia).
      specialize (IH (acc ++ [pt :: sh])).
      destruct (read_shares todecimal r _); simpl; lia.
Qed.

Lemma handle_recover_ends (todecimal : Z -> option Z) (w : world) :
  ends_well (handle_recover todecimal w) (length (stdin w)).
Proof.
  unfold handle_recover. cbv zeta.
  pose proof (read_shares_rest todecimal
                (stdin (print (nl ++ lit "Enter shares (x:base64), empty line to finish:")
                          (print (SEP ++ nl ++ lit "[ Secret Recovery ]" ++ nl ++ SEP) w))) [])
    as Hr.
  destruct (read_shares todecimal _ []) as [shares rest| rest |] eqn:E.
  - pose proof (read_shares_nonempty todecimal _ _ _ _ E (Forall_nil _)) as Hne.
    destruct (validate_shares_total shares Hne) as (valid & msg & Hv). rewrite Hv.
    cbn [print stdin] in Hr.
    assert (Hw : forall s w0, last_secret (set_last_secret (Some s) w0) = Some s)
      by reflexivity.
    destruct valid; cbn [negb].
    + destruct (decode_secret shares) as [secret|e].
      * destruct (negb (isascii secret)).
        -- unfold recover_failed, ends_well, wipe_secret.
           rewrite Hw. destruct secret; cbn [set_last_secret print stdin]; lia.
        -- unfold ends_well, wipe_secret.
           rewrite Hw. destruct secret; cbn [set_last_secret print stdin]; lia.
      * unfold recover_failed, ends_well. cbn [print stdin]. lia.
    + unfold ends_well. cbn [print stdin]. lia.
  - cbn [print stdin] in Hr. unfold ends_well. cbn [print stdin]. lia.
  - unfold secure_exit, ends_well. reflexivity.
Qed.

Lemma dispatch_ends (todecimal : Z -> option Z) (isdigit_other : Z -> bool)
    (cmd : str) (w : world) :
  ends_well (dispatch todecimal isdigit_other cmd w) (length (stdin w)).
Proof.
  unfold dispatch.
  destruct (str_eqb cmd (lit "split")).
  { apply handle_split_ends. }
  destruct (str_eqb cmd (lit "recover")).
  { apply handle_recover_ends. }
  destruct (str_eqb cmd (lit "help")).
  { unfold ends_well, print_usage. cbn [print stdin]. lia. }
  destruct (str_eqb cmd (lit "exit")).
  { unfold secure_exit, ends_well. reflexivity. }
  unfold ends_well. cbn [print stdin]. lia.
Qed.

(** A turn of the loop of [main] that returns has read a line. *)
Lemma main_turn_ends (todecimal : Z -> option Z) (isdigit_other : Z -> bool)
    (lower_other : Z -> str) (w : world) :
  match main_turn todecimal isdigit_other lower_other w with
  | Returned _ w' => (length (stdin w') < length (stdin w))%nat
  | Exited c _ => c = 0
  | Uncaught r _ => r = PyExn invalid_literal
  end.
Proof.
  unfold main_turn. cbv zeta. cbn [print stdin stdout last_secret gen].
  destruct (stdin w) as [|l rest] eqn:Hin.
  - unfold secure_exit. reflexivity.
  - unfold print at 1. cbn [stdin stdout last_secret gen].
    match goal with
    | |- context [dispatch _ _ ?c ?w3] =>
        pose proof (dispatch_ends todecimal isdigit_other c w3) as H;
        destruct (dispatch todecimal isdigit_other c w3) as [[] w'|c' w'|r w']
    end; unfold ends_well in H; cbn [stdin] in H.
    + simpl. lia.
    + exact H.
    + destruct r as [e|].
      * destruct H as [H|H]; [discriminate H|exact H].
      * unfold secure_exit. reflexivity.
Qed.

Lemma main_loop_ends (todecimal : Z -> option Z) (isdigit_other : Z -> bool)
    (lower_other : Z -> str) (turns : nat) :
  forall w, (length (stdin w) < turns)%nat ->
    (exists w', main_loop todecimal isdigit_other lower_other turns w = Exited 0 w')
    \/ (exists w', main_loop todecimal isdigit_other lower_other turns w
                   = Uncaught (PyExn invalid_literal) w').
Proof.
  induction turns as [|t IH]; intros w Hlen; [lia|].
  cbn [main_loop].
  pose proof (main_turn_ends todecimal isdigit_other lower_other w) as H.
  destruct (main_turn todecimal isdigit_other lower_other w) as [[] w'|c w'|r w'].
  - apply IH. lia.
  - subst c. left. eexists. reflexivity.
  - subst r. right. eexists. reflexivity.
Qed.

Lemma main_loop_more (todecimal : Z -> option Z) (isdigit_other : Z -> bool)
    (lower_other : Z -> str) (turns : nat) :
  forall w more, (length (stdin w) < turns)%nat ->
    main_loop todecimal isdigit_other lower_other (turns + more) w
    = main_loop todecimal isdigit_other lower_other turns w.
Proof.
  induction turns as [|t IH]; intros w more Hlen; [lia|].
  cbn [main_loop Nat.add].
  pose proof (main_turn_ends todecimal isdigit_other lower_other w) as H.
  destruct (main_turn todecimal isdigit_other lower_other w) as [[] w'|c w'|r w'];
    [apply IH; lia|reflexivity|reflexivity].
Qed.

(** X22. [main] always comes to an end, and there are two ways out of it only:
    the process ends with status 0 (the command [exit], or the end of input
    at any prompt), or the [ValueError] of [int] leaves [main] uncaught.  No
    other exception of blob.py reaches the user, whatever is typed.  The loop
    takes no more turns than there are lines to read and one: more turns
    change nothing. *)
Theorem main_ends (todecimal : Z -> option Z) (isdigit_other : Z -> bool)
    (lower_other : Z -> str) (w : world) :
  ((exists w', main todecimal isdigit_other lower_other w = Exited 0 w')
   \/ (exists w', main todecimal isdigit_other lower_other w
                  = Uncaught (PyExn invalid_literal) w'))
  /\ (forall more,
        main_loop todecimal isdigit_other lower_other (S (length (stdin w)) + more)
          (print_usage (print (lit "Blob CLI") (print (nl ++ SEP) w)))
        = main todecimal isdigit_other lower_other w).
Proof.
  unfold main. cbv zeta. split.
  - apply main_loop_ends. unfold print_usage. cbn [print stdin]. lia.
  - intros more.
    change (stdin (print_usage (print (lit "Blob CLI") (print (nl ++ SEP) w))))
      with (stdin w).
    apply main_loop_more. unfold print_usage. cbn [print stdin]. lia.
Qed.

Lemma int_of_str_not_decimal (todecimal : Z -> option Z) (c : Z) :
  128 <= c -> isspace c = false -> todecimal c = None ->
  int_of_str todecimal [c] = Raise invalid_literal.
Proof.
  intros Hc Hs Hd. unfold int_of_str. cbn [to_ascii].
  replace (c <? 128) with false by (symmetry; apply Z.ltb_ge; exact Hc).
  rewrite Hs, Hd. reflexivity.
Qed.

Lemma strip_single (c : Z) : isspace c = false -> strip [c] = [c].
Proof.
  intros Hs. unfold strip, rstrip. cbn [lstrip]. rewrite Hs. cbn [rev app lstrip].
  rewrite Hs. reflexivity.
Qed.

(** X23. The program can be brought down from the keyboard.  [str.isdigit] takes
    digits that [int] does not read, such as a superscript two: when such a
    character is typed as the number of shares after the command [split],
    [input_int_in_range] passes it to [int], and the [ValueError] of [int]
    leaves [main], which catches [KeyboardInterrupt] and [EOFError] only. *)
Theorem main_digit_crash (todecimal : Z -> option Z) (isdigit_other : Z -> bool)
    (lower_other : Z -> str) (w : world) (c : Z) (rest : list str) :
  stdin w = lit "split" :: [c] :: rest ->
  128 <= c ->
  isspace c = false ->
  isdigit_other c = true ->
  todecimal c = None ->
  exists w',
    main todecimal isdigit_other lower_other w = Uncaught (PyExn invalid_literal) w'
    /\ stdin w' = rest.
Proof.
  intros Hin Hc Hs Hdig Hdec.
  unfold main. cbv zeta.
  change (stdin (print_usage (print (lit "Blob CLI") (print (nl ++ SEP) w))))
    with (stdin w).
  cbn [main_loop]. unfold main_turn at 1. cbv zeta.
  change (stdin (print_usage (print (lit "Blob CLI") (print (nl ++ SEP) w))))
    with (stdin w).
  cbn [print stdin stdout last_secret gen].
  change (stdin (print_usage (print (lit "Blob CLI") (print (nl ++ SEP) w))))
    with (stdin w).
  rewrite Hin.
  change (lower lower_other (strip (lit "split"))) with (lit "split").
  unfold dispatch.
  change (str_eqb (lit "split") (lit "split")) with true. cbv iota.
  unfold handle_split. cbv zeta. unfold input_n, input_int_in_range.
  cbn [print stdin stdout last_secret gen int_in_range_loop].
  rewrite (strip_single c Hs).
  unfold isdigit. cbn [forallb].
  replace (c <? 128) with false by (symmetry; apply Z.ltb_ge; exact Hc).
  rewrite Hdig. cbn [andb].
  rewrite (int_of_str_not_decimal todecimal c Hc Hs Hdec).
  eexists. split; reflexivity.
Qed.

Lemma main_digit_crash_witness :
  exists w',
    main (fun _ => None) (fun c => c =? 178) (fun c => [c])
      (mkWorld [lit "split"; [178]; lit "exit"] [] None (mkRng (fun _ => 0) 0))
    = Uncaught (PyExn invalid_literal) w'
    /\ stdin w' = [lit "exit"].
Proof.
  apply (main_digit_crash (fun _ => None) (fun c => c =? 178) (fun c => [c])
           (mkWorld [lit "split"; [178]; lit "exit"] [] None (mkRng (fun _ => 0) 0))
           178 [lit "exit"]).
  - reflexivity.
  - lia.
  - reflexivity.
  - reflexivity.
  - reflexivity.
Defined.

(** X24. A secret that is not ASCII is refused by [handle_split] after [n] and
    [k] were read: one message is printed and no share, the generator is not
    used, the secret is not kept, and the method returns. *)
Theorem handle_split_non_ascii (todecimal : Z -> option Z) (isdigit_other : Z -> bool)
    (w : world) (n k : Z) (secret : str) (rest : list str) :
  stdin w = str_of_int n :: str_of_int k :: secret :: rest ->
  2 <= n <= 256 ->
  2 <= k <= n ->
  secret <> [] ->
  isascii secret = false ->
  handle_split todecimal isdigit_other w
  = Returned tt
      (mkWorld rest
         (stdout w ++ split_banner n
          ++ [Print (nl ++ lit "[!] Error: could not encode secret."); Print SEP])
         None (gen w)).
Proof.
  intros Hin Hn Hk Hne Ha.
  unfold handle_split. cbv zeta. unfold input_n, input_k.
  rewrite (input_int_in_range_canonical _ _ _ 2 (PRIME - 1) n (str_of_int k :: secret :: rest));
    [|cbn [print stdin]; exact Hin|lia|unfold PRIME; lia].
  rewrite (input_int_in_range_canonical _ _ _ 2 n k (secret :: rest));
    [|reflexivity|lia|lia].
  unfold input_nonempty. cbn [stdin stdout last_secret gen print nonempty_loop].
  destruct secret as [|c0 s0]; [congruence|].
  cbn [stdin stdout last_secret gen].
  unfold encode_secret. rewrite Ha.
  unfold split_banner, range_prompt, wipe_secret, set_last_secret, print.
  cbn [stdin stdout last_secret gen]. rewrite <- !app_assoc. reflexivity.
Qed.

Lemma handle_split_non_ascii_witness :
  handle_split (fun _ => None) (fun _ => false)
    (mkWorld [str_of_int 3; str_of_int 2; [233]; lit "exit"] [] None (mkRng (fun _ => 9) 0))
  = Returned tt
      (mkWorld [lit "exit"]
         ([] ++ split_banner 3
          ++ [Print (nl ++ lit "[!] Error: could not encode secret."); Print SEP])
         None (mkRng (fun _ => 9) 0)).
Proof.
  apply (handle_split_non_ascii (fun _ => None) (fun _ => false)
           (mkWorld [str_of_int 3; str_of_int 2; [233]; lit "exit"] [] None
                    (mkRng (fun _ => 9) 0))
           3 2 [233] [lit "exit"]).
  - reflexivity.
  - lia.
  - lia.
  - discriminate.
  - reflexivity.
Defined.

(** ** The secret is not kept *)

Lemma secure_exit_keeps_none (w : world) :
  last_secret w = None -> last_secret (world_of (@secure_exit unit w)) = None.
Proof.
  intros Hw. unfold secure_exit. cbn [world_of print last_secret].
  unfold wipe_secret. rewrite Hw. exact Hw.
Qed.

Lemma dispatch_keeps_none (todecimal : Z -> option Z) (isdigit_other : Z -> bool)
    (cmd : str) (w : world) :
  last_secret w = None ->
  last_secret (world_of (dispatch todecimal isdigit_other cmd w)) = None.
Proof.
  intros Hw. unfold dispatch.
  destruct (str_eqb cmd (lit "split")).
  { apply handle_split_ends. exact Hw. }
  destruct (str_eqb cmd (lit "recover")).
  { apply handle_recover_keeps_none. exact Hw. }
  destruct (str_eqb cmd (lit "help")).
  { exact Hw. }
  destruct (str_eqb cmd (lit "exit")).
  { apply secure_exit_keeps_none. exact Hw. }
  exact Hw.
Qed.

Lemma main_turn_keeps_none (todecimal : Z -> option Z) (isdigit_other : Z -> bool)
    (lower_other : Z -> str) (w : world) :
  last_secret w = None ->
  last_secret (world_of (main_turn todecimal isdigit_other lower_other w)) = None.
Proof.
  intros Hw. unfold main_turn. cbv zeta. cbn [print stdin stdout last_secret gen].
  destruct (stdin w) as [|l rest].
  - apply secure_exit_keeps_none. exact Hw.
  - match goal with
    | |- context [dispatch _ _ ?c ?w3] =>
        pose proof (dispatch_keeps_none todecimal isdigit_other c w3 Hw) as H;
        destruct (dispatch todecimal isdigit_other c w3) as [[] w'|c' w'|r w']
    end; cbn [world_of] in H; try exact H.
    destruct r as [e|]; [exact H|].
    apply secure_exit_keeps_none. exact H.
Qed.

Lemma main_loop_keeps_none (todecimal : Z -> option Z) (isdigit_other : Z -> bool)
    (lower_other : Z -> str) (turns : nat) :
  forall w, last_secret w = None ->
    last_secret (world_of (main_loop todecimal isdigit_other lower_other turns w)) = None.
Proof.
  induction turns as [|t IH]; intros w Hw; cbn [main_loop].
  - exact Hw.
  - pose proof (main_turn_keeps_none todecimal isdigit_other lower_other w Hw) as H.
    destruct (main_turn todecimal isdigit_other lower_other w) as [[] w'|c w'|r w'];
      cbn [world_of] in H |- *; [apply IH; exact H|exact H|exact H].
Qed.

(** X25. The program keeps no secret.  When the instance holds none at the start
    (the class attribute is [None]), it holds none when [handle_split],
    [handle_recover] or the whole of [main] has come to its end, whichever
    way that is and whatever was typed: each secret that was read or
    recovered is overwritten and its attribute deleted before the method is
    left. *)
Theorem cli_forgets_secret (todecimal : Z -> option Z) (isdigit_other : Z -> bool)
    (lower_other : Z -> str) (w : world) :
  last_secret w = None ->
  last_secret (world_of (handle_split todecimal isdigit_other w)) = None
  /\ last_secret (world_of (handle_recover todecimal w)) = None
  /\ last_secret (world_of (main todecimal isdigit_other lower_other w)) = None.
Proof.
  intros Hw. split; [|split].
  - apply handle_split_ends. exact Hw.
  - apply handle_recover_keeps_none. exact Hw.
  - unfold main. cbv zeta. apply main_loop_keeps_none. exact Hw.
Qed.

Lemma cli_forgets_secret_witness :
  last_secret (world_of (handle_split (fun _ => None) (fun _ => false)
     (mkWorld [lit "3"; lit "2"; lit "Hi"; lit "1:AEg="; lit "2:AEg="; []] [] None
              (mkRng (fun _ => 5) 0)))) = None
  /\ last_secret (world_of (handle_recover (fun _ => None)
     (mkWorld [lit "3"; lit "2"; lit "Hi"; lit "1:AEg="; lit "2:AEg="; []] [] None
              (mkRng (fun _ => 5) 0)))) = None
  /\ last_secret (world_of (main (fun _ => None) (fun _ => false) (fun c => [c])
     (mkWorld [lit "3"; lit "2"; lit "Hi"; lit "1:AEg="; lit "2:AEg="; []] [] None
              (mkRng (fun _ => 5) 0)))) = None.
Proof.
  apply (cli_forgets_secret (fun _ => None) (fun _ => false) (fun c => [c])
           (mkWorld [lit "3"; lit "2"; lit "Hi"; lit "1:AEg="; lit "2:AEg="; []] [] None
                    (mkRng (fun _ => 5) 0))).
  reflexivity.
Defined.

(** ** The prompts ask again *)




Lemma nonempty_loop_first (prompt : str) (hidden : bool) (v : str) (rest : list str)
    (m : nat) :
  v <> [] ->
  forall out,
    nonempty_loop prompt hidden (repeat [] m ++ v :: rest) out
    = (inr v, rest,
       out ++ concat (repeat [nonempty_prompt prompt hidden;
                              Print (lit "[!] Input cannot be empty.")] m)
           ++ [nonempty_prompt prompt hidden]).
Proof.
  intros Hv. induction m as [|m IH]; intros out; cbn [repeat app nonempty_loop concat].
  - destruct v; [congruence|reflexivity].
  - rewrite IH. unfold nonempty_prompt. rewrite <- !app_assoc. reflexivity.
Qed.

(** X27. [input_nonempty] asks until a line is not empty, answering each empty
    line with its message, and returns that line as it was typed: nothing is
    stripped, so a line of blanks is taken as it is. *)
Theorem input_nonempty_first (prompt : str) (hidden : bool) (w : world)
    (m : nat) (v : str) (rest : list str) :
  stdin w = repeat [] m ++ v :: rest ->
  v <> [] ->
  input_nonempty prompt hidden w
  = Returned v
      (mkWorld rest
         (stdout w
          ++ concat (repeat [nonempty_prompt prompt hidden;
                             Print (lit "[!] Input cannot be empty.")] m)
          ++ [nonempty_prompt prompt hidden])
         (last_secret w) (gen w)).
Proof.
  intros Hin Hv. unfold input_nonempty.
  rewrite Hin, (nonempty_loop_first prompt hidden v rest m Hv). reflexivity.
Qed.

Lemma input_nonempty_first_witness :
  input_nonempty (lit "Secret (hidden): ") true
    (mkWorld [[]; []; lit "  "; lit "x"] [] None (mkRng (fun _ => 0) 0))
  = Returned (lit "  ")
      (mkWorld [lit "x"]
         ([]
          ++ concat (repeat [nonempty_prompt (lit "Secret (hidden): ") true;
                             Print (lit "[!] Input cannot be empty.")] 2)
          ++ [nonempty_prompt (lit "Secret (hidden): ") true])
         None (mkRng (fun _ => 0) 0)).
Proof.
  apply (input_nonempty_first (lit "Secret (hidden): ") true
           (mkWorld [[]; []; lit "  "; lit "x"] [] None (mkRng (fun _ => 0) 0))
           2 (lit "  ") [lit "x"]).
  - reflexivity.
  - discriminate.
Defined.
